(** * BER estimator: a shallow embedding of the simulation core

    The development follows the C++ sources of the simulator:
    - [coder.cpp] / [coder.hpp]: the rate-1/2, K=7 convolutional encoder and
      its hard-decision Viterbi decoder, and the pass-through coder;
    - [modem.hpp]: the 2-ASK and 4-ASK modems;
    - [channel.cpp]: the AWGN and the real Rayleigh channel;
    - [simulation.cpp]: the Wilson interval, the stop predicates, the worker
      loop with its shared atomic counters, and the aggregate result;
    - [main.cpp]: the SNR sweep with its early stop, the component
      factories and the automatic output name;
    - [utils.cpp]: the seed choice and the SNR grid;
    - [config.cpp]: [trim], the INI reader and the validation of
      [Config::load].

    Conventions.  A C++ [int] or [uint32_t] holding a bit, a shift register
    or a trellis state is a [Z]; [std::vector] and C arrays are lists read
    with [!!!] and written with [<[i:=x]>]; [uint64_t] counters are [Z] with
    the wrap-around at [2^64] written out.  A C++ [double] is a real number
    ([R]).  Where the code itself can produce NaN (the critical value [z],
    the Wilson half-width) the value is an [option R] with [None] for NaN,
    and a comparison with NaN is false.  Rounding is written out where a
    branch depends on it: the argument of [inv_norm_cdf] is rounded to
    binary64, the break points of [inv_norm_cdf] are the doubles the code
    compares with, and a [double] converted to [int] keeps 32 bits.
    Elsewhere arithmetic is exact; [Module Binary64] evaluates the interval
    arithmetic on binary64 numbers themselves.  Inputs are finite numbers.
    A [std::string] is the list of its bytes ([Ascii.ascii]); the character
    classes are those of the default "C" locale. *)

From Stdlib Require Import ZArith Reals Lra Lia.
From Stdlib Require Ascii String.
From Stdlib Require Floats Uint63.
From stdpp Require Import base tactics list.

Local Open Scope Z_scope.

(** ** Finite enumeration helpers *)

Definition all_below (n : nat) (P : Z -> bool) : bool :=
  forallb (fun k => P (Z.of_nat k)) (seq 0 n).

Lemma all_below_spec (n : nat) (P : Z -> bool) :
  all_below n P = true -> forall z, 0 <= z < Z.of_nat n -> P z = true.
Proof.
  unfold all_below. rewrite forallb_forall. intros H z Hz.
  specialize (H (Z.to_nat z)). rewrite Z2Nat.id in H by lia.
  apply H. apply in_seq. lia.
Qed.

(** ** coder.cpp: [ConvK7R12] *)

Module ConvK7R12.

(** [static const int p4[16]] and [parity32]. *)
Definition p4 : list Z := [0; 1; 1; 0; 1; 0; 0; 1; 1; 0; 0; 1; 0; 1; 1; 0].

Definition parity32 (x : Z) : Z :=
  let x := Z.lxor x (Z.shiftr x 16) in
  let x := Z.lxor x (Z.shiftr x 8) in
  let x := Z.lxor x (Z.shiftr x 4) in
  let x := Z.land x 15 in
  p4 !!! Z.to_nat x.

(** Generators [G0 = 0b1011011], [G1 = 0b1111001] and the memory [M]. *)
Definition G0 : Z := 91.
Definition G1 : Z := 121.
Definition M : Z := 6.

(** The body of the [push] lambda of [ConvK7R12::encode]: the new register. *)
Definition shift_in (sr bit : Z) : Z :=
  Z.land (Z.lor (Z.shiftl sr 1) (Z.land bit 1)) (Z.shiftl 1 (M + 1) - 1).

(** [push]: the state is the register [sr] and the output vector [c]. *)
Definition push (st : Z * list Z) (bit : Z) : Z * list Z :=
  let sr := shift_in st.1 bit in
  let v0 := parity32 (Z.land sr G0) in
  let v1 := parity32 (Z.land sr G1) in
  (sr, st.2 ++ [v0; v1]).

(** [ConvK7R12::encode]: the input bits, then [M] zero bits. *)
Definition encode (u : list Z) : list Z :=
  let st := foldl push (0, []) u in
  let st := foldl (fun st (_ : nat) => push st 0) st (seq 0 (Z.to_nat M)) in
  st.2.

(** [struct Trans] and the table entries [T0[s]], [T1[s]] of [decode]. *)
Record Trans := mkTrans { next : Z; out : Z }.

#[export] Instance Trans_inhabited : Inhabited Trans := populate (mkTrans 0 0).

Definition trans (b s : Z) : Trans :=
  let sr := Z.land (Z.lor (Z.shiftl s 1) b) (Z.shiftl 1 (M + 1) - 1) in
  let v0 := parity32 (Z.land sr G0) in
  let v1 := parity32 (Z.land sr G1) in
  mkTrans (Z.land sr (Z.shiftl 1 M - 1)) (Z.lor (Z.shiftl v0 1) v1).

Definition NSTATE : nat := Z.to_nat (Z.shiftl 1 M).
Definition INF : Z := 1000000000.

Definition T0 : list Trans := (fun s => trans 0 (Z.of_nat s)) <$> seq 0 NSTATE.
Definition T1 : list Trans := (fun s => trans 1 (Z.of_nat s)) <$> seq 0 NSTATE.

(** The working set of the decoder: both path-metric vectors and the
    flattened [n_sym * NSTATE] predecessor and decision tables. *)
Record Vit := mkVit {
  pm_prev : list Z;
  pm_curr : list Z;
  pred : list Z;
  dec : list Z
}.

(** [dist]: Hamming distance between the reference and the received pair. *)
Definition dist (ref r : Z) : Z :=
  Z.lxor (Z.land (Z.shiftr ref 1) 1) (Z.land (Z.shiftr r 1) 1)
  + Z.lxor (Z.land ref 1) (Z.land r 1).

(** One relaxation block ([// b=0] or [// b=1]) of the inner loop. *)
Definition relax (t s : nat) (b : Z) (tr : Trans) (pm r : Z) (v : Vit) : Vit :=
  let ns := Z.to_nat (next tr) in
  let m := pm + dist (out tr) r in
  if m <? pm_curr v !!! ns
  then mkVit (pm_prev v)
             (<[ns := m]> (pm_curr v))
             (<[(t * NSTATE + ns)%nat := Z.of_nat s]> (pred v))
             (<[(t * NSTATE + ns)%nat := b]> (dec v))
  else v.

(** The body of [for (int s = 0; s < NSTATE; ++s)]. *)
Definition acs_state (t : nat) (r : Z) (v : Vit) (s : nat) : Vit :=
  let pm := pm_prev v !!! s in
  if INF <=? pm then v
  else relax t s 1 (T1 !!! s) pm r (relax t s 0 (T0 !!! s) pm r v).

(** The body of [for (size_t t = 0; t < n_sym; ++t)]. *)
Definition acs_step (c_hat : list Z) (v : Vit) (t : nat) : Vit :=
  let r := Z.lor (Z.shiftl (c_hat !!! (2 * t)%nat) 1) (c_hat !!! (2 * t + 1)%nat) in
  let v := mkVit (pm_prev v) (replicate (length (pm_curr v)) INF) (pred v) (dec v) in
  let v := foldl (acs_state t r) v (seq 0 NSTATE) in
  mkVit (pm_curr v) (pm_prev v) (pred v) (dec v).

(** The body of the traceback loop [for (size_t t = n_sym; t-- > 0;)]. *)
Definition traceback_step (K : nat) (v : Vit) (st : Z * list Z) (t : nat)
  : Z * list Z :=
  let state := st.1 in
  let b := dec v !!! (t * NSTATE + Z.to_nat state)%nat in
  let p := pred v !!! (t * NSTATE + Z.to_nat state)%nat in
  let u_hat := if (t <? K)%nat then <[t := b]> st.2 else st.2 in
  (if 0 <=? p then p else 0, u_hat).

(** [ConvK7R12::decode]. *)
Definition decode (c_hat : list Z) : list Z :=
  let n_sym := (length c_hat / 2)%nat in
  if (n_sym =? 0)%nat then []
  else
    let v0 := mkVit (<[0%nat := 0]> (replicate NSTATE INF))
                    (replicate NSTATE INF)
                    (replicate (n_sym * NSTATE) (-1))
                    (replicate (n_sym * NSTATE) 0) in
    let v := foldl (acs_step c_hat) v0 (seq 0 n_sym) in
    let K := if (Z.to_nat M <? n_sym)%nat then (n_sym - Z.to_nat M)%nat else 0%nat in
    (foldl (traceback_step K v) (0, replicate K 0) (rev (seq 0 n_sym))).2.

End ConvK7R12.

(** [Uncoded] (coder.hpp): both directions copy the vector. *)
Module Uncoded.

Definition encode (u : list Z) : list Z := u.
Definition decode (c_hat : list Z) : list Z := c_hat.

End Uncoded.


(** [ICoder] (coder.hpp).  The base class supplies [decode_soft] (it clears
    [u_hat]) and [supports_soft] (false); neither coder overrides them. *)
Record ICoder := mkCoder {
  encode : list Z -> list Z;
  decode : list Z -> list Z;
  decode_soft : list R -> list Z;
  rate : R;
  supports_soft : bool
}.

Definition UncodedCoder : ICoder :=
  mkCoder Uncoded.encode Uncoded.decode (fun _ => []) 1%R false.

Definition ConvK7R12Coder : ICoder :=
  mkCoder ConvK7R12.encode ConvK7R12.decode (fun _ => []) 0.5%R false.

(** ** modem.hpp *)

#[export] Instance Rlt_decision (x y : R) : Decision (x < y)%R := Rlt_dec x y.
#[export] Instance Rle_decision (x y : R) : Decision (x <= y)%R := Rle_dec x y.
#[export] Instance R_inhabited : Inhabited R := populate 0%R.

(** [Ask2Modem]. *)
Module Ask2Modem.
Local Open Scope R_scope.

Definition modulate (bits : list Z) : R :=
  if (bits !!! 0%nat =? 0)%Z then 1 else -1.

Definition demodulate (r : R) (bits_out : list Z) : list Z :=
  <[0%nat := if bool_decide (r < 0) then 1%Z else 0%Z]> bits_out.

Definition demodulate_llr (r sigma2 : R) (L : list R) : list R :=
  <[0%nat := 2 * r / sigma2]> L.

Definition bits_per_symbol : Z := 1.
Definition symbol_energy : R := 1.

End Ask2Modem.

(** [Ask4Modem]: symbols [-3, -1, +1, +3]. *)
Module Ask4Modem.
Local Open Scope R_scope.

Inductive Mapping := Gray | Natural.

(** The two [switch (val)] blocks; a value outside [0..3] falls through to
    the final [return 0.0]. *)
Definition modulate (mapping : Mapping) (bits : list Z) : R :=
  let b0 := bits !!! 0%nat in
  let b1 := bits !!! 1%nat in
  let val := Z.lor (Z.shiftl b0 1) b1 in
  match mapping with
  | Gray =>
      if (val =? 0)%Z then -3 else if (val =? 1)%Z then -1
      else if (val =? 3)%Z then 1 else if (val =? 2)%Z then 3 else 0
  | Natural =>
      if (val =? 0)%Z then -3 else if (val =? 1)%Z then -1
      else if (val =? 2)%Z then 1 else if (val =? 3)%Z then 3 else 0
  end.

(** Thresholds at [-2], [0], [+2]. *)
Definition slice (r : R) : Z :=
  if bool_decide (r < -2) then 0%Z
  else if bool_decide (r < 0) then 1%Z
  else if bool_decide (r < 2) then 2%Z
  else 3%Z.

Definition set_bits (b0 b1 : Z) (bits_out : list Z) : list Z :=
  <[1%nat := b1]> (<[0%nat := b0]> bits_out).

Definition demodulate (mapping : Mapping) (r : R) (bits_out : list Z) : list Z :=
  let sym := slice r in
  match mapping with
  | Gray =>
      if (sym =? 0)%Z then set_bits 0 0 bits_out
      else if (sym =? 1)%Z then set_bits 0 1 bits_out
      else if (sym =? 2)%Z then set_bits 1 1 bits_out
      else if (sym =? 3)%Z then set_bits 1 0 bits_out
      else bits_out
  | Natural =>
      if (sym =? 0)%Z then set_bits 0 0 bits_out
      else if (sym =? 1)%Z then set_bits 0 1 bits_out
      else if (sym =? 2)%Z then set_bits 1 0 bits_out
      else if (sym =? 3)%Z then set_bits 1 1 bits_out
      else bits_out
  end.

Definition demodulate_llr (mapping : Mapping) (r sigma2 : R) (L : list R) : list R :=
  let d0 := exp (- ((r + 3) ^ 2) / (2 * sigma2)) in
  let d1 := exp (- ((r + 1) ^ 2) / (2 * sigma2)) in
  let d2 := exp (- ((r - 1) ^ 2) / (2 * sigma2)) in
  let d3 := exp (- ((r - 3) ^ 2) / (2 * sigma2)) in
  match mapping with
  | Gray =>
      <[1%nat := ln ((d0 + d3) / (d1 + d2))]>
        (<[0%nat := ln ((d0 + d1) / (d2 + d3))]> L)
  | Natural =>
      <[1%nat := ln ((d0 + d2) / (d1 + d3))]>
        (<[0%nat := ln ((d0 + d1) / (d2 + d3))]> L)
  end.

Definition bits_per_symbol : Z := 2.
Definition symbol_energy : R := 5.

End Ask4Modem.

(** [IModem]: the arrays [bits_out] and [L] are passed in and returned. *)
Record IModem := mkModem {
  modulate : list Z -> R;
  demodulate : R -> list Z -> list Z;
  demodulate_llr : R -> R -> list R -> list R;
  bits_per_symbol : Z;
  symbol_energy : R
}.

Definition Ask2 : IModem :=
  mkModem Ask2Modem.modulate Ask2Modem.demodulate Ask2Modem.demodulate_llr
          Ask2Modem.bits_per_symbol Ask2Modem.symbol_energy.

Definition Ask4 (mapping : Ask4Modem.Mapping) : IModem :=
  mkModem (Ask4Modem.modulate mapping) (Ask4Modem.demodulate mapping)
          (Ask4Modem.demodulate_llr mapping)
          Ask4Modem.bits_per_symbol Ask4Modem.symbol_energy.

(** ** The random engine

    [std::mt19937_64] and the distributions of [<random>] belong to the C++
    standard library, so the generator is an interface: seeding, a raw
    64-bit draw, a fair Bernoulli draw, and a standard-normal draw.
    [std::normal_distribution<double>(mean, sigma)] is the affine image of
    the standard-normal draw. *)
Class RandomEngine (G : Type) := {
  seed_engine : Z -> G;
  next_u64 : G -> Z * G;
  bernoulli_half : G -> bool * G;
  std_normal : G -> R * G
}.

Definition normal_distribution `{RandomEngine G} (mean sigma : R) (rng : G) : R * G :=
  let '(g, rng) := std_normal rng in ((mean + sigma * g)%R, rng).

(** ** channel.hpp, channel.cpp *)

Record ChannelOutput := mkOut { y : R; gain : R }.

Module AwgnChannel.
Local Open Scope R_scope.

Definition transmit `{RandomEngine G} (s : R) (rng : G) (sigma : R)
  : ChannelOutput * G :=
  let '(n, rng) := normal_distribution 0 sigma rng in
  (mkOut (s + n) 1, rng).

End AwgnChannel.

Module RayleighChannel.
Local Open Scope R_scope.

Definition transmit `{RandomEngine G} (s : R) (rng : G) (sigma : R)
  : ChannelOutput * G :=
  let '(g, rng) := normal_distribution 0 1 rng in
  let h := Rabs g in
  (mkOut (h * s) h, rng).

End RayleighChannel.

Record IChannel (G : Type) := mkChannel {
  transmit : R -> G -> R -> ChannelOutput * G
}.
Arguments mkChannel {G} _.
Arguments transmit {G} _ _ _ _.

Definition Awgn `{RandomEngine G} : IChannel G := mkChannel AwgnChannel.transmit.
Definition Rayleigh `{RandomEngine G} : IChannel G := mkChannel RayleighChannel.transmit.

(** ** simulation.cpp: statistics *)

Module Stats.
Local Open Scope R_scope.

(** Round to the nearest integer, ties to the even one. *)
Definition rne (x : R) : Z :=
  let f := Int_part x in
  let d := x - IZR f in
  if bool_decide (d < / 2) then f
  else if bool_decide (/ 2 < d) then (f + 1)%Z
  else if Z.even f then f else (f + 1)%Z.

(** The binary64 value of a real in [[1/2, 1]]: the doubles of that range
    are the multiples of [2^-53], and [2^53 = 9007199254740992]. *)
Definition round_unit (x : R) : R :=
  IZR (rne (x * 9007199254740992)) / 9007199254740992.

(** Comparisons of a double that may be NaN: false on NaN. *)
Definition nan_le (x : option R) (y : R) : bool :=
  match x with Some x => bool_decide (x <= y) | None => false end.

Definition nan_pos (x : option R) : bool :=
  match x with Some x => bool_decide (0 < x) | None => false end.

(** [inv_norm_cdf]: Acklam's approximation; [None] stands for the NaN
    returned outside the open unit interval.  [plow] is the double nearest
    to [0.02425] and [phigh] the double that [1 - plow] rounds to, as exact
    fractions. *)
Definition inv_norm_cdf (p : R) : option R :=
  if bool_decide (p <= 0) then None
  else if bool_decide (1 <= p) then None
  else
    let a1 := -39.69683028665376 in let a2 := 220.9460984245205 in
    let a3 := -275.9285104469687 in let a4 := 138.3577518672690 in
    let a5 := -30.66479806614716 in let a6 := 2.506628277459239 in
    let b1 := -54.47609879822406 in let b2 := 161.5858368580409 in
    let b3 := -155.6989798598866 in let b4 := 66.80131188771972 in
    let b5 := -13.28068155288572 in
    let c1 := -7.784894002430293e-03 in let c2 := -3.223964580411365e-01 in
    let c3 := -2.400758277161838 in let c4 := -2.549732539343734 in
    let c5 := 4.374664141464968 in let c6 := 2.938163982698783 in
    let d1 := 7.784695709041462e-03 in let d2 := 3.224671290700398e-01 in
    let d3 := 2.445134137142996 in let d4 := 3.754408661907416 in
    let plow := 3494793310839505 / 144115188075855872 in
    let phigh := 8788774672813523 / 9007199254740992 in
    if bool_decide (p < plow) then
      let q := sqrt (-2 * ln p) in
      Some ((((((c1 * q + c2) * q + c3) * q + c4) * q + c5) * q + c6)
            / (((((d1 * q + d2) * q + d3) * q + d4) * q) + 1))
    else if bool_decide (phigh < p) then
      let q := sqrt (-2 * ln (1 - p)) in
      Some (- (((((c1 * q + c2) * q + c3) * q + c4) * q + c5) * q + c6)
            / (((((d1 * q + d2) * q + d3) * q + d4) * q) + 1))
    else
      let q := p - 0.5 in
      let r := q * q in
      Some ((((((a1 * r + a2) * r + a3) * r + a4) * r + a5) * r + a6) * q
            / (((((b1 * r + b2) * r + b3) * r + b4) * r + b5) * r + 1)).

(** [wilson_ci]: the tuple [(lo, hi, half)].  With [z] NaN, or with a
    negative argument of [std::sqrt] (possible only when [errs > bits]),
    [rad] is NaN, so are [center - rad] and [center + rad], and
    [std::max(0.0, NaN)] is [0.0], [std::min(1.0, NaN)] is [1.0]. *)
Definition wilson_ci (errs bits : Z) (z : option R) : R * R * option R :=
  if (bits =? 0)%Z then (0, 1, Some 0.5)
  else
    match z with
    | None => (0, 1, None)
    | Some z =>
        let n := IZR bits in
        let p := IZR errs / n in
        let z2 := z * z in
        let denom := 1 + z2 / n in
        let center := (p + z2 / (2 * n)) / denom in
        let radicand := (p * (1 - p)) / n + z2 / (4 * n * n) in
        if bool_decide (radicand < 0) then (0, 1, None)
        else
          let rad := z * sqrt radicand / denom in
          (Rmax 0 (center - rad), Rmin 1 (center + rad), Some rad)
    end.

End Stats.

(** ** simulation.cpp: the statistics on binary64 numbers

    The same lines, evaluated with the binary64 operations of the kernel
    (round to nearest, ties to even, NaN included), so that the effect of
    rounding can be computed.  [std::log] belongs to the C library and is
    a parameter; the central branch of [inv_norm_cdf] does not call it. *)

Module Binary64.
Import PrimFloat.
#[local] Set Warnings "-inexact-float".
Local Open Scope float_scope.

(** [(double)x] for a counter below [2^63]. *)
Definition of_u64 (x : Z) : float := of_uint63 (Uint63.of_Z x).

(** [std::max(a, b)] and [std::min(a, b)]. *)
Definition fmax (a b : float) : float := if a <? b then b else a.
Definition fmin (a b : float) : float := if b <? a then b else a.

Section Log.
Variable log : float -> float.

Definition inv_norm_cdf (p : float) : float :=
  if (p <=? 0) || (1 <=? p) then nan
  else
    let a1 := -39.69683028665376 in let a2 := 220.9460984245205 in
    let a3 := -275.9285104469687 in let a4 := 138.3577518672690 in
    let a5 := -30.66479806614716 in let a6 := 2.506628277459239 in
    let b1 := -54.47609879822406 in let b2 := 161.5858368580409 in
    let b3 := -155.6989798598866 in let b4 := 66.80131188771972 in
    let b5 := -13.28068155288572 in
    let c1 := -7.784894002430293e-03 in let c2 := -3.223964580411365e-01 in
    let c3 := -2.400758277161838 in let c4 := -2.549732539343734 in
    let c5 := 4.374664141464968 in let c6 := 2.938163982698783 in
    let d1 := 7.784695709041462e-03 in let d2 := 3.224671290700398e-01 in
    let d3 := 2.445134137142996 in let d4 := 3.754408661907416 in
    let plow := 0.02425 in
    let phigh := 1 - plow in
    if p <? plow then
      let q := sqrt (-2 * log p) in
      (((((c1 * q + c2) * q + c3) * q + c4) * q + c5) * q + c6)
      / (((((d1 * q + d2) * q + d3) * q + d4) * q) + 1)
    else if phigh <? p then
      let q := sqrt (-2 * log (1 - p)) in
      - (((((c1 * q + c2) * q + c3) * q + c4) * q + c5) * q + c6)
      / (((((d1 * q + d2) * q + d3) * q + d4) * q) + 1)
    else
      let q := p - 0.5 in
      let r := q * q in
      (((((a1 * r + a2) * r + a3) * r + a4) * r + a5) * r + a6) * q
      / (((((b1 * r + b2) * r + b3) * r + b4) * r + b5) * r + 1).

(** The critical value [z] of [simulate_framewise]. *)
Definition z_crit (ci_level : float) : float :=
  let alpha := 1 - ci_level in
  if (0 <? ci_level) && (ci_level <? 1) then inv_norm_cdf (1 - alpha / 2) else 0.

Definition wilson_ci (errs bits : Z) (z : float) : float * float * float :=
  if (bits =? 0)%Z then (0, 1, 0.5)
  else
    let n := of_u64 bits in
    let p := of_u64 errs / n in
    let z2 := z * z in
    let denom := 1 + z2 / n in
    let center := (p + z2 / (2 * n)) / denom in
    let rad := z * sqrt ((p * (1 - p)) / n + z2 / (4 * n * n)) / denom in
    (fmax 0 (center - rad), fmin 1 (center + rad), rad).

Record BerResult := mkResult {
  ber : float;
  bits : Z;
  errs : Z;
  ci_lo : float;
  ci_hi : float
}.

(** The aggregate interval and the returned record, from the totals read
    after the join. *)
Definition result (ci_level ci_abs ci_rel : float) (total_bits total_err : Z)
  : BerResult :=
  let z := z_crit ci_level in
  let '(lo, hi, _) :=
    if ((0 <? ci_abs) || (0 <? ci_rel)) && (0 <? total_bits)%Z && (0 <? z)
    then wilson_ci total_err total_bits z
    else (0, 0, 0) in
  let ber := if (0 <? total_bits)%Z
             then of_u64 total_err / of_u64 total_bits else 0 in
  mkResult ber total_bits total_err lo hi.

End Log.

End Binary64.

(** ** simulation.cpp: the engine *)

Record BerResult := mkResult {
  ber : R;
  bits : Z;
  errs : Z;
  ci_lo : R;
  ci_hi : R
}.

(** Unsigned 64-bit arithmetic of the counters and of the seeds. *)
Definition u64 (x : Z) : Z := x mod 2 ^ 64.

Section Engine.
Context {G : Type} `{RandomEngine G}.

(** [std::thread::hardware_concurrency()], fixed by the machine. *)
Variable hardware_concurrency : nat.

(** The arguments of [simulate_framewise] other than the caller's [rng]. *)
Record Args := mkArgs {
  ebn0_db : R;
  min_errors : Z;
  max_bits : Z;
  frame_len_bits : Z;
  modem : IModem;
  channel : IChannel G;
  coder : ICoder;
  ci_level : R;
  ci_abs : R;
  ci_rel : R;
  ci_min_bits : Z;
  n_threads : nat;
  ber_floor : R
}.

Variable a : Args.

(** The noise scale [sigma]. *)
Definition sigma : R :=
  let R_ := rate (coder a) in
  let m := bits_per_symbol (modem a) in
  let Es := symbol_energy (modem a) in
  let ebn0_lin := Rpower 10 (ebn0_db a / 10) in
  let N0 := (Es / (R_ * IZR m * ebn0_lin))%R in
  sqrt (0.5 * N0).

(** The critical value [z], NaN included.  Inside the guard the two
    subtractions are rounded as binary64 rounds them: [1.0 - ci_level] is
    exact for a level of at least one half and lies in [[1/2, 1]]
    otherwise, [alpha / 2.0] is exact, and [1.0 - alpha / 2.0] lies in
    [[1/2, 1]].  The argument is [1.0], and [z] is NaN, exactly for the
    largest double below one (lemma [z_crit_defined] below). *)
Definition z_crit : option R :=
  let alpha := if bool_decide (ci_level a < / 2)%R
               then Stats.round_unit (1 - ci_level a)
               else (1 - ci_level a)%R in
  if bool_decide (0 < ci_level a)%R && bool_decide (ci_level a < 1)%R
  then Stats.inv_norm_cdf (Stats.round_unit (1 - alpha / 2))
  else Some 0%R.

(** The worker count after [if (n_threads == 0) n_threads = hw;]. *)
Definition threads : nat :=
  let hw := if (hardware_concurrency =? 0)%nat then 1%nat else hardware_concurrency in
  if (n_threads a =? 0)%nat then hw else n_threads a.

(** The lambdas [ci_goals_met] and [floor_met]. *)
Definition ci_goals_met (bits errs : Z) : bool :=
  if bool_decide (ci_abs a <= 0)%R && bool_decide (ci_rel a <= 0)%R then true
  else if (bits =? 0) || (bits <? ci_min_bits a) then false
  else
    let '(_, _, half) := Stats.wilson_ci errs bits z_crit in
    let p := if 0 <? bits then (IZR errs / IZR bits)%R else 0%R in
    let ok_abs := bool_decide (ci_abs a <= 0)%R || Stats.nan_le half (ci_abs a) in
    let ok_rel := bool_decide (ci_rel a <= 0)%R
                  || Stats.nan_le half (ci_rel a * Rmax p 1e-12)%R in
    ok_abs && ok_rel.

Definition floor_met (bits errs : Z) : bool :=
  if bool_decide (ber_floor a <= 0)%R then false
  else if (bits =? 0) || (bits <? ci_min_bits a) then false
  else
    let '(_, hi, _) := Stats.wilson_ci errs bits z_crit in
    bool_decide (hi <= ber_floor a)%R.

(** The three [stop_by_*] flags and their disjunction, on the snapshots. *)
Definition stop_by_max (bits_after : Z) : bool :=
  (0 <? max_bits a) && (max_bits a <=? bits_after).

Definition stop_by_floor (bits_after errs_after : Z) : bool :=
  floor_met bits_after errs_after.

Definition stop_by_ci (bits_after errs_after : Z) : bool :=
  ((min_errors a =? 0) || (min_errors a <=? errs_after))
  && ci_goals_met bits_after errs_after.

Definition should_stop (bits_after errs_after : Z) : bool :=
  stop_by_max bits_after || stop_by_floor bits_after errs_after
  || stop_by_ci bits_after errs_after.

(** Per-thread seeds: [base ^ (0x9E3779B97F4A7C15ULL * (t + 1))]. *)
Definition seed_of (base : Z) (t : nat) : Z :=
  Z.lxor base (u64 (0x9E3779B97F4A7C15 * (Z.of_nat t + 1))).

(** *** One frame of the worker loop *)

(** Step 1: [frame_len_bits] information bits. *)
Definition draw_bit (st : list Z * G) (_ : nat) : list Z * G :=
  let '(b, g) := bernoulli_half st.2 in (st.1 ++ [Z.b2z b], g).

Definition info_bits (trng : G) : list Z * G :=
  foldl draw_bit ([], trng) (seq 0 (Z.to_nat (frame_len_bits a))).

(** [int inbits[8] = {0}] filled from [c[i .. i+mbs)]. *)
Definition load_group (c : list Z) (i mbs : nat) : list Z :=
  foldl (fun inbits k =>
           if (i + k <? length c)%nat then <[k := c !!! (i + k)%nat]> inbits
           else inbits)
        (replicate 8 0) (seq 0 mbs).

(** The [push_back] loops that copy the first cells of [outbits] or [L]. *)
Definition store_group {A} `{Inhabited A} (c : list Z) (i mbs : nat)
    (cells : list A) (acc : list A) : list A :=
  foldl (fun acc k =>
           if (i + k <? length c)%nat then acc ++ [cells !!! k] else acc)
        acc (seq 0 mbs).

(** The equalisation of one channel output. *)
Definition equalize (ch : ChannelOutput) : R * R :=
  let g := if bool_decide (0 < gain ch)%R then gain ch else 1%R in
  let r_eq := if bool_decide (0 < gain ch)%R then (y ch / gain ch)%R else y ch in
  let sigma2_eq := ((sigma * sigma) / (g * g))%R in
  (r_eq, sigma2_eq).

(** The chain state: the thread's generator, [c_hat] and [llr]. *)
Record Chain := mkChain { trng : G; c_hat : list Z; llr : list R }.

(** The body of [while (i < c.size())]. *)
Definition chain_body (c : list Z) (mbs i : nat) (st : Chain) : Chain :=
  let inbits := load_group c i mbs in
  let s := modulate (modem a) inbits in
  let '(ch, g) := transmit (channel a) s (trng st) sigma in
  let '(r_eq, sigma2_eq) := equalize ch in
  if supports_soft (coder a) then
    let L := demodulate_llr (modem a) r_eq sigma2_eq (replicate 8 0%R) in
    mkChain g (c_hat st) (store_group c i mbs L (llr st))
  else
    let outbits := demodulate (modem a) r_eq (replicate 8 0) in
    mkChain g (store_group c i mbs outbits (c_hat st)) (llr st).

(** The [while] loop itself, with fuel: [None] when the fuel runs out. *)
Fixpoint chain_loop (fuel : nat) (c : list Z) (mbs i : nat) (st : Chain)
  : option Chain :=
  match fuel with
  | O => None
  | S fuel =>
      if (i <? length c)%nat
      then chain_loop fuel c mbs (i + mbs)%nat (chain_body c mbs i st)
      else Some st
  end.

(** Step 5: the error count over the first [L] positions. *)
Definition count_errors (u u_hat : list Z) (L : nat) : Z :=
  foldl (fun local_err j =>
           local_err + (if (u !!! j =? u_hat !!! j) then 0 else 1))
        0 (seq 0 L).

(** The outcome of one frame: [L], [local_err] and the generator after it.
    With a positive [bits_per_symbol] the chain loop ends within
    [length c] iterations, so the fuel below never runs out; with a zero
    [bits_per_symbol] and a non-empty [c] the source loops forever and the
    model returns [None]. *)
Record Frame := mkFrame { frame_L : Z; frame_err : Z; frame_rng : G }.

Definition frame (g : G) : option Frame :=
  let '(u, g) := info_bits g in
  let c := encode (coder a) u in
  let mbs := Z.to_nat (bits_per_symbol (modem a)) in
  match chain_loop (S (length c)) c mbs 0 (mkChain g [] []) with
  | None => None
  | Some st =>
      let u_hat := if supports_soft (coder a)
                   then decode_soft (coder a) (llr st)
                   else decode (coder a) (c_hat st) in
      let L := Nat.min (length u) (length u_hat) in
      Some (mkFrame (Z.of_nat L) (count_errors u u_hat L) (trng st))
  end.

(** *** Shared state and the worker threads

    The shared atomics, and a worker as a generator plus a program point.
    The program points are the places where a worker touches a shared
    atomic; everything between two of them is thread-local. *)

Record Shared := mkShared { total_bits : Z; total_err : Z; stop : bool }.

Inductive Pc :=
| AtLoopTest
| AtPublishBits (L local_err : Z)
| AtPublishErrs (bits_after local_err : Z)
| AtStoreStop
| Joined.

Record Worker := mkWorker { w_rng : G; w_pc : Pc }.

Inductive Event :=
| EvExit
| EvFrame
| EvBits (L : Z)
| EvErrs (local_err : Z)
| EvStop.

(** One atomic action of one worker.
    - [ws_exit]: [stop.load] reads true, the loop ends.
    - [ws_frame]: [stop.load] reads false and the frame is computed.  The
      load is relaxed, so a worker may still read the initial false after
      another worker stored true; the rule therefore has no premise on
      [stop].
    - [ws_bits]: [total_bits.fetch_add(L) + L].
    - [ws_errs]: [total_err.fetch_add(local_err) + local_err], then the
      three stop flags on the two snapshots.
    - [ws_stop]: [stop.store(true); break]. *)
Inductive worker_step : Shared -> Worker -> Event -> Shared -> Worker -> Prop :=
| ws_exit sh g :
    stop sh = true ->
    worker_step sh (mkWorker g AtLoopTest) EvExit sh (mkWorker g Joined)
| ws_frame sh g f :
    frame g = Some f ->
    worker_step sh (mkWorker g AtLoopTest) EvFrame
                sh (mkWorker (frame_rng f) (AtPublishBits (frame_L f) (frame_err f)))
| ws_bits sh g L e :
    let bits_after := u64 (total_bits sh + L) in
    worker_step sh (mkWorker g (AtPublishBits L e)) (EvBits L)
                (mkShared bits_after (total_err sh) (stop sh))
                (mkWorker g (AtPublishErrs bits_after e))
| ws_errs sh g b e :
    let errs_after := u64 (total_err sh + e) in
    worker_step sh (mkWorker g (AtPublishErrs b e)) (EvErrs e)
                (mkShared (total_bits sh) errs_after (stop sh))
                (mkWorker g (if should_stop b errs_after then AtStoreStop
                             else AtLoopTest))
| ws_stop sh g :
    worker_step sh (mkWorker g AtStoreStop) EvStop
                (mkShared (total_bits sh) (total_err sh) true)
                (mkWorker g Joined).

Record Sys := mkSys { shared : Shared; pool : list Worker }.

(** Interleaving: any worker of the pool may take the next action. *)
Inductive sys_step : Sys -> nat * Event -> Sys -> Prop :=
| sys_step_worker sh ws tid w ev sh' w' :
    ws !! tid = Some w ->
    worker_step sh w ev sh' w' ->
    sys_step (mkSys sh ws) (tid, ev) (mkSys sh' (<[tid := w']> ws)).

Inductive exec : Sys -> list (nat * Event) -> Sys -> Prop :=
| exec_nil s : exec s [] s
| exec_snoc s tr s1 ev s2 :
    exec s tr s1 -> sys_step s1 ev s2 -> exec s (tr ++ [ev]) s2.

(** The pool at start: worker [t] owns a generator seeded with [seeds[t]]. *)
Definition spawn (base : Z) : list Worker :=
  (fun t => mkWorker (seed_engine (seed_of base t)) AtLoopTest) <$> seq 0 threads.

Definition init_sys (base : Z) : Sys := mkSys (mkShared 0 0 false) (spawn base).

Definition all_joined (s : Sys) : Prop := Forall (fun w => w_pc w = Joined) (pool s).

(** The aggregate interval and the returned record. *)
Definition ci_computed (sh : Shared) : bool :=
  (bool_decide (0 < ci_abs a)%R || bool_decide (0 < ci_rel a)%R)
  && (0 <? total_bits sh) && Stats.nan_pos z_crit.

Definition result (sh : Shared) : BerResult :=
  let '(lo, hi, _) :=
    if ci_computed sh then Stats.wilson_ci (total_err sh) (total_bits sh) z_crit
    else (0%R, 0%R, Some 0%R) in
  let ber := if 0 <? total_bits sh
             then (IZR (total_err sh) / IZR (total_bits sh))%R else 0%R in
  mkResult ber (total_bits sh) (total_err sh) lo hi.

(** [simulate_framewise]: one draw of the caller's generator, the workers
    run to completion under some schedule, and the totals are read after
    the join. *)
Inductive simulate_framewise (rng : G) : BerResult -> G -> Prop :=
| simulate_run base rng' tr s :
    next_u64 rng = (base, rng') ->
    exec (init_sys base) tr s ->
    all_joined s ->
    simulate_framewise rng (result (shared s)) rng'.

(** The number of frames published along a trace, and the bits they carry. *)
Definition is_bits (ev : nat * Event) : bool :=
  match ev.2 with EvBits _ => true | _ => false end.

Definition frames_published (tr : list (nat * Event)) : nat :=
  length (filter (fun ev => is_bits ev = true) tr).

End Engine.

(** ** main.cpp: the sweep *)

(** [ber_for_stop] and the test guarding [break]. *)
Definition ber_for_stop (r : BerResult) : R :=
  if bool_decide (0 < ci_hi r)%R then ci_hi r else ber r.

Definition sweep_break (ber_floor : R) (r : BerResult) : bool :=
  bool_decide (0 < ber_floor)%R && bool_decide (ber_for_stop r <= ber_floor)%R.

(** [make_seed] (utils.cpp): a non-zero request is used as it is; otherwise
    the clock and [std::random_device] supply [entropy]. *)
Definition make_seed (requested entropy : Z) : Z :=
  if requested =? 0 then entropy else requested.

(** [static_cast<int>] of a double whose value is the integer [x], and the
    addition of two [int].  Beyond 32 bits both are undefined behaviour in
    C++; the model takes what x86-64 does: the conversion returns [INT_MIN]
    and the addition wraps around. *)
Definition int_of_double (x : Z) : Z :=
  if (- 2 ^ 31 <=? x) && (x <? 2 ^ 31) then x else - 2 ^ 31.

Definition int_add (x y : Z) : Z := (x + y + 2 ^ 31) mod 2 ^ 32 - 2 ^ 31.

Section Driver.
Context {G : Type} `{RandomEngine G}.
Variable hardware_concurrency : nat.

(** The fields of [Config] read by the loop of [main], with the components
    already built by [make_modem], [make_channel] and [make_coder]. *)
Record Config := mkConfig {
  snr_start_db : R;
  snr_stop_db : R;
  snr_step_db : R;
  cfg_min_errors : Z;
  cfg_max_bits : Z;
  cfg_ber_floor : R;
  cfg_frame_len : Z;
  cfg_modem : IModem;
  cfg_channel : IChannel G;
  cfg_coder : ICoder;
  cfg_ci_level : R;
  cfg_ci_abs : R;
  cfg_ci_rel : R;
  cfg_ci_min_bits : Z;
  cfg_threads : nat
}.

Variable cfg : Config.

(** [nthreads] as decided by [main] before the loop. *)
Definition nthreads : nat :=
  if (cfg_threads cfg =? 0)%nat
  then (if (hardware_concurrency =? 0)%nat then 1%nat else hardware_concurrency)
  else cfg_threads cfg.

(** Number of SNR points (inclusive) and the [i]-th point. *)
Definition n_points : Z :=
  int_add
    (int_of_double
       (Int_part ((snr_stop_db cfg - snr_start_db cfg) / snr_step_db cfg + 0.5)))
    1.

Definition snr_at (i : Z) : R := (snr_start_db cfg + IZR i * snr_step_db cfg)%R.

Definition args_at (i : Z) : Args :=
  mkArgs (snr_at i) (cfg_min_errors cfg) (cfg_max_bits cfg) (cfg_frame_len cfg)
         (cfg_modem cfg) (cfg_channel cfg) (cfg_coder cfg)
         (cfg_ci_level cfg) (cfg_ci_abs cfg) (cfg_ci_rel cfg)
         (cfg_ci_min_bits cfg) nthreads (cfg_ber_floor cfg).

(** The [for] loop of [main] from index [i] on: the CSV records written. *)
Inductive sweep : Z -> G -> list (R * BerResult) -> Prop :=
| sweep_end i rng :
    n_points <= i -> sweep i rng []
| sweep_stop i rng r rng' :
    i < n_points ->
    simulate_framewise hardware_concurrency (args_at i) rng r rng' ->
    sweep_break (cfg_ber_floor cfg) r = true ->
    sweep i rng [(snr_at i, r)]
| sweep_next i rng r rng' rows :
    i < n_points ->
    simulate_framewise hardware_concurrency (args_at i) rng r rng' ->
    sweep_break (cfg_ber_floor cfg) r = false ->
    sweep (i + 1) rng' rows ->
    sweep i rng ((snr_at i, r) :: rows).

End Driver.

(** ** utils.cpp: the SNR grid *)

(** [make_snr_grid]: [n] points [start, start + step, ...]; the loop body
    does not run when [n <= 0]. *)
Definition make_snr_grid (start_db stop_db step_db : R) : list R :=
  let n := int_add
             (int_of_double (Int_part ((stop_db - start_db) / step_db + 0.5))) 1 in
  (fun i => (start_db + IZR (Z.of_nat i) * step_db)%R) <$> seq 0 (Z.to_nat n).

(** ** Characters and names

    [std::isalnum], [std::isspace] and [std::tolower] in the default "C"
    locale, on the value of the byte. *)

Module Text.
Import Ascii.
Import (notations) String.

#[export] Instance ascii_eq_dec : EqDecision ascii := ascii_dec.

(** A string literal as the sequence of its bytes. *)
Definition lit (s : String.string) : list ascii := String.list_ascii_of_string s.

Definition code (c : ascii) : N := N_of_ascii c.

Definition isdigit (c : ascii) : bool := ((48 <=? code c) && (code c <=? 57))%N.
Definition isupper (c : ascii) : bool := ((65 <=? code c) && (code c <=? 90))%N.
Definition islower (c : ascii) : bool := ((97 <=? code c) && (code c <=? 122))%N.
Definition isalnum (c : ascii) : bool := isdigit c || isupper c || islower c.
Definition isspace (c : ascii) : bool :=
  ((code c =? 32) || ((9 <=? code c) && (code c <=? 13)))%N.

Definition tolower (c : ascii) : ascii :=
  if isupper c then ascii_of_N (code c + 32) else c.

(** [std::transform(s.begin(), s.end(), s.begin(), ::tolower)]. *)
Definition to_lower (s : list ascii) : list ascii := tolower <$> s.

End Text.

(** ** main.cpp: the factories, the output name *)

Module Factory.
Import Ascii.
Import (notations) String.
Import Text.

(** [make_modem], [make_channel], [make_coder]: [None] stands for the
    [std::invalid_argument] thrown on an unknown name. *)
Definition make_modem (name : list ascii) : option IModem :=
  let s := to_lower name in
  if bool_decide (s = lit "ask2") || bool_decide (s = lit "ask2")
  then Some Ask2
  else if bool_decide (s = lit "ask4") || bool_decide (s = lit "ask4_gray")
  then Some (Ask4 Ask4Modem.Gray)
  else if bool_decide (s = lit "ask4_natural") || bool_decide (s = lit "ask4_binary")
          || bool_decide (s = lit "ask4_nogray")
  then Some (Ask4 Ask4Modem.Natural)
  else None.

Definition make_channel `{RandomEngine G} (name : list ascii) : option (IChannel G) :=
  let s := to_lower name in
  if bool_decide (s = lit "awgn") then Some Awgn
  else if bool_decide (s = lit "rayleigh") then Some Rayleigh
  else None.

Definition make_coder (name : list ascii) : option ICoder :=
  let s := to_lower name in
  if bool_decide (s = lit "uncoded") then Some UncodedCoder
  else if bool_decide (s = lit "conv_k7_r12") then Some ConvK7R12Coder
  else None.

(** The lambda [slug] of [resolve_output_path]. *)
Definition slug_char (ch : ascii) : ascii :=
  if isalnum ch then tolower ch
  else if bool_decide (ch = "."%char) || bool_decide (ch = "-"%char)
          || bool_decide (ch = "_"%char)
  then ch
  else "_"%char.

Definition slug (s : list ascii) : list ascii := slug_char <$> s.

(** The automatic file name [coder_modem_channel.csv]. *)
Definition auto_name (coder modem channel : list ascii) : list ascii :=
  slug coder ++ lit "_" ++ slug modem ++ lit "_" ++ slug channel ++ lit ".csv".

(** The characters a slug is made of. *)
Definition safe (c : ascii) : bool :=
  isdigit c || islower c
  || bool_decide (c = "."%char) || bool_decide (c = "-"%char)
  || bool_decide (c = "_"%char).

End Factory.

(** ** config.cpp: the validation of [Config::load] *)

Section Validation.
Context {G : Type} `{RandomEngine G}.
Import (notations) String.


End Validation.

(** ** config.cpp: [trim] and [parse_ini] *)

Module Ini.
Import Ascii.
Import (notations) String.
Import Text.

(** [while (!s.empty() && sp(s.front())) s.erase(s.begin())]. *)
Fixpoint erase_front (s : list ascii) : list ascii :=
  match s with
  | c :: s' => if isspace c then erase_front s' else s
  | [] => []
  end.

(** [while (!s.empty() && sp(s.back())) s.pop_back()]. *)
Definition pop_back (s : list ascii) : list ascii :=
  reverse (erase_front (reverse s)).

Definition trim (s : list ascii) : list ascii := pop_back (erase_front s).

(** [s.find_first_of(set)]; [None] stands for [npos]. *)
Fixpoint find_first_of (set s : list ascii) : option nat :=
  match s with
  | [] => None
  | c :: s' => if bool_decide (c ∈ set) then Some 0%nat
               else S <$> find_first_of set s'
  end.

(** [s.find(c)]. *)
Definition find (c : ascii) (s : list ascii) : option nat := find_first_of [c] s.

(** The [unordered_map]: [kv[key] = val] inserts or overwrites. *)
Definition Map : Type := list ascii -> option (list ascii).

Definition store (kv : Map) (key val : list ascii) : Map :=
  fun k => if bool_decide (k = key) then Some val else kv k.

Record State := mkState { section : list ascii; kv : Map }.

(** The body of [while (std::getline(ifs, line))]. *)
Definition parse_line (st : State) (line : list ascii) : State :=
  let line := match find_first_of (lit "#;") line with
              | Some cut => take cut line
              | None => line
              end in
  let line := trim line in
  if bool_decide (line = []) then st
  else if bool_decide (head line = Some "["%char)
          && bool_decide (last line = Some "]"%char)
  then mkState (take (length line - 2) (drop 1 line)) (kv st)
  else match find "="%char line with
       | None => st
       | Some eq =>
           let key := trim (take eq line) in
           let val := trim (drop (eq + 1) line) in
           let key := if bool_decide (section st = []) then key
                      else section st ++ lit "." ++ key in
           if negb (bool_decide (key = [])) && negb (bool_decide (val = []))
           then mkState (section st) (store (kv st) key val)
           else st
       end.

(** [parse_ini] on the lines of the file. *)
Definition parse_ini (lines : list (list ascii)) : Map :=
  kv (foldl parse_line (mkState [] (fun _ => None)) lines).

End Ini.

(** * Properties *)

(** ** The encoder *)

Module ConvFacts.
Import ConvK7R12.

Lemma push_length st bit : length (push st bit).2 = (length st.2 + 2)%nat.
Proof. unfold push; simpl. rewrite length_app. reflexivity. Qed.

Lemma foldl_push_length (u : list Z) st :
  length (foldl push st u).2 = (length st.2 + 2 * length u)%nat.
Proof.
  revert st. induction u as [|b u IH]; intros st; simpl; [lia|].
  rewrite IH, push_length. lia.
Qed.

Lemma foldl_push0_length (l : list nat) st :
  length (foldl (fun st (_ : nat) => push st 0) st l).2
  = (length st.2 + 2 * length l)%nat.
Proof.
  revert st. induction l as [|k l IH]; intros st; simpl; [lia|].
  rewrite IH, push_length. lia.
Qed.

Lemma encode_size (u : list Z) :
  length (encode u) = (2 * (length u + 6))%nat.
Proof.
  unfold encode. rewrite foldl_push0_length, foldl_push_length, length_seq.
  change (Z.to_nat M) with 6%nat. cbn [length fst snd]. lia.
Qed.

End ConvFacts.

(** C8. [ConvK7R12::encode] writes two coded bits per input bit and two per
    each of the [M = 6] termination bits: the output has [2 * (n + 6)] bits
    for an input of [n] bits, whatever the input values. *)
Theorem encode_length (u : list Z) :
  length (ConvK7R12.encode u) = (2 * (length u + 6))%nat.
Proof.
  unfold ConvK7R12.encode.
  rewrite ConvFacts.foldl_push0_length, ConvFacts.foldl_push_length.
  rewrite length_seq. simpl. lia.
Qed.

(** ** The Wilson interval on zero trials *)

(** C9. On zero trials [wilson_ci] returns the full unit interval with
    half-width one half, for every error count and every critical value,
    NaN included; the function is total, so there is no error case. *)
Theorem wilson_ci_zero_trials (errs : Z) (z : option R) :
  Stats.wilson_ci errs 0 z = (0%R, 1%R, Some 0.5%R).
Proof. reflexivity. Qed.

(** ** The 4-ASK mapping *)

Module Ask4Facts.
Import Ask4Modem.
Local Open Scope R_scope.

(** The array handed to [modulate]: the pair in cells 0 and 1. *)
Definition pair_bits (b0 b1 : bool) (rest : list Z) : list Z :=
  Z.b2z b0 :: Z.b2z b1 :: rest.

(** The symbol the comment of each mapping assigns to a pair. *)
Definition table (mapping : Mapping) (b0 b1 : bool) : R :=
  match mapping, b0, b1 with
  | _, false, false => -3
  | _, false, true => -1
  | Gray, true, true => 1
  | Gray, true, false => 3
  | Natural, true, false => 1
  | Natural, true, true => 3
  end.

Lemma modulate_table mapping b0 b1 rest :
  modulate mapping (pair_bits b0 b1 rest) = table mapping b0 b1.
Proof. destruct mapping, b0, b1; reflexivity. Qed.

Lemma table_injective mapping b0 b1 b0' b1' :
  table mapping b0 b1 = table mapping b0' b1' -> b0 = b0' /\ b1 = b1'.
Proof.
  destruct mapping, b0, b1, b0', b1'; simpl; intros Heq;
    first [ split; reflexivity | exfalso; lra ].
Qed.

Lemma table_surjective mapping (s : R) :
  s = -3 \/ s = -1 \/ s = 1 \/ s = 3 ->
  exists b0 b1, table mapping b0 b1 = s.
Proof.
  intros [-> | [-> | [-> | ->]]]; destruct mapping;
    first [ by exists false, false | by exists false, true
          | by exists true, false | by exists true, true ].
Qed.

Lemma table_range mapping b0 b1 :
  let s := table mapping b0 b1 in s = -3 \/ s = -1 \/ s = 1 \/ s = 3.
Proof. destruct mapping, b0, b1; simpl; auto. Qed.

Lemma slice_table mapping b0 b1 :
  slice (table mapping b0 b1)
  = match mapping, b0, b1 with
    | _, false, false => 0%Z
    | _, false, true => 1%Z
    | Gray, true, true => 2%Z
    | Gray, true, false => 3%Z
    | Natural, true, false => 2%Z
    | Natural, true, true => 3%Z
    end.
Proof.
  unfold slice.
  destruct mapping, b0, b1; simpl;
    repeat case_bool_decide; first [ reflexivity | exfalso; lra ].
Qed.

Lemma demodulate_table mapping b0 b1 o0 o1 out :
  demodulate mapping (table mapping b0 b1) (o0 :: o1 :: out)
  = Z.b2z b0 :: Z.b2z b1 :: out.
Proof.
  unfold demodulate. rewrite slice_table.
  destruct mapping, b0, b1; reflexivity.
Qed.

End Ask4Facts.

(** C6. For the Gray and for the Natural mapping alike: the modulator
    realises the documented table (Gray: 00->-3, 01->-1, 11->+1, 10->+3;
    Natural: 00->-3, 01->-1, 10->+1, 11->+3); the table is a bijection
    between the four bit pairs and the four symbols -3, -1, +1, +3; and the
    hard demodulator applied to the exact modulated symbol writes back the
    exact pair. *)
Theorem ask4_mapping_bijection (mapping : Ask4Modem.Mapping) :
  (Ask4Modem.modulate Ask4Modem.Gray [0; 0] = (-3)%R
   /\ Ask4Modem.modulate Ask4Modem.Gray [0; 1] = (-1)%R
   /\ Ask4Modem.modulate Ask4Modem.Gray [1; 1] = 1%R
   /\ Ask4Modem.modulate Ask4Modem.Gray [1; 0] = 3%R
   /\ Ask4Modem.modulate Ask4Modem.Natural [0; 0] = (-3)%R
   /\ Ask4Modem.modulate Ask4Modem.Natural [0; 1] = (-1)%R
   /\ Ask4Modem.modulate Ask4Modem.Natural [1; 0] = 1%R
   /\ Ask4Modem.modulate Ask4Modem.Natural [1; 1] = 3%R)
  /\ (forall b0 b1 rest,
        let s := Ask4Modem.modulate mapping (Ask4Facts.pair_bits b0 b1 rest) in
        s = (-3)%R \/ s = (-1)%R \/ s = 1%R \/ s = 3%R)
  /\ (forall b0 b1 rest b0' b1' rest',
        Ask4Modem.modulate mapping (Ask4Facts.pair_bits b0 b1 rest)
        = Ask4Modem.modulate mapping (Ask4Facts.pair_bits b0' b1' rest') ->
        b0 = b0' /\ b1 = b1')
  /\ (forall s : R,
        s = (-3)%R \/ s = (-1)%R \/ s = 1%R \/ s = 3%R ->
        exists b0 b1,
          forall rest, Ask4Modem.modulate mapping (Ask4Facts.pair_bits b0 b1 rest) = s)
  /\ (forall b0 b1 rest o0 o1 out,
        Ask4Modem.demodulate mapping
          (Ask4Modem.modulate mapping (Ask4Facts.pair_bits b0 b1 rest))
          (o0 :: o1 :: out)
        = Z.b2z b0 :: Z.b2z b1 :: out).
Proof.
  split; [ repeat split; reflexivity |].
  split; [ intros b0 b1 rest; simpl; rewrite Ask4Facts.modulate_table;
           apply Ask4Facts.table_range |].
  split; [ intros b0 b1 rest b0' b1' rest';
           rewrite !Ask4Facts.modulate_table; apply Ask4Facts.table_injective |].
  split.
  - intros s Hs. destruct (Ask4Facts.table_surjective mapping s Hs) as (b0 & b1 & Hb).
    exists b0, b1. intros rest. by rewrite Ask4Facts.modulate_table.
  - intros. rewrite Ask4Facts.modulate_table. apply Ask4Facts.demodulate_table.
Qed.

(** ** The Viterbi decoder on the exact encoder output

    On a noise-free word the transmitted path is the only path of metric
    zero: the two branches leaving a state carry complementary symbols, so
    every other path collects a positive distance.  The forward pass
    therefore keeps the path-metric vector anchored at the encoder's state,
    the predecessor table records the encoder's state sequence, and the
    traceback from state 0 walks it backwards. *)

Module ViterbiFacts.
Import ConvK7R12.

Definition is_bit (b : Z) : Prop := b = 0 \/ b = 1.

(** *** The encoder as a list of symbols *)

Fixpoint enc_from (sr : Z) (x : list Z) : list Z :=
  match x with
  | [] => []
  | b :: x =>
      let sr := shift_in sr b in
      parity32 (Z.land sr G0) :: parity32 (Z.land sr G1) :: enc_from sr x
  end.

Lemma foldl_push_enc (x : list Z) sr c :
  foldl push (sr, c) x = (foldl shift_in sr x, c ++ enc_from sr x).
Proof.
  revert sr c. induction x as [|b x IH]; intros sr c; simpl.
  - by rewrite app_nil_r.
  - unfold push at 2; simpl. rewrite IH. by rewrite <- app_assoc.
Qed.

Lemma foldl_push0_replicate (l : list nat) st :
  foldl (fun st (_ : nat) => push st 0) st l = foldl push st (replicate (length l) 0).
Proof. revert st. induction l as [|k l IH]; intros st; simpl; [done|]. apply IH. Qed.

Lemma encode_enc_from (u : list Z) :
  encode u = enc_from 0 (u ++ replicate (Z.to_nat M) 0).
Proof.
  unfold encode. rewrite foldl_push0_replicate, length_seq.
  rewrite <- foldl_app, foldl_push_enc. reflexivity.
Qed.

Lemma enc_from_length sr x : length (enc_from sr x) = (2 * length x)%nat.
Proof. revert sr. induction x as [|b x IH]; intros sr; simpl; [done|]. rewrite IH. lia. Qed.

(** The register before input [t]. *)
Definition reg (x : list Z) (t : nat) : Z := foldl shift_in 0 (take t x).

Lemma enc_from_lookup x : forall sr t,
  (t < length x)%nat ->
  let sr' := shift_in (foldl shift_in sr (take t x)) (x !!! t) in
  enc_from sr x !!! (2 * t)%nat = parity32 (Z.land sr' G0)
  /\ enc_from sr x !!! (2 * t + 1)%nat = parity32 (Z.land sr' G1).
Proof.
  induction x as [|b x IH]; intros sr t Ht; simpl in Ht; [lia|].
  destruct t as [|t].
  - simpl. split; reflexivity.
  - replace (2 * S t)%nat with (S (S (2 * t))) by lia.
    replace (S (S (2 * t)) + 1)%nat with (S (S (2 * t + 1))) by lia.
    cbn [enc_from take foldl]. 
    specialize (IH (shift_in sr b) t ltac:(lia)). apply IH.
Qed.

Lemma shift_in_range sr b : 0 <= shift_in sr b < 128.
Proof.
  unfold shift_in. change (Z.shiftl 1 (M + 1) - 1) with (Z.ones 7).
  rewrite Z.land_ones by lia. apply Z.mod_pos_bound. lia.
Qed.

Lemma foldl_shift_in_range x : forall sr, 0 <= sr < 128 -> 0 <= foldl shift_in sr x < 128.
Proof.
  induction x as [|b x IH]; intros sr Hsr; simpl; [done|].
  apply IH, shift_in_range.
Qed.

Lemma reg_range x t : 0 <= reg x t < 128.
Proof. apply foldl_shift_in_range. lia. Qed.

Lemma reg_S x t : (t < length x)%nat -> reg x (S t) = shift_in (reg x t) (x !!! t).
Proof.
  intros Ht. unfold reg.
  destruct (lookup_lt_is_Some_2 x t Ht) as [b Hb].
  rewrite (take_S_r _ _ _ Hb), foldl_snoc.
  by rewrite (list_lookup_total_correct _ _ _ Hb).
Qed.

(** *** The trellis, by enumeration of the 64 states *)

Definition state_of (sr : Z) : Z := Z.land sr 63.

Definition bits2 : list Z := [0; 1].

Definition trellis_closed_check : bool :=
  all_below 64 (fun s => forallb (fun b =>
    (0 <=? next (trans b s)) && (next (trans b s) <? 64)) bits2).

Definition trellis_branch_check : bool :=
  all_below 64 (fun s => forallb (fun b =>
    0 <? dist (out (trans (1 - b) s)) (out (trans b s))) bits2).

Definition encoder_trellis_check : bool :=
  all_below 128 (fun sr => forallb (fun b =>
    let sr' := shift_in sr b in
    (Z.lor (Z.shiftl (parity32 (Z.land sr' G0)) 1) (parity32 (Z.land sr' G1))
       =? out (trans b (state_of sr)))
    && (state_of sr' =? next (trans b (state_of sr)))) bits2).

Definition termination_check : bool :=
  all_below 128 (fun sr => state_of (foldl shift_in sr (replicate 6 0)) =? 0).

Lemma bits2_spec (P : Z -> bool) b : forallb P bits2 = true -> is_bit b -> P b = true.
Proof. simpl. intros HP [-> | ->]; destruct (P 0), (P 1); done. Qed.

Lemma next_range s b : 0 <= s < 64 -> is_bit b -> 0 <= next (trans b s) < 64.
Proof.
  intros Hs Hb.
  assert (Hc : trellis_closed_check = true) by (vm_compute; reflexivity).
  pose proof (bits2_spec _ b (all_below_spec _ _ Hc s Hs) Hb) as Hx. cbv beta in Hx. lia.
Qed.

Lemma other_branch_far s b :
  0 <= s < 64 -> is_bit b -> 0 < dist (out (trans (1 - b) s)) (out (trans b s)).
Proof.
  intros Hs Hb.
  assert (Hc : trellis_branch_check = true) by (vm_compute; reflexivity).
  pose proof (bits2_spec _ b (all_below_spec _ _ Hc s Hs) Hb) as Hx. cbv beta in Hx. lia.
Qed.

Lemma encoder_follows_trellis sr b :
  0 <= sr < 128 -> is_bit b ->
  let sr' := shift_in sr b in
  Z.lor (Z.shiftl (parity32 (Z.land sr' G0)) 1) (parity32 (Z.land sr' G1))
    = out (trans b (state_of sr))
  /\ state_of sr' = next (trans b (state_of sr)).
Proof.
  intros Hs Hb.
  assert (Hc : encoder_trellis_check = true) by (vm_compute; reflexivity).
  pose proof (bits2_spec _ b (all_below_spec _ _ Hc sr Hs) Hb) as Hx.
  cbv beta zeta in Hx. split; lia.
Qed.

Lemma zero_termination sr :
  0 <= sr < 128 -> state_of (foldl shift_in sr (replicate 6 0)) = 0.
Proof.
  intros Hs.
  assert (Hc : termination_check = true) by (vm_compute; reflexivity).
  pose proof (all_below_spec _ _ Hc sr Hs) as Hx. cbv beta in Hx. lia.
Qed.

Lemma state_of_range sr : 0 <= state_of sr < 64.
Proof.
  unfold state_of. change 63 with (Z.ones 6).
  rewrite Z.land_ones by lia. apply Z.mod_pos_bound. lia.
Qed.

Lemma dist_refl x : dist x x = 0.
Proof. unfold dist. by rewrite !Z.lxor_nilpotent. Qed.

Lemma dist_nonneg ref r : 0 <= dist ref r.
Proof.
  unfold dist.
  assert (forall a b, 0 <= Z.lxor (Z.land a 1) (Z.land b 1)) as Hx.
  { intros a b. apply Z.lxor_nonneg. split; intros _; apply Z.land_nonneg; lia. }
  pose proof (Hx (Z.shiftr ref 1) (Z.shiftr r 1)). pose proof (Hx ref r). lia.
Qed.


Lemma NSTATE_64 : NSTATE = 64%nat.
Proof. reflexivity. Qed.

Lemma T0_lookup (s : nat) : (s < 64)%nat -> T0 !!! s = trans 0 (Z.of_nat s).
Proof.
  intros Hs. unfold T0. rewrite NSTATE_64.
  rewrite (list_lookup_total_fmap _ (seq 0 64) s) by (rewrite length_seq; lia).
  by rewrite lookup_total_seq_lt by lia.
Qed.

Lemma T1_lookup (s : nat) : (s < 64)%nat -> T1 !!! s = trans 1 (Z.of_nat s).
Proof.
  intros Hs. unfold T1. rewrite NSTATE_64.
  rewrite (list_lookup_total_fmap _ (seq 0 64) s) by (rewrite length_seq; lia).
  by rewrite lookup_total_seq_lt by lia.
Qed.

(** A path-metric vector anchored at state [sg]: zero there, positive
    (possibly [INF]) everywhere else. *)
Record anchored (pm : list Z) (sg : Z) : Prop := mkAnchored {
  an_len : length pm = 64%nat;
  an_zero : pm !!! Z.to_nat sg = 0;
  an_pos : forall j, (j < 64)%nat -> j <> Z.to_nat sg -> 0 < pm !!! j
}.

(** *** One received symbol: the add-compare-select row *)

Section Row.
Variables (n t : nat) (sg b r : Z) (pm0 pred0 dec0 : list Z).
Hypothesis Ht : (t < n)%nat.
Hypothesis Hsg : 0 <= sg < 64.
Hypothesis Hb : is_bit b.
Hypothesis Hr : r = out (trans b sg).
Hypothesis Hpm0 : anchored pm0 sg.

Local Abbreviation tg := (next (trans b sg)).

Lemma tg_range : 0 <= tg < 64.
Proof. apply next_range; assumption. Qed.

(** The row invariant; [done] tells whether the branch of the transmitted
    path has been relaxed already. *)
Record RowInv (done : bool) (v : Vit) : Prop := mkRowInv {
  ri_prev : pm_prev v = pm0;
  ri_len : length (pm_curr v) = 64%nat;
  ri_pred_len : length (pred v) = (n * 64)%nat;
  ri_dec_len : length (dec v) = (n * 64)%nat;
  ri_frame : forall i, (i < t * 64)%nat ->
             pred v !!! i = pred0 !!! i /\ dec v !!! i = dec0 !!! i;
  ri_others : forall j, (j < 64)%nat -> j <> Z.to_nat tg -> 0 < pm_curr v !!! j;
  ri_target :
    if done
    then pm_curr v !!! Z.to_nat tg = 0
         /\ pred v !!! (t * 64 + Z.to_nat tg)%nat = sg
         /\ dec v !!! (t * 64 + Z.to_nat tg)%nat = b
    else 0 < pm_curr v !!! Z.to_nat tg
}.

Lemma relax_far (s : nat) bb tr pm done v :
  0 <= next tr < 64 ->
  0 < pm + dist (out tr) r ->
  RowInv done v -> RowInv done (relax t s bb tr pm r v).
Proof.
  intros Hns Hm [Hprev Hlen Hpl Hdl Hfr Hoth Htg].
  unfold relax. rewrite NSTATE_64.
  destruct (Z.ltb_spec (pm + dist (out tr) r) (pm_curr v !!! Z.to_nat (next tr)))
    as [Hlt | Hge]; [| by constructor].
  constructor; cbn [pm_prev pm_curr pred dec]; try done.
  - by rewrite length_insert.
  - by rewrite length_insert.
  - by rewrite length_insert.
  - intros i Hi. rewrite !list_lookup_total_insert_ne by lia. by apply Hfr.
  - intros j Hj Hne. destruct (decide (Z.to_nat (next tr) = j)) as [<- | Hd].
    + rewrite list_lookup_total_insert_eq by lia. done.
    + rewrite list_lookup_total_insert_ne by done. by apply Hoth.
  - destruct (decide (Z.to_nat (next tr) = Z.to_nat tg)) as [Heq | Hd].
    + rewrite Heq in *. destruct done.
      * destruct Htg as (Hz & _). lia.
      * rewrite list_lookup_total_insert_eq by (pose proof tg_range; lia). done.
    + rewrite !list_lookup_total_insert_ne by lia. done.
Qed.

Lemma relax_path v :
  RowInv false v -> RowInv true (relax t (Z.to_nat sg) b (trans b sg) 0 r v).
Proof.
  intros [Hprev Hlen Hpl Hdl Hfr Hoth Htg].
  pose proof tg_range as Htr.
  unfold relax. rewrite NSTATE_64, Hr, dist_refl.
  destruct (Z.ltb_spec (0 + 0) (pm_curr v !!! Z.to_nat tg)) as [Hlt | Hge]; [| lia].
  constructor; cbn [pm_prev pm_curr pred dec]; try done.
  - by rewrite length_insert.
  - by rewrite length_insert.
  - by rewrite length_insert.
  - intros i Hi. rewrite !list_lookup_total_insert_ne by lia. by apply Hfr.
  - intros j Hj Hne. rewrite list_lookup_total_insert_ne by done. by apply Hoth.
  - rewrite !list_lookup_total_insert_eq by nia. split; [done|]. split; [lia|done].
Qed.

Lemma acs_state_row (s : nat) v :
  (s < 64)%nat ->
  RowInv (bool_decide (Z.to_nat sg < s)%nat) v ->
  RowInv (bool_decide (Z.to_nat sg < S s)%nat) (acs_state t r v s).
Proof.
  intros Hs Hv. unfold acs_state.
  rewrite (ri_prev _ _ Hv), T0_lookup, T1_lookup by done.
  destruct (decide (s = Z.to_nat sg)) as [-> | Hne].
  - rewrite (an_zero _ _ Hpm0). change (INF <=? 0) with false. cbv iota.
    rewrite Z2Nat.id by lia.
    rewrite bool_decide_eq_false_2 in Hv by lia.
    rewrite bool_decide_eq_true_2 by lia.
    destruct Hb as [Hb0 | Hb1].
    + apply relax_far.
      * apply next_range; [done | by right].
      * rewrite Hr. pose proof (other_branch_far sg b Hsg Hb) as Hfar.
        replace (1 - b) with 1 in Hfar by lia. lia.
      * replace (relax t (Z.to_nat sg) 0 (trans 0 sg) 0 r v)
          with (relax t (Z.to_nat sg) b (trans b sg) 0 r v) by (by rewrite Hb0).
        by apply relax_path.
    + replace (relax t (Z.to_nat sg) 1 (trans 1 sg) 0 r)
        with (relax t (Z.to_nat sg) b (trans b sg) 0 r) by (by rewrite Hb1).
      apply relax_path. apply relax_far; [| | done].
      * apply next_range; [done | by left].
      * rewrite Hr. pose proof (other_branch_far sg b Hsg Hb) as Hfar.
        replace (1 - b) with 0 in Hfar by lia. lia.
  - replace (bool_decide (Z.to_nat sg < S s)%nat)
      with (bool_decide (Z.to_nat sg < s)%nat)
      by (apply bool_decide_ext; lia).
    pose proof (an_pos _ _ Hpm0 s Hs Hne) as Hpos.
    destruct (INF <=? pm0 !!! s); [done|].
    apply relax_far; [| | apply relax_far; [| | done]].
    + apply next_range; [lia | by right].
    + pose proof (dist_nonneg (out (trans 1 (Z.of_nat s))) r). lia.
    + apply next_range; [lia | by left].
    + pose proof (dist_nonneg (out (trans 0 (Z.of_nat s))) r). lia.
Qed.

Lemma acs_row (k : nat) v :
  (k <= 64)%nat ->
  RowInv false v ->
  RowInv (bool_decide (Z.to_nat sg < k)%nat) (foldl (acs_state t r) v (seq 0 k)).
Proof.
  intros Hk Hv. induction k as [|k IH].
  - rewrite bool_decide_eq_false_2 by lia. done.
  - rewrite seq_S, foldl_snoc. apply acs_state_row; [lia|]. apply IH. lia.
Qed.

End Row.

(** *** The whole trellis on the exact encoder output *)

(** The trellis state of the encoder before input [t]. *)
Definition path (x : list Z) (t : nat) : Z := state_of (reg x t).

Section Decode.
Variable x : list Z.
Hypothesis Hx : Forall is_bit x.

Local Abbreviation n := (length x).
Local Abbreviation c := (enc_from 0 x).

Lemma path_range t : 0 <= path x t < 64.
Proof. apply state_of_range. Qed.

Lemma input_bit t : (t < n)%nat -> is_bit (x !!! t).
Proof.
  intros Ht. destruct (lookup_lt_is_Some_2 x t Ht) as [b Hb].
  rewrite (list_lookup_total_correct _ _ _ Hb).
  by apply (Forall_lookup_1 _ _ _ _ Hx Hb).
Qed.

Lemma received_symbol t :
  (t < n)%nat ->
  Z.lor (Z.shiftl (c !!! (2 * t)%nat) 1) (c !!! (2 * t + 1)%nat)
    = out (trans (x !!! t) (path x t))
  /\ path x (S t) = next (trans (x !!! t) (path x t)).
Proof.
  intros Ht.
  destruct (enc_from_lookup x 0 t Ht) as [-> ->].
  unfold path. rewrite reg_S by done.
  apply encoder_follows_trellis; [apply reg_range | by apply input_bit].
Qed.

Record Outer (t : nat) (v : Vit) : Prop := mkOuter {
  o_anch : anchored (pm_prev v) (path x t);
  o_len : length (pm_curr v) = 64%nat;
  o_pred_len : length (pred v) = (n * 64)%nat;
  o_dec_len : length (dec v) = (n * 64)%nat;
  o_path : forall j, (j < t)%nat ->
           pred v !!! (j * 64 + Z.to_nat (path x (S j)))%nat = path x j
           /\ dec v !!! (j * 64 + Z.to_nat (path x (S j)))%nat = x !!! j
}.

Lemma acs_step_outer t v :
  (t < n)%nat -> Outer t v -> Outer (S t) (acs_step c v t).
Proof.
  intros Ht [Han Hlen Hpl Hdl Hpath].
  destruct (received_symbol t Ht) as [Hr Hnext].
  unfold acs_step. rewrite Hr, Hlen, NSTATE_64.
  assert (Hrow0 : RowInv n t (path x t) (x !!! t) (pm_prev v) (pred v) (dec v) false
                    (mkVit (pm_prev v) (replicate 64 INF) (pred v) (dec v))).
  { constructor; cbn [pm_prev pm_curr pred dec].
    - reflexivity.
    - apply length_replicate.
    - exact Hpl.
    - exact Hdl.
    - intros i _. split; reflexivity.
    - intros j Hj _. rewrite lookup_total_replicate_2 by exact Hj. reflexivity.
    - rewrite lookup_total_replicate_2; [reflexivity|].
      pose proof (next_range (path x t) (x !!! t) (path_range t) (input_bit t Ht)). lia. }
  pose proof (acs_row n t (path x t) (x !!! t) _ (pm_prev v) (pred v) (dec v)
                Ht (path_range t) (input_bit t Ht) eq_refl Han 64 _
                ltac:(lia) Hrow0) as Hrow.
  clear Hrow0.
  rewrite bool_decide_eq_true_2 in Hrow by (pose proof (path_range t); lia).
  set (v' := foldl _ _ _) in *. clearbody v'.
  destruct Hrow as [Hprev' Hlen' Hpl' Hdl' Hfr' Hoth' Htg'].
  rewrite <- Hnext in Hoth', Htg'.
  destruct Htg' as (Hz & Hp & Hd).
  constructor; cbn [pm_prev pm_curr pred dec].
  - constructor; assumption.
  - rewrite Hprev'. apply Han.
  - exact Hpl'.
  - exact Hdl'.
  - intros j Hj. destruct (decide (j = t)) as [-> | Hne]; [split; assumption|].
    pose proof (path_range (S j)).
    destruct (Hfr' (j * 64 + Z.to_nat (path x (S j)))%nat ltac:(lia)) as [-> ->].
    apply Hpath. lia.
Qed.

Definition v_init : Vit :=
  mkVit (<[0%nat := 0]> (replicate NSTATE INF)) (replicate NSTATE INF)
        (replicate (n * NSTATE) (-1)) (replicate (n * NSTATE) 0).

Lemma outer_init : Outer 0 v_init.
Proof.
  unfold v_init. rewrite NSTATE_64.
  constructor; cbn [pm_prev pm_curr pred dec];
    rewrite ?length_insert, ?length_replicate; try done.
  - constructor.
    + by rewrite length_insert, length_replicate.
    + reflexivity.
    + intros j Hj Hne. change (Z.to_nat (path x 0)) with 0%nat in Hne.
      rewrite list_lookup_total_insert_ne by done.
      by rewrite lookup_total_replicate_2.
  - intros j Hj. lia.
Qed.

Lemma outer_foldl k :
  (k <= n)%nat -> Outer k (foldl (acs_step c) v_init (seq 0 k)).
Proof.
  intros Hk. induction k as [|k IH]; [apply outer_init|].
  rewrite seq_S, foldl_snoc. apply acs_step_outer; [lia|]. apply IH. lia.
Qed.

(** *** Traceback *)

Lemma traceback_path (K : nat) v k :
  Outer n v -> (k <= n)%nat ->
  forall u_hat, length u_hat = K ->
  exists u_hat',
    foldl (traceback_step K v) (path x k, u_hat) (rev (seq 0 k)) = (path x 0, u_hat')
    /\ length u_hat' = K
    /\ forall j, (j < K)%nat ->
         u_hat' !!! j = if (j <? k)%nat then x !!! j else u_hat !!! j.
Proof.
  intros Hv. induction k as [|k IH]; intros Hk u_hat Hlen.
  - exists u_hat. split; [done|]. split; [done|]. intros j Hj. done.
  - rewrite seq_S, rev_unit. cbn [foldl]. rewrite Nat.add_0_l.
    destruct (o_path _ _ Hv k ltac:(lia)) as [Hp Hd].
    unfold traceback_step at 2. cbn [fst snd]. rewrite NSTATE_64. rewrite Hp, Hd.
    pose proof (path_range k) as Hrk.
    replace (0 <=? path x k) with true by lia.
    destruct (IH ltac:(lia)
                (if (k <? K)%nat then <[k := x !!! k]> u_hat else u_hat)
                ltac:(destruct (k <? K)%nat; by rewrite ?length_insert))
      as (u_hat' & Hfold & Hlen' & Hlook).
    exists u_hat'. split; [done|]. split; [done|].
    intros j Hj. rewrite (Hlook j Hj).
    destruct (Nat.ltb_spec j k) as [Hjk | Hjk].
    + rewrite (proj2 (Nat.ltb_lt j (S k))) by lia. reflexivity.
    + destruct (decide (j = k)) as [-> | Hne].
      * rewrite (proj2 (Nat.ltb_lt k (S k))) by lia.
        rewrite (proj2 (Nat.ltb_lt k K)) by lia.
        by rewrite list_lookup_total_insert_eq by lia.
      * rewrite (proj2 (Nat.ltb_ge j (S k))) by lia.
        destruct (k <? K)%nat; [|reflexivity].
        by rewrite list_lookup_total_insert_ne by done.
Qed.

End Decode.

(** *** Decoding the exact encoder output *)

Lemma path_end (u : list Z) :
  path (u ++ replicate 6 0) (length u + 6) = 0.
Proof.
  unfold path, reg.
  rewrite take_ge by (rewrite length_app, length_replicate; lia).
  rewrite foldl_app. apply zero_termination, foldl_shift_in_range. lia.
Qed.

(** C3. For every finite bit string [u] with entries in {0,1}, the
    hard-decision Viterbi decoder applied to the exact output of the encoder
    returns [u] itself. *)
Theorem viterbi_decode_encode (u : list Z) :
  Forall is_bit u -> decode (encode u) = u.
Proof.
  intros Hu. rewrite encode_enc_from. change (Z.to_nat M) with 6%nat.
  pose proof (path_end u) as Hend.
  set (x := u ++ replicate 6 0) in *.
  assert (Hx : Forall is_bit x).
  { apply Forall_app. split; [done|]. apply Forall_replicate. by left. }
  assert (Hn : length x = (length u + 6)%nat).
  { unfold x. rewrite length_app, length_replicate. done. }
  rewrite <- Hn in Hend.
  unfold decode. rewrite enc_from_length.
  replace (2 * length x / 2)%nat with (length x)
    by (rewrite Nat.mul_comm, Nat.div_mul; lia).
  rewrite (proj2 (Nat.eqb_neq (length x) 0)) by lia.
  change (Z.to_nat M) with 6%nat.
  assert (HK : (if (6 <? length x)%nat then (length x - 6)%nat else 0%nat)
               = length u).
  { destruct (Nat.ltb_spec 6 (length x)); lia. }
  rewrite HK.
  pose proof (outer_foldl x Hx (length x) ltac:(lia)) as Hv.
  unfold v_init in Hv.
  destruct (traceback_path x (length u) _ (length x) Hv ltac:(lia)
              (replicate (length u) 0) ltac:(by rewrite length_replicate))
    as (u_hat' & Hfold & Hlen & Hlook).
  rewrite Hend in Hfold. change (path x 0) with 0 in Hfold.
  rewrite Hfold. cbn [snd].
  apply (list_eq_same_length _ _ (length u)); [done | done |].
  intros i a b Hi Ha Hb.
  apply list_lookup_total_correct in Ha, Hb.
  rewrite <- Ha, <- Hb, (Hlook i Hi).
  rewrite (proj2 (Nat.ltb_lt i (length x))) by lia.
  unfold x. by rewrite lookup_total_app_l.
Qed.

End ViterbiFacts.

Lemma viterbi_decode_encode_witness :
  Forall ViterbiFacts.is_bit [1; 0; 1; 1; 0; 0; 1]
  /\ ConvK7R12.decode (ConvK7R12.encode [1; 0; 1; 1; 0; 0; 1]) = [1; 0; 1; 1; 0; 0; 1].
Proof.
  assert (H : Forall ViterbiFacts.is_bit [1; 0; 1; 1; 0; 0; 1])
    by (repeat constructor; (by left) || (by right)).
  split; [exact H | exact (ViterbiFacts.viterbi_decode_encode _ H)].
Defined.

(** ** The Wilson interval *)

Module WilsonFacts.
Import Stats.
Local Open Scope R_scope.

(** The three components on a positive number of trials. *)
Definition centre (p n z : R) : R := (p + z * z / (2 * n)) / (1 + z * z / n).
Definition radius (p n z : R) : R :=
  z * sqrt ((p * (1 - p)) / n + z * z / (4 * n * n)) / (1 + z * z / n).

Definition radicand (p n z : R) : R := (p * (1 - p)) / n + z * z / (4 * n * n).

(** On a positive number of trials, a critical value that is a number and
    a non-negative argument of the square root. *)
Lemma wilson_ci_pos errs bits z :
  (bits <> 0)%Z ->
  0 <= radicand (IZR errs / IZR bits) (IZR bits) z ->
  wilson_ci errs bits (Some z)
  = (Rmax 0 (centre (IZR errs / IZR bits) (IZR bits) z
             - radius (IZR errs / IZR bits) (IZR bits) z),
     Rmin 1 (centre (IZR errs / IZR bits) (IZR bits) z
             + radius (IZR errs / IZR bits) (IZR bits) z),
     Some (radius (IZR errs / IZR bits) (IZR bits) z)).
Proof.
  intros Hb Hr. unfold wilson_ci.
  destruct (Z.eqb_spec bits 0) as [->|_]; [done|].
  cbv zeta. fold (radicand (IZR errs / IZR bits) (IZR bits) z).
  rewrite bool_decide_eq_false_2 by lra. reflexivity.
Qed.

(** The cases in which the half-width is NaN. *)
Lemma wilson_ci_nan errs bits z :
  (bits <> 0)%Z ->
  (z = None \/ exists x, z = Some x
                        /\ radicand (IZR errs / IZR bits) (IZR bits) x < 0) ->
  wilson_ci errs bits z = (0, 1, None).
Proof.
  intros Hb Hz. unfold wilson_ci.
  destruct (Z.eqb_spec bits 0) as [->|_]; [done|].
  destruct Hz as [-> | (x & -> & Hx)]; [reflexivity|].
  cbv zeta. fold (radicand (IZR errs / IZR bits) (IZR bits) x).
  by rewrite bool_decide_eq_true_2.
Qed.

Lemma nan_le_iff x y :
  nan_le x y = true <-> exists h, x = Some h /\ h <= y.
Proof.
  unfold nan_le. destruct x as [h|].
  - rewrite bool_decide_eq_true. split; [intros ?; by exists h | by intros (? & [= <-] & ?)].
  - split; [discriminate | by intros (? & [=] & _)].
Qed.

Lemma nan_pos_iff x : nan_pos x = true <-> exists z, x = Some z /\ 0 < z.
Proof.
  unfold nan_pos. destruct x as [h|].
  - rewrite bool_decide_eq_true. split; [intros ?; by exists h | by intros (? & [= <-] & ?)].
  - split; [discriminate | by intros (? & [=] & _)].
Qed.

Lemma proportion_range errs bits :
  (0 <= errs <= bits)%Z -> (0 < bits)%Z -> 0 <= IZR errs / IZR bits <= 1.
Proof.
  intros [H0 H1] Hb.
  assert (0 < IZR bits) by (apply IZR_lt; lia).
  assert (0 <= IZR errs) by (apply IZR_le; lia).
  assert (IZR errs <= IZR bits) by (apply IZR_le; lia).
  split.
  - apply Rmult_le_pos; [lra|]. left. by apply Rinv_0_lt_compat.
  - apply Rmult_le_reg_r with (IZR bits); [lra|].
    unfold Rdiv. rewrite Rmult_assoc, Rinv_l by lra. lra.
Qed.

Section Bounds.
Variables p n z : R.
Hypothesis Hn : 0 < n.
Hypothesis Hp : 0 <= p <= 1.
Hypothesis Hz : 0 < z.

Lemma radicand_nonneg : 0 <= radicand p n z.
Proof.
  unfold radicand.
  assert (0 <= p * (1 - p) / n).
  { apply Rmult_le_pos; [nra|]. left. by apply Rinv_0_lt_compat. }
  assert (0 <= z * z / (4 * n * n)).
  { apply Rmult_le_pos; [nra|]. left. apply Rinv_0_lt_compat. nra. }
  lra.
Qed.

Lemma denom_pos : 0 < 1 + z * z / n.
Proof.
  assert (0 < z * z / n).
  { apply Rmult_lt_0_compat; [nra | by apply Rinv_0_lt_compat]. }
  lra.
Qed.

Lemma radicand_bound :
  Rsqr (z / n * (1 / 2 - p)) <= (p * (1 - p)) / n + z * z / (4 * n * n).
Proof.
  unfold Rsqr.
  assert (Hq : 0 <= p * (1 - p)) by nra.
  assert (Hi : 0 < / n) by (by apply Rinv_0_lt_compat).
  replace (z / n * (1 / 2 - p) * (z / n * (1 / 2 - p)))
    with (z * z / (4 * n * n) - z * z * / n * / n * (p * (1 - p)))
    by (field; lra).
  assert (0 <= z * z * / n * / n * (p * (1 - p))).
  { assert (0 <= z * z) by nra.
    assert (0 <= / n * / n) by nra.
    replace (z * z * / n * / n * (p * (1 - p)))
      with ((z * z) * (/ n * / n) * (p * (1 - p))) by ring.
    apply Rmult_le_pos; [apply Rmult_le_pos|]; assumption. }
  assert (0 <= p * (1 - p) / n).
  { apply Rmult_le_pos; lra. }
  lra.
Qed.

Lemma offset_le_root :
  Rabs (z / n * (1 / 2 - p))
  <= sqrt ((p * (1 - p)) / n + z * z / (4 * n * n)).
Proof.
  rewrite <- sqrt_Rsqr_abs. apply sqrt_le_1_alt, radicand_bound.
Qed.

Lemma centre_minus_p :
  centre p n z - p = z * (z / n * (1 / 2 - p)) / (1 + z * z / n).
Proof.
  unfold centre. pose proof denom_pos as Hd. field.
  assert (z * z / n = z * z * / n) as Hx by reflexivity.
  assert (0 < z * z * / n) by (apply Rmult_lt_0_compat; [nra | by apply Rinv_0_lt_compat]).
  repeat split; try lra; nra.
Qed.

Lemma radius_nonneg : 0 <= radius p n z.
Proof.
  unfold radius. pose proof denom_pos.
  apply Rmult_le_pos; [|left; by apply Rinv_0_lt_compat].
  apply Rmult_le_pos; [lra | apply sqrt_pos].
Qed.

Lemma centre_within_radius :
  centre p n z - radius p n z <= p <= centre p n z + radius p n z.
Proof.
  pose proof denom_pos as Hd. pose proof offset_le_root as Hr.
  pose proof centre_minus_p as Hc.
  set (w := z / n * (1 / 2 - p)) in *.
  set (S := sqrt _) in *.
  assert (Hi : 0 < / (1 + z * z / n)) by (by apply Rinv_0_lt_compat).
  assert (Hw : - S <= w <= S).
  { unfold Rabs in Hr. destruct (Rcase_abs w); lra. }
  assert (Hrad : radius p n z = z * S * / (1 + z * z / n)) by reflexivity.
  assert (Hc' : centre p n z - p = z * w * / (1 + z * z / n)) by (rewrite Hc; reflexivity).
  assert (z * w * / (1 + z * z / n) <= z * S * / (1 + z * z / n)).
  { apply Rmult_le_compat_r; [lra|]. apply Rmult_le_compat_l; lra. }
  assert (- (z * S * / (1 + z * z / n)) <= z * w * / (1 + z * z / n)).
  { replace (- (z * S * / (1 + z * z / n))) with (z * (- S) * / (1 + z * z / n)) by ring.
    apply Rmult_le_compat_r; [lra|]. apply Rmult_le_compat_l; lra. }
  lra.
Qed.

Lemma centre_pos : 0 < centre p n z.
Proof.
  unfold centre. pose proof denom_pos.
  apply Rmult_lt_0_compat; [|by apply Rinv_0_lt_compat].
  assert (0 < z * z / (2 * n)).
  { apply Rmult_lt_0_compat; [nra|]. apply Rinv_0_lt_compat. lra. }
  lra.
Qed.

End Bounds.

(** The interval brackets the observed proportion and has a positive
    upper end. *)
Lemma wilson_ci_brackets errs bits z :
  (0 <= errs <= bits)%Z -> (0 < bits)%Z -> 0 < z ->
  let '(lo, hi, _) := wilson_ci errs bits (Some z) in
  0 <= lo <= IZR errs / IZR bits /\ IZR errs / IZR bits <= hi <= 1 /\ 0 < hi.
Proof.
  intros He Hb Hz.
  assert (Hn : 0 < IZR bits) by (apply IZR_lt; lia).
  pose proof (proportion_range errs bits He Hb) as Hp.
  rewrite wilson_ci_pos by (first [lia | by apply radicand_nonneg]).
  pose proof (centre_within_radius _ _ _ Hn Hp Hz) as Hc.
  pose proof (centre_pos _ _ _ Hn Hp Hz) as Hcp.
  pose proof (radius_nonneg (IZR errs / IZR bits) _ _ Hn Hz) as Hr.
  set (p := IZR errs / IZR bits) in *.
  set (c := centre _ _ _) in *. set (r := radius _ _ _) in *.
  unfold Rmax, Rmin.
  destruct (Rle_dec 0 (c - r)), (Rle_dec 1 (c + r)); lra.
Qed.

End WilsonFacts.

(** ** The stop predicates of a worker *)

Section StopFacts.
Context {G : Type} `{RandomEngine G}.
Variable a : Args (G := G).

(** The predicates as the design states them, on snapshots [(b, e)]. *)
Definition WilsonHi (e b : Z) : R := (Stats.wilson_ci e b (z_crit a)).1.2.
Definition WilsonHalf (e b : Z) : option R := (Stats.wilson_ci e b (z_crit a)).2.

(** A width goal: the half-width is a number and within the bound. *)
Definition HalfWithin (e b : Z) (bound : R) : Prop :=
  exists h, WilsonHalf e b = Some h /\ (h <= bound)%R.

Definition MaxBits (b : Z) : Prop := 0 < max_bits a /\ max_bits a <= b.

Definition BerFloor (b e : Z) : Prop :=
  (0 < ber_floor a)%R /\ ci_min_bits a <= b /\ (WilsonHi e b <= ber_floor a)%R.

(** With both widths disabled the interval goals are met outright, before
    [ci_min_bits] is looked at; what is left of the predicate is the
    minimum-error gate. *)
Definition CiGoals (b e : Z) : Prop :=
  (min_errors a = 0 \/ min_errors a <= e)
  /\ (((ci_abs a <= 0)%R /\ (ci_rel a <= 0)%R)
      \/ (ci_min_bits a <= b
          /\ ((0 < ci_abs a)%R -> HalfWithin e b (ci_abs a))
          /\ ((0 < ci_rel a)%R ->
              HalfWithin e b (ci_rel a * Rmax (IZR e / IZR b) 1e-12)%R))).

(** The interval goals as the design document words them.  Read as one
    conjunction, the [ci_min_bits] test applies whatever the width goals
    are; read with "trivially met" first, disabled width goals meet the
    whole predicate. *)
Definition CiGoalsAsWritten (b e : Z) : Prop :=
  (min_errors a = 0 \/ min_errors a <= e)
  /\ ci_min_bits a <= b
  /\ ((0 < ci_abs a)%R -> HalfWithin e b (ci_abs a))
  /\ ((0 < ci_rel a)%R ->
      HalfWithin e b (ci_rel a * Rmax (IZR e / IZR b) 1e-12)%R).

Definition CiGoalsTrivially (b e : Z) : Prop :=
  ((ci_abs a <= 0)%R /\ (ci_rel a <= 0)%R) \/ CiGoalsAsWritten b e.

Lemma stop_by_max_iff b : stop_by_max a b = true <-> MaxBits b.
Proof. unfold stop_by_max, MaxBits. rewrite andb_true_iff. lia. Qed.

Lemma floor_met_iff b e : 0 < b -> floor_met a b e = true <-> BerFloor b e.
Proof.
  intros Hb. unfold floor_met, BerFloor, WilsonHi.
  destruct (Stats.wilson_ci e b (z_crit a)) as [[lo hi] half]. cbn [fst snd].
  case_bool_decide as Hf.
  - split; [done | intros (? & _); lra].
  - destruct (Z.eqb_spec b 0) as [->|_]; [lia|]. cbn [orb].
    destruct (Z.ltb_spec b (ci_min_bits a)) as [Hlt|Hge].
    + split; [done | intros (_ & ? & _); lia].
    + rewrite bool_decide_eq_true. split; [intros ?; repeat split; [lra|lia|done] | by intros (_ & _ & ?)].
Qed.

Lemma ci_goals_met_iff b e :
  0 < b ->
  ci_goals_met a b e = true <->
  ((ci_abs a <= 0)%R /\ (ci_rel a <= 0)%R)
  \/ (ci_min_bits a <= b
      /\ ((0 < ci_abs a)%R -> HalfWithin e b (ci_abs a))
      /\ ((0 < ci_rel a)%R ->
          HalfWithin e b (ci_rel a * Rmax (IZR e / IZR b) 1e-12)%R)).
Proof.
  intros Hb. unfold ci_goals_met, HalfWithin, WilsonHalf.
  destruct (Stats.wilson_ci e b (z_crit a)) as [[lo hi] half]. cbn [fst snd].
  rewrite (proj2 (Z.ltb_lt 0 b) Hb).
  destruct (Z.eqb_spec b 0) as [->|_]; [lia|]. cbn [orb].
  destruct (Rle_dec (ci_abs a) 0) as [Ha|Ha], (Rle_dec (ci_rel a) 0) as [Hr|Hr];
    rewrite ?(bool_decide_eq_true_2 _ Ha), ?(bool_decide_eq_false_2 _ Ha),
            ?(bool_decide_eq_true_2 _ Hr), ?(bool_decide_eq_false_2 _ Hr);
    cbn [andb orb];
    try (assert (0 < ci_abs a)%R by lra); try (assert (0 < ci_rel a)%R by lra);
    [ tauto | | | ];
    (destruct (Z.ltb_spec b (ci_min_bits a)) as [Hlt|Hge];
     [ split; [done | intros [[? ?] | (? & _)]; [lra | lia]] |]);
    rewrite ?andb_true_iff, ?andb_true_r, ?WilsonFacts.nan_le_iff;
    (split; [ intros Hx; right; split; [lia|]; split; intros; first [tauto | lra]
            | intros [[? ?] | (_ & Hx1 & Hx2)]; [lra | tauto] ]).
Qed.

End StopFacts.

(** ** Accounting along a run *)

Section RunFacts.
Context {G : Type} `{RandomEngine G}.
Variable hardware_concurrency : nat.
Variable a : Args (G := G).

Local Abbreviation step := (sys_step a).
Local Abbreviation run := (exec a).

(** What a trace has added to the two counters, before wrap-around. *)
Definition ev_bits (ev : nat * Event) : Z :=
  match ev.2 with EvBits L => L | _ => 0 end.
Definition ev_errs (ev : nat * Event) : Z :=
  match ev.2 with EvErrs e => e | _ => 0 end.

Definition published_bits (tr : list (nat * Event)) : Z :=
  foldr (fun ev acc => ev_bits ev + acc) 0 tr.
Definition published_errs (tr : list (nat * Event)) : Z :=
  foldr (fun ev acc => ev_errs ev + acc) 0 tr.

(** Errors of frames whose bits are published and whose errors are not. *)
Definition pending_errs (w : @Worker G) : Z :=
  match w_pc w with AtPublishErrs _ e => e | _ => 0 end.
Definition pending (ws : list (@Worker G)) : Z :=
  foldr (fun w acc => pending_errs w + acc) 0 ws.

Definition worker_ok (w : @Worker G) : Prop :=
  match w_pc w with
  | AtPublishBits L e => 0 <= e <= L
  | AtPublishErrs _ e => 0 <= e
  | _ => True
  end.

(** A worker that has published at least one frame. *)
Definition progressed (w : @Worker G) : Prop :=
  match w_pc w with
  | AtPublishErrs _ _ | AtStoreStop | Joined => True
  | _ => False
  end.

Lemma published_bits_snoc tr ev :
  published_bits (tr ++ [ev]) = published_bits tr + ev_bits ev.
Proof.
  unfold published_bits. induction tr as [|e tr IH]; simpl; [lia|].
  rewrite IH. lia.
Qed.

Lemma published_errs_snoc tr ev :
  published_errs (tr ++ [ev]) = published_errs tr + ev_errs ev.
Proof.
  unfold published_errs. induction tr as [|e tr IH]; simpl; [lia|].
  rewrite IH. lia.
Qed.

Lemma frames_published_snoc tr ev :
  frames_published (tr ++ [ev])
  = (frames_published tr + if is_bits ev then 1 else 0)%nat.
Proof.
  unfold frames_published. rewrite filter_app, length_app. f_equal.
  rewrite filter_cons, filter_nil. destruct (is_bits ev); case_decide; done.
Qed.

Lemma pending_insert ws tid w w' :
  ws !! tid = Some w ->
  pending (<[tid := w']> ws) = pending ws - pending_errs w + pending_errs w'.
Proof.
  revert tid. induction ws as [|w0 ws IH]; intros [|tid] Hl; simpl in *; try done.
  - injection Hl as ->. lia.
  - rewrite (IH _ Hl). lia.
Qed.

Lemma u64_add_l x y : u64 (u64 x + y) = u64 (x + y).
Proof. unfold u64. apply Z.add_mod_idemp_l. lia. Qed.

Lemma u64_small x : 0 <= x < 2 ^ 64 -> u64 x = x.
Proof. intros. unfold u64. by apply Z.mod_small. Qed.

Lemma count_errors_range u u_hat L :
  0 <= count_errors u u_hat L <= Z.of_nat L.
Proof.
  unfold count_errors. induction L as [|L IH]; [simpl; lia|].
  rewrite seq_S, foldl_snoc. destruct (_ =? _); lia.
Qed.

Lemma frame_ok g f :
  frame a g = Some f -> 0 <= frame_err f <= frame_L f.
Proof.
  unfold frame. destruct (info_bits a g) as [u g1].
  destruct (chain_loop _ _ _ _ _ _) as [st|]; [|done].
  intros [= <-]. cbn [frame_err frame_L]. apply count_errors_range.
Qed.

Record RunInv (tr : list (nat * Event)) (s : @Sys G) : Prop := mkRunInv {
  inv_bits : total_bits (shared s) = u64 (published_bits tr);
  inv_errs : total_err (shared s) = u64 (published_errs tr);
  inv_errs_nonneg : 0 <= published_errs tr;
  inv_account : published_errs tr + pending (pool s) <= published_bits tr;
  inv_workers : Forall worker_ok (pool s);
  inv_pool : length (pool s) = threads hardware_concurrency a;
  inv_stop : stop (shared s) = true -> (1 <= frames_published tr)%nat;
  inv_progress : Forall (fun w => progressed w -> (1 <= frames_published tr)%nat)
                        (pool s)
}.

Lemma pending_spawn base : pending (spawn hardware_concurrency a base) = 0.
Proof.
  unfold spawn. induction (seq 0 _) as [|t l IH]; [reflexivity|].
  rewrite fmap_cons. cbn [pending foldr]. fold (pending ((fun t => mkWorker (seed_engine (seed_of base t)) AtLoopTest) <$> l)).
  rewrite IH. reflexivity.
Qed.

Lemma run_inv_init base : RunInv [] (init_sys hardware_concurrency a base).
Proof.
  unfold init_sys.
  constructor; cbn [shared pool total_bits total_err stop].
  - reflexivity.
  - reflexivity.
  - reflexivity.
  - rewrite pending_spawn. reflexivity.
  - apply Forall_fmap, Forall_true. intros t. exact I.
  - unfold spawn. by rewrite length_fmap, length_seq.
  - intros [=].
  - apply Forall_fmap, Forall_true. intros t [].
Qed.

Lemma progress_mono tr ev (ws : list (@Worker G)) :
  Forall (fun w => progressed w -> (1 <= frames_published tr)%nat) ws ->
  Forall (fun w => progressed w -> (1 <= frames_published (tr ++ [ev]))%nat) ws.
Proof.
  intros HF. eapply Forall_impl; [exact HF|].
  intros w Hw Hp. rewrite frames_published_snoc. specialize (Hw Hp). lia.
Qed.

Lemma run_inv_step tr s ev s' :
  RunInv tr s -> step s ev s' -> RunInv (tr ++ [ev]) s'.
Proof.
  intros [Hb He Hen Hacc Hws Hlen Hstop Hprog] Hstep.
  destruct Hstep as [sh ws tid w e sh' w' Hl Hw].
  cbn [shared pool] in *.
  pose proof (Forall_lookup_1 _ _ _ _ Hws Hl) as Hwok.
  pose proof (Forall_lookup_1 _ _ _ _ Hprog Hl) as Hwpr.
  pose proof (progress_mono tr (tid, e) ws Hprog) as Hprog'.
  unfold worker_ok, progressed in Hwok, Hwpr.
  destruct Hw as [sh g Hs | sh g f Hf | sh g L le | sh g b le | sh g];
    cbn [w_pc] in Hwok, Hwpr;
    try (subst bits_after); try (subst errs_after);
    try (destruct (should_stop a b _));
    (constructor; cbn [shared pool total_bits total_err stop];
     rewrite ?published_bits_snoc, ?published_errs_snoc, ?length_insert,
             ?(pending_insert _ _ _ _ Hl);
     unfold ev_bits, ev_errs; cbn [snd fst pending_errs w_pc];
     rewrite ?Z.add_0_r;
     [ (* bits *) first [ assumption | by rewrite Hb, u64_add_l ]
     | (* errs *) first [ assumption | by rewrite He, u64_add_l ]
     | (* errs nonneg *) lia
     | (* account *) lia
     | (* workers *) apply Forall_insert; [assumption|]; unfold worker_ok; cbn [w_pc]
     | (* pool *) assumption
     | (* stop *) rewrite frames_published_snoc; unfold is_bits; cbn [snd]
     | (* progress *) apply Forall_insert; [assumption|];
                      rewrite frames_published_snoc; unfold progressed, is_bits;
                      cbn [snd w_pc] ]).
  all: first
         [ exact I
         | lia
         | pose proof (frame_ok _ _ Hf); lia
         | intros Hx;
           first [ lia | specialize (Hstop Hx); lia
                 | specialize (Hwpr I); lia | specialize (Hstop Hs); lia
                 | solve [destruct Hx] ] ].
Qed.

Lemma pending_nonneg (ws : list (@Worker G)) :
  Forall worker_ok ws -> 0 <= pending ws.
Proof.
  induction 1 as [|w ws Hw _ IH]; cbn [pending foldr]; [lia|].
  fold (pending ws). unfold worker_ok, pending_errs in *.
  destruct (w_pc w); lia.
Qed.

Lemma run_inv base tr s :
  run (init_sys hardware_concurrency a base) tr s -> RunInv tr s.
Proof.
  intros Hrun. remember (init_sys hardware_concurrency a base) as s0 eqn:Hs0.
  induction Hrun as [|s0 tr s1 ev s2 _ IH Hstep]; subst; [apply run_inv_init|].
  apply (run_inv_step tr s1); [by apply IH | exact Hstep].
Qed.

(** Without wrap-around the counters are the published sums, and the
    error counter never exceeds the bit counter. *)
Lemma counters_exact base tr s :
  run (init_sys hardware_concurrency a base) tr s ->
  published_bits tr < 2 ^ 64 ->
  total_bits (shared s) = published_bits tr
  /\ total_err (shared s) = published_errs tr
  /\ 0 <= total_err (shared s) <= total_bits (shared s).
Proof.
  intros Hrun Hfit. destruct (run_inv _ _ _ Hrun) as [Hb He Hen Hacc Hws _ _ _].
  pose proof (pending_nonneg _ Hws).
  rewrite Hb, He, !u64_small by lia. lia.
Qed.

Lemma threads_pos : (1 <= threads hardware_concurrency a)%nat.
Proof.
  unfold threads.
  destruct (Nat.eqb_spec (n_threads a) 0), (Nat.eqb_spec hardware_concurrency 0); lia.
Qed.

(** A run that has joined all its workers has published a frame. *)
Lemma joined_published base tr s :
  run (init_sys hardware_concurrency a base) tr s ->
  all_joined s -> (1 <= frames_published tr)%nat.
Proof.
  intros Hrun Hj. destruct (run_inv _ _ _ Hrun) as [_ _ _ _ _ Hlen _ Hprog].
  pose proof threads_pos as Ht.
  destruct (pool s) as [|w ws] eqn:Hp; [simpl in Hlen; lia|].
  unfold all_joined in Hj. rewrite Hp in Hj.
  apply Forall_cons in Hj as [Hw _]. apply Forall_cons in Hprog as [Hpw _].
  apply Hpw. unfold progressed. by rewrite Hw.
Qed.

End RunFacts.

(** ** Lengths through one frame *)

Module DecodeFacts.
Import ConvK7R12.

Lemma traceback_length K v (l : list nat) st :
  length (foldl (traceback_step K v) st l).2 = length st.2.
Proof.
  revert st. induction l as [|t l IH]; intros st; [reflexivity|].
  cbn [foldl]. rewrite IH. unfold traceback_step. cbn [snd].
  destruct (t <? K)%nat; by rewrite ?length_insert.
Qed.

(** [decode] returns [n_sym - M] bits, or none when [n_sym <= M]. *)
Lemma decode_length (c_hat : list Z) :
  length (decode c_hat)
  = (if (6 <? length c_hat / 2)%nat then (length c_hat / 2 - 6)%nat else 0%nat).
Proof.
  unfold decode. change (Z.to_nat M) with 6%nat.
  destruct (Nat.eqb_spec (length c_hat / 2) 0) as [-> | Hne]; [reflexivity|].
  rewrite traceback_length. cbn [snd]. by rewrite length_replicate.
Qed.

End DecodeFacts.

Section FrameFacts.
Context {G : Type} `{RandomEngine G}.
Variable a : Args (G := G).

Lemma info_bits_length g :
  length (info_bits a g).1 = Z.to_nat (frame_len_bits a).
Proof.
  unfold info_bits.
  assert (Hgen : forall (l : list nat) st,
             length (foldl draw_bit st l).1 = (length st.1 + length l)%nat).
  { induction l as [|k l IH]; intros st; cbn [foldl length]; [lia|].
    rewrite IH. unfold draw_bit. destruct (bernoulli_half st.2) as [b g'].
    cbn [fst]. rewrite length_app. simpl. lia. }
  rewrite Hgen, length_seq. reflexivity.
Qed.

Lemma store_group_length {A} `{Inhabited A} (c : list Z) i mbs (cells acc : list A) :
  length (store_group c i mbs cells acc)
  = (length acc + Nat.min mbs (length c - i))%nat.
Proof.
  unfold store_group. induction mbs as [|k IH]; [cbn [seq foldl]; lia|].
  rewrite seq_S, foldl_snoc, Nat.add_0_l.
  destruct (Nat.ltb_spec (i + k) (length c)); rewrite ?length_app, IH; cbn [length]; lia.
Qed.

Hypothesis Hsoft : supports_soft (coder a) = false.

Lemma chain_body_hard c mbs i st :
  length (c_hat (chain_body a c mbs i st))
  = (length (c_hat st) + Nat.min mbs (length c - i))%nat
  /\ llr (chain_body a c mbs i st) = llr st.
Proof.
  unfold chain_body.
  destruct (transmit _ _ _ _) as [ch g]. destruct (equalize a ch) as [r_eq s2].
  rewrite Hsoft. cbn [c_hat llr]. split; [apply store_group_length | reflexivity].
Qed.

(** With a positive group size the chain loop ends and returns one hard
    decision per coded bit. *)
Lemma chain_loop_hard c mbs fuel : forall i st,
  (1 <= mbs)%nat -> (length c - i < fuel)%nat ->
  exists st',
    chain_loop a fuel c mbs i st = Some st'
    /\ length (c_hat st') = (length (c_hat st) + (length c - i))%nat
    /\ llr st' = llr st.
Proof.
  induction fuel as [|fuel IH]; intros i st Hm Hf; [lia|].
  cbn [chain_loop]. destruct (Nat.ltb_spec i (length c)) as [Hlt | Hge].
  - destruct (chain_body_hard c mbs i st) as [Hlen Hllr].
    destruct (IH (i + mbs)%nat (chain_body a c mbs i st) Hm ltac:(lia))
      as (st' & Hrun & Hlen' & Hllr').
    exists st'. split; [exact Hrun|]. split; [lia | congruence].
  - exists st. split; [reflexivity|]. split; [lia | reflexivity].
Qed.

Hypothesis Hmbs : 1 <= bits_per_symbol (modem a).
Hypothesis Hcoder : forall u ch,
  length ch = length (encode (coder a) u) ->
  length (decode (coder a) ch) = length u.

(** Every frame completes, and compares exactly [frame_len_bits] bits. *)
Lemma frame_total g :
  exists f, frame a g = Some f
            /\ frame_L f = Z.of_nat (Z.to_nat (frame_len_bits a))
            /\ 0 <= frame_err f <= frame_L f.
Proof.
  unfold frame. pose proof (info_bits_length g) as Hu.
  destruct (info_bits a g) as [u g1]. cbn [fst] in Hu.
  destruct (chain_loop_hard (encode (coder a) u)
              (Z.to_nat (bits_per_symbol (modem a)))
              (S (length (encode (coder a) u))) 0 (mkChain g1 [] [])
              ltac:(lia) ltac:(lia)) as (st & -> & Hlen & _).
  rewrite Hsoft. eexists. split; [reflexivity|].
  cbn [frame_L frame_err c_hat length] in *.
  rewrite (Hcoder u (c_hat st)) by lia.
  rewrite Nat.min_id, Hu. split; [reflexivity|].
  rewrite <- Hu. apply count_errors_range.
Qed.

End FrameFacts.

Lemma uncoded_lengths u (ch : list Z) :
  length ch = length (encode UncodedCoder u) ->
  length (decode UncodedCoder ch) = length u.
Proof. intros Hl. exact Hl. Qed.

Lemma conv_lengths u (ch : list Z) :
  length ch = length (encode ConvK7R12Coder u) ->
  length (decode ConvK7R12Coder ch) = length u.
Proof.
  cbn [encode decode ConvK7R12Coder]. rewrite ConvFacts.encode_size. intros Hl.
  rewrite DecodeFacts.decode_length, Hl.
  replace (2 * (length u + 6) / 2)%nat with (length u + 6)%nat
    by (rewrite Nat.mul_comm, Nat.div_mul; lia).
  destruct (Nat.ltb_spec 6 (length u + 6)); lia.
Qed.

(** ** The frame-length law along a run *)

Section LengthLaw.
Context {G : Type} `{RandomEngine G}.
Variable hardware_concurrency : nat.
Variable a : Args (G := G).
Variable F : Z.
Hypothesis Hframe : forall g f, frame a g = Some f -> frame_L f = F.

Definition event_ok (ev : nat * Event) : Prop :=
  match ev.2 with
  | EvBits L => L = F
  | EvErrs e => 0 <= e <= F
  | _ => True
  end.

Definition worker_len_ok (w : @Worker G) : Prop :=
  match w_pc w with
  | AtPublishBits L e => L = F /\ 0 <= e <= F
  | AtPublishErrs _ e => 0 <= e <= F
  | _ => True
  end.

Lemma length_law_step tr (s : @Sys G) ev s' :
  Forall event_ok tr -> Forall worker_len_ok (pool s) ->
  sys_step a s ev s' ->
  Forall event_ok (tr ++ [ev]) /\ Forall worker_len_ok (pool s').
Proof.
  intros Htr Hws Hstep.
  destruct Hstep as [sh ws tid w e sh' w' Hl Hw]. cbn [pool] in *.
  pose proof (Forall_lookup_1 _ _ _ _ Hws Hl) as Hwok.
  unfold worker_len_ok in Hwok.
  assert (event_ok (tid, e) /\ worker_len_ok w') as [He Hw'].
  { unfold event_ok, worker_len_ok.
    destruct Hw as [sh g Hs | sh g f Hf | sh g L le | sh g b le | sh g];
      cbn [w_pc snd] in *.
    - done.
    - pose proof (frame_ok a g f Hf). rewrite (Hframe g f Hf) in *. done.
    - split; [tauto | lia].
    - split; [done|]. by destruct (should_stop _ _ _).
    - done. }
  split.
  - apply Forall_app. split; [exact Htr | by apply Forall_singleton].
  - by apply Forall_insert.
Qed.

Lemma length_law base tr s :
  exec a (init_sys hardware_concurrency a base) tr s ->
  Forall event_ok tr /\ Forall worker_len_ok (pool s).
Proof.
  intros Hrun. remember (init_sys hardware_concurrency a base) as s0 eqn:Hs0.
  induction Hrun as [|s0 tr s1 ev s2 _ IH Hstep]; subst.
  - split; [constructor|]. unfold init_sys, spawn. cbn [pool].
    apply Forall_fmap, Forall_true. intros t. exact I.
  - destruct (IH eq_refl) as [Htr Hws]. by apply (length_law_step tr s1).
Qed.

Lemma published_bits_frames tr :
  Forall event_ok tr ->
  published_bits tr = Z.of_nat (frames_published tr) * F.
Proof.
  induction tr as [|ev tr IH] using rev_ind; intros Hok; [reflexivity|].
  apply Forall_app in Hok as [Htr Hev]. rewrite Forall_singleton in Hev.
  rewrite published_bits_snoc, frames_published_snoc, (IH Htr).
  unfold event_ok, ev_bits, is_bits in *.
  destruct ev as [tid e]; cbn [snd] in *;
    destruct e; cbn beta iota in *; lia.
Qed.

End LengthLaw.

(** ** Schedules *)

Section Schedules.
Context {G : Type} `{RandomEngine G}.
Variable hardware_concurrency : nat.
Variable a : Args (G := G).

Lemma exec_cons (s : @Sys G) ev s' tr s'' :
  sys_step a s ev s' -> exec a s' tr s'' -> exec a s (ev :: tr) s''.
Proof.
  intros Hstep Hrun. induction Hrun as [s1 | s1 tr s2 ev' s3 _ IH Hstep'].
  - apply (exec_snoc a s [] s ev s1); [constructor | exact Hstep].
  - rewrite app_comm_cons. eapply exec_snoc; [by apply IH | exact Hstep'].
Qed.

Lemma exec_nil_inv (s s' : @Sys G) : exec a s [] s' -> s' = s.
Proof.
  intros Hrun. inversion Hrun as [| ? tr ? ? ? _ _ Htr]; [reflexivity|].
  by destruct tr.
Qed.

(** A joined worker takes no action, so a joined pool is final. *)
Lemma joined_final (s : @Sys G) ev s' : all_joined s -> sys_step a s ev s' -> False.
Proof.
  intros Hj Hstep. destruct Hstep as [sh ws tid w e sh' w' Hl Hw].
  pose proof (Forall_lookup_1 _ _ _ _ Hj Hl) as Hpc. cbn beta in Hpc.
  destruct Hw; discriminate Hpc.
Qed.

Lemma exec_from_final (s : @Sys G) tr s' : all_joined s -> exec a s tr s' -> s' = s.
Proof.
  intros Hj Hrun. induction Hrun as [| s0 tr s1 ev s2 _ IH Hstep]; [reflexivity|].
  rewrite (IH Hj) in Hstep. destruct (joined_final _ _ _ Hj Hstep).
Qed.

(** *** One worker: every schedule is the same schedule *)

Definition alone (s : @Sys G) : Prop :=
  exists w, pool s = [w] /\ (stop (shared s) = true -> w_pc w = Joined).

Lemma alone_step s ev s' : alone s -> sys_step a s ev s' -> alone s'.
Proof.
  intros (w0 & Hp & Hs) Hstep.
  destruct Hstep as [sh ws tid w e sh' w' Hl Hw]. cbn [pool shared] in *. subst ws.
  destruct tid as [|tid]; [|by destruct tid]. injection Hl as ->.
  exists w'. split; [reflexivity|].
  destruct Hw as [sh g Hst | sh g f Hf | sh g L le | sh g b le | sh g];
    cbn [stop w_pc] in *; try done; intros Hx; discriminate (Hs Hx).
Qed.

Lemma alone_exec s tr s' : alone s -> exec a s tr s' -> alone s'.
Proof.
  intros Hs Hrun. induction Hrun as [| s0 tr s1 ev s2 _ IH Hstep]; [exact Hs|].
  eapply alone_step; [by apply IH | exact Hstep].
Qed.

Lemma alone_step_det s ev1 s1 ev2 s2 :
  alone s -> sys_step a s ev1 s1 -> sys_step a s ev2 s2 -> s1 = s2.
Proof.
  intros (w0 & Hp & Hs) H1 H2.
  inversion H1 as [sh ws tid w e sh1 w1 Hl1 Hw1]; subst.
  inversion H2 as [sh' ws' tid' w' e' sh2 w2 Hl2 Hw2]; subst.
  cbn [pool shared] in *. subst ws.
  destruct tid as [|tid]; [|by destruct tid].
  destruct tid' as [|tid']; [|by destruct tid'].
  injection Hl1 as ->. injection Hl2 as ->.
  inversion Hw1; subst; inversion Hw2; subst; cbn [w_pc stop] in *;
    try reflexivity; try congruence;
    try (match goal with Hx : stop _ = true |- _ => discriminate (Hs Hx) end).
Qed.

Lemma alone_confluent s tr2 s2 :
  alone s -> exec a s tr2 s2 ->
  forall tr1 s1, exec a s tr1 s1 -> (length tr1 <= length tr2)%nat ->
  exists tr', exec a s1 tr' s2 /\ length tr2 = (length tr1 + length tr')%nat.
Proof.
  intros Hs Hrun2. induction Hrun2 as [| s0 tr s' ev s2 Hrun IH Hstep];
    intros tr1 s1 Hrun1 Hlen.
  - destruct tr1; [|simpl in Hlen; lia].
    rewrite (exec_nil_inv _ _ Hrun1). exists []. split; [constructor | reflexivity].
  - rewrite length_app in Hlen. cbn [length] in Hlen.
    destruct (decide (length tr1 <= length tr)%nat) as [Hle | Hgt].
    + destruct (IH Hs _ _ Hrun1 Hle) as (tr' & Hrun' & Hl).
      exists (tr' ++ [ev]). split; [eapply exec_snoc; eassumption|].
      rewrite !length_app. cbn [length]. lia.
    + inversion Hrun1 as [| ? tr1' s1' ev1 ? Hrun1' Hstep1 Htr]; subst;
        [simpl in Hgt; lia|].
      rewrite length_app in Hlen, Hgt. cbn [length] in Hlen, Hgt.
      destruct (IH Hs _ _ Hrun1' ltac:(lia)) as (tr' & Hrun' & Hl).
      destruct tr'; [|cbn [length] in Hl; lia].
      apply exec_nil_inv in Hrun'. subst s'.
      rewrite (alone_step_det _ _ _ _ _ (alone_exec _ _ _ Hs Hrun1') Hstep1 Hstep).
      exists []. split; [constructor|]. rewrite !length_app. cbn [length]. lia.
Qed.

Lemma alone_final_unique s tr1 s1 tr2 s2 :
  alone s -> exec a s tr1 s1 -> exec a s tr2 s2 ->
  all_joined s1 -> all_joined s2 -> s1 = s2.
Proof.
  intros Hs H1 H2 Hj1 Hj2.
  destruct (decide (length tr1 <= length tr2)%nat) as [Hle | Hgt].
  - destruct (alone_confluent s tr2 s2 Hs H2 tr1 s1 H1 Hle) as (tr' & Hrun & _).
    symmetry. by apply (exec_from_final s1 tr').
  - destruct (alone_confluent s tr1 s1 Hs H1 tr2 s2 H2 ltac:(lia)) as (tr' & Hrun & _).
    by apply (exec_from_final s2 tr').
Qed.

Lemma init_alone base :
  threads hardware_concurrency a = 1%nat ->
  alone (init_sys hardware_concurrency a base).
Proof.
  intros Ht. unfold init_sys, spawn. rewrite Ht. cbn [seq fmap list_fmap].
  eexists. split; [reflexivity|]. cbn [shared stop]. discriminate.
Qed.

(** A single worker whose first frame meets a stop rule: one frame is
    published, the flag is stored and the worker returns. *)
Lemma one_frame_run base f :
  threads hardware_concurrency a = 1%nat ->
  frame a (seed_engine (seed_of base 0)) = Some f ->
  should_stop a (u64 (0 + frame_L f)) (u64 (0 + frame_err f)) = true ->
  exists tr s,
    exec a (init_sys hardware_concurrency a base) tr s /\ all_joined s
    /\ total_bits (shared s) = u64 (0 + frame_L f)
    /\ total_err (shared s) = u64 (0 + frame_err f).
Proof.
  intros Hone Hf Hstop. unfold init_sys, spawn. rewrite Hone.
  cbn [seq fmap list_fmap].
  exists [(0%nat, EvFrame); (0%nat, EvBits (frame_L f));
          (0%nat, EvErrs (frame_err f)); (0%nat, EvStop)].
  eexists. split; [|split; [|split]].
  - eapply exec_cons;
      [ eapply (sys_step_worker _ _ _ 0%nat); [reflexivity | apply ws_frame; exact Hf] |].
    eapply exec_cons;
      [ eapply (sys_step_worker _ _ _ 0%nat); [reflexivity | apply ws_bits] |].
    cbn [insert list_insert total_bits total_err stop].
    eapply exec_cons;
      [ eapply (sys_step_worker _ _ _ 0%nat); [reflexivity | apply ws_errs] |].
    cbn [insert list_insert total_bits total_err stop].
    rewrite Hstop.
    eapply exec_cons;
      [ eapply (sys_step_worker _ _ _ 0%nat); [reflexivity | apply ws_stop] |].
    apply exec_nil.
  - repeat constructor.
  - reflexivity.
  - reflexivity.
Qed.

End Schedules.

(** *** Two workers: the schedule decides how many frames are run *)

Section TwoWorkers.
Context {G : Type} `{RandomEngine G}.
Variable hardware_concurrency : nat.
Variable a : Args (G := G).
Hypothesis Hthreads : threads hardware_concurrency a = 2%nat.
Hypothesis Hmax : max_bits a = 1.
Hypothesis Hframe : forall g, exists f, frame a g = Some f /\ frame_L f = 1.

Lemma should_stop_max b e : 1 <= b -> should_stop a b e = true.
Proof.
  intros Hb. unfold should_stop, stop_by_max. rewrite Hmax.
  rewrite (proj2 (Z.leb_le 1 b) Hb). reflexivity.
Qed.

Ltac sched tid :=
  eapply exec_cons;
  [ eapply (sys_step_worker _ _ _ tid); [reflexivity|] | cbn [insert list_insert] ].

Lemma two_schedules base :
  exists tr1 s1 tr2 s2,
    exec a (init_sys hardware_concurrency a base) tr1 s1 /\ all_joined s1
    /\ exec a (init_sys hardware_concurrency a base) tr2 s2 /\ all_joined s2
    /\ total_bits (shared s1) = 1 /\ total_bits (shared s2) = 2.
Proof.
  unfold init_sys, spawn. rewrite Hthreads. cbn [seq fmap list_fmap].
  set (g0 := seed_engine (seed_of base 0)). set (g1 := seed_engine (seed_of base 1)).
  destruct (Hframe g0) as (f0 & Hf0 & HL0). destruct (Hframe g1) as (f1 & Hf1 & HL1).
  pose proof (should_stop_max 1) as Hs1. pose proof (should_stop_max 2) as Hs2.
  eexists _, _, _, _. split; [|split; [|split; [|split; [|split]]]].
  - (* worker 0 runs a whole frame and stops; worker 1 then reads [stop] *)
    sched 0%nat; [apply ws_frame; exact Hf0|].
    sched 0%nat; [apply ws_bits|]. cbn [total_bits total_err stop]. rewrite HL0.
    change (u64 (0 + 1)) with 1.
    sched 0%nat; [apply ws_errs|]. cbn [total_bits total_err stop].
    rewrite Hs1 by lia.
    sched 0%nat; [apply ws_stop|]. cbn [total_bits total_err stop].
    sched 1%nat; [apply ws_exit; reflexivity|].
    apply exec_nil.
  - repeat constructor.
  - (* both workers read [stop] before either one stores it *)
    sched 0%nat; [apply ws_frame; exact Hf0|].
    sched 1%nat; [apply ws_frame; exact Hf1|].
    sched 0%nat; [apply ws_bits|]. cbn [total_bits total_err stop]. rewrite HL0.
    change (u64 (0 + 1)) with 1.
    sched 0%nat; [apply ws_errs|]. cbn [total_bits total_err stop].
    rewrite Hs1 by lia.
    sched 0%nat; [apply ws_stop|]. cbn [total_bits total_err stop].
    sched 1%nat; [apply ws_bits|]. cbn [total_bits total_err stop]. rewrite HL1.
    change (u64 (1 + 1)) with 2.
    sched 1%nat; [apply ws_errs|]. cbn [total_bits total_err stop].
    rewrite Hs2 by lia.
    sched 1%nat; [apply ws_stop|]. cbn [total_bits total_err stop].
    apply exec_nil.
  - repeat constructor.
  - reflexivity.
  - reflexivity.
Qed.

End TwoWorkers.

(** ** The Rayleigh chain *)

Section RayleighFacts.
Context {G : Type} `{RandomEngine G}.
Variable a : Args (G := G).

Lemma rayleigh_transmit s rng sg :
  RayleighChannel.transmit s rng sg
  = (mkOut (Rabs (std_normal rng).1 * s) (Rabs (std_normal rng).1),
     (std_normal rng).2).
Proof.
  unfold RayleighChannel.transmit, normal_distribution.
  destruct (std_normal rng) as [g rng']. cbn [fst snd].
  replace (0 + 1 * g)%R with g by ring. reflexivity.
Qed.

Lemma equalize_gain (yv gv : R) :
  (0 < gv)%R ->
  equalize a (mkOut yv gv)
  = ((yv / gv)%R, (sigma a * sigma a / (gv * gv))%R).
Proof.
  intros Hg. unfold equalize. cbn [gain y].
  rewrite !bool_decide_eq_true_2 by exact Hg. reflexivity.
Qed.

End RayleighFacts.

(** C1. Code evaluated at the Rayleigh chain: [transmit] returns
    [(h * s, h)] with [h = |g|] for the standard-normal draw [g], and draws
    nothing else; whenever the draw is non-zero the equalised observation
    is the transmitted symbol [s] itself, for every noise scale.  No noise
    sample enters between the modulator and the hard demodulator, which
    does not read [sigma2_eq]. *)
Theorem rayleigh_equalized_exact {G : Type} `{RandomEngine G}
    (a : Args (G := G)) (s : R) (rng : G) :
  let g := (std_normal rng).1 in
  g <> 0%R ->
  let '(ch, rng') := RayleighChannel.transmit s rng (sigma a) in
  y ch = (Rabs g * s)%R /\ gain ch = Rabs g /\ rng' = (std_normal rng).2
  /\ equalize a ch = (s, (sigma a * sigma a / (Rabs g * Rabs g))%R)
  /\ forall m outbits,
       demodulate m (equalize a ch).1 outbits = demodulate m s outbits.
Proof.
  intros g Hg. rewrite rayleigh_transmit. fold g. cbn [y gain].
  assert (Hpos : (0 < Rabs g)%R) by (by apply Rabs_pos_lt).
  assert (Heq : equalize a (mkOut (Rabs g * s) (Rabs g))
                = (s, (sigma a * sigma a / (Rabs g * Rabs g))%R)).
  { rewrite equalize_gain by exact Hpos. f_equal. field. lra. }
  repeat split; try reflexivity; [exact Heq|].
  intros m outbits. by rewrite Heq.
Qed.

(** ** A concrete configuration

    A linear congruential generator stands in for [std::mt19937_64] where a
    statement is run on concrete data; nothing below depends on the values
    it draws. *)

Module Lcg.

Definition advance (g : Z) : Z :=
  u64 (6364136223846793005 * g + 1442695040888963407).

#[global] Instance engine : RandomEngine Z := {|
  seed_engine s := u64 s;
  next_u64 g := (advance g, advance g);
  bernoulli_half g := (Z.testbit (advance g) 63, advance g);
  std_normal g := (IZR (2 * (advance g mod 4) - 3), advance g)
|}.

Lemma std_normal_nonzero (g : Z) : (std_normal g).1 <> 0%R.
Proof.
  cbn [std_normal engine fst]. apply not_0_IZR.
  pose proof (Z.mod_pos_bound (advance g) 4 ltac:(lia)). lia.
Qed.

(** Uncoded 2-ASK over AWGN, one-bit frames, stop at the first bit. *)
Definition args (workers : nat) : Args (G := Z) :=
  mkArgs 4 0 1 1 Ask2 Awgn UncodedCoder 0.95 0 0 0 workers 0.

Lemma args_frame workers (g : Z) :
  exists f, frame (args workers) g = Some f /\ frame_L f = 1.
Proof.
  destruct (frame_total (args workers) eq_refl ltac:(vm_compute; discriminate)
              uncoded_lengths g)
    as (f & Hf & HL & _).
  exists f. split; [exact Hf | exact HL].
Qed.

(** The run of a single worker: one frame, then [stop]. *)
Lemma single_run (base : Z) :
  exists tr s,
    exec (args 1) (init_sys 1 (args 1) base) tr s /\ all_joined s
    /\ published_bits tr = 1.
Proof.
  unfold init_sys, spawn. cbn [threads args n_threads Nat.eqb seq fmap list_fmap].
  set (g0 := seed_engine (seed_of base 0)).
  destruct (args_frame 1 g0) as (f0 & Hf0 & HL0).
  exists [(0%nat, EvFrame); (0%nat, EvBits (frame_L f0));
          (0%nat, EvErrs (frame_err f0)); (0%nat, EvStop)].
  eexists. split; [|split].
  - eapply exec_cons;
      [ eapply (sys_step_worker _ _ _ 0%nat); [reflexivity | apply ws_frame; exact Hf0] |].
    eapply exec_cons;
      [ eapply (sys_step_worker _ _ _ 0%nat); [reflexivity | apply ws_bits] |].
    cbn [insert list_insert total_bits total_err stop]. rewrite HL0.
    eapply exec_cons;
      [ eapply (sys_step_worker _ _ _ 0%nat); [reflexivity | apply ws_errs] |].
    cbn [insert list_insert total_bits total_err stop].
    rewrite (should_stop_max (args 1) eq_refl) by (vm_compute; discriminate).
    eapply exec_cons;
      [ eapply (sys_step_worker _ _ _ 0%nat); [reflexivity | apply ws_stop] |].
    apply exec_nil.
  - repeat constructor.
  - rewrite HL0. reflexivity.
Qed.

Lemma first_draw (g : Z) : next_u64 g = (advance g, advance g).
Proof. reflexivity. Qed.

End Lcg.

(** ** The returned record *)

Section ResultFacts.
Context {G : Type} `{RandomEngine G}.
Variable a : Args (G := G).

Lemma result_counts sh :
  bits (result a sh) = total_bits sh /\ errs (result a sh) = total_err sh
  /\ ber (result a sh)
     = (if 0 <? total_bits sh
        then (IZR (total_err sh) / IZR (total_bits sh))%R else 0%R).
Proof.
  unfold result. destruct (if ci_computed a sh then _ else _) as [[lo hi] half].
  repeat split.
Qed.

Lemma ci_computed_iff sh :
  ci_computed a sh = true
  <-> ((0 < ci_abs a)%R \/ (0 < ci_rel a)%R) /\ 0 < total_bits sh
      /\ (exists z, z_crit a = Some z /\ (0 < z)%R).
Proof.
  unfold ci_computed.
  rewrite !andb_true_iff, orb_true_iff, !bool_decide_eq_true, Z.ltb_lt,
    WilsonFacts.nan_pos_iff.
  tauto.
Qed.

Lemma ber_range sh :
  0 <= total_err sh <= total_bits sh -> (0 <= ber (result a sh) <= 1)%R.
Proof.
  intros He. destruct (result_counts sh) as (_ & _ & ->).
  destruct (Z.ltb_spec 0 (total_bits sh)); [|lra].
  by apply WilsonFacts.proportion_range.
Qed.

Lemma result_interval sh :
  0 <= total_err sh <= total_bits sh ->
  if ci_computed a sh
  then (0 <= ci_lo (result a sh) <= ber (result a sh)
        /\ ber (result a sh) <= ci_hi (result a sh) <= 1
        /\ 0 < ci_hi (result a sh))%R
  else ci_lo (result a sh) = 0%R /\ ci_hi (result a sh) = 0%R.
Proof.
  intros He. destruct (result_counts sh) as (_ & _ & Hber). rewrite Hber.
  unfold result. destruct (ci_computed a sh) eqn:Hc.
  - apply ci_computed_iff in Hc as (_ & Hb & z & Hzc & Hz).
    pose proof (WilsonFacts.wilson_ci_brackets _ _ _ He Hb Hz) as Hw.
    rewrite Hzc.
    destruct (Stats.wilson_ci _ _ _) as [[lo hi] half]. cbn [ci_lo ci_hi].
    rewrite (proj2 (Z.ltb_lt 0 (total_bits sh)) Hb). exact Hw.
  - cbn [ci_lo ci_hi]. split; reflexivity.
Qed.

End ResultFacts.

(** C5 (as amended). Every record returned by [simulate_framewise] on a
    run whose published bits fit the 64-bit counter satisfies:
    [errs <= bits]; [ber = errs / bits] when [bits > 0] and [ber = 0]
    otherwise, hence [0 <= ber <= 1]; when the interval was computed (a
    width goal is enabled, at least one bit was simulated and the critical
    value is a positive number, not NaN) [0 <= ci_lo <= ci_hi <= 1];
    otherwise both bounds are zero.  That [ber] lies between the two bounds
    is left out: it holds in exact arithmetic only
    ([bracket_broken_in_binary64] below). *)
Theorem ber_result_invariants {G : Type} `{RandomEngine G}
    (hardware_concurrency : nat) (a : Args (G := G))
    (rng : G) (base : Z) (rng' : G) tr s :
  next_u64 rng = (base, rng') ->
  exec a (init_sys hardware_concurrency a base) tr s ->
  all_joined s ->
  published_bits tr < 2 ^ 64 ->
  let r := result a (shared s) in
  let computed := ((0 < ci_abs a)%R \/ (0 < ci_rel a)%R) /\ 0 < bits r
                  /\ (exists z, z_crit a = Some z /\ (0 < z)%R) in
  simulate_framewise hardware_concurrency a rng r rng'
  /\ 0 <= errs r <= bits r
  /\ ber r = (if 0 <? bits r then (IZR (errs r) / IZR (bits r))%R else 0%R)
  /\ (0 <= ber r <= 1)%R
  /\ (computed -> (0 <= ci_lo r <= ci_hi r /\ ci_hi r <= 1)%R)
  /\ (~ computed -> ci_lo r = 0%R /\ ci_hi r = 0%R).
Proof.
  intros Hdraw Hrun Hj Hfit r computed.
  destruct (counters_exact _ _ _ _ _ Hrun Hfit) as (_ & _ & He).
  destruct (result_counts a (shared s)) as (Hbits & Herrs & Hber).
  pose proof (result_interval a (shared s) He) as Hci.
  pose proof (ci_computed_iff a (shared s)) as Hiff.
  subst r computed. rewrite Hbits, Herrs.
  split; [by econstructor|]. split; [exact He|]. split; [exact Hber|].
  split; [by apply ber_range|].
  destruct (ci_computed a (shared s)).
  - split; [intros _; lra|]. intros Hn. exfalso. apply Hn. by apply Hiff.
  - split; [|intros _; exact Hci]. intros Hc. apply Hiff in Hc. discriminate.
Qed.

Lemma ber_result_invariants_witness :
  exists r rng',
    simulate_framewise 1 (Lcg.args 1) 0 r rng'
    /\ 0 <= errs r <= bits r /\ (0 <= ber r <= 1)%R.
Proof.
  destruct (Lcg.single_run (Lcg.advance 0)) as (tr & s & Hrun & Hj & Hb).
  destruct (ber_result_invariants 1 (Lcg.args 1) 0 (Lcg.advance 0) (Lcg.advance 0)
              tr s (Lcg.first_draw 0) Hrun Hj
              ltac:(rewrite Hb; reflexivity))
    as (Hsim & He & _ & Hr & _).
  exists (result (Lcg.args 1) (shared s)), (Lcg.advance 0).
  split; [exact Hsim|]. split; [exact He | exact Hr].
Defined.



(** C2 (as amended). After publishing a frame a worker holds the
    post-increment snapshots: [b], read when it added its bits (positive,
    since a frame was just added), and [e], read when it adds its errors;
    [e] may exceed [b].  It goes on to store [stop = true] and leave the
    loop if and only if Max-bits, BER-floor or CI-goals holds on [(b, e)],
    and goes back to the loop test otherwise; the store sets the shared
    flag and the worker returns.  In CI-goals the minimum-error gate always
    applies, and [ci_min_bits] and the width goals apply only when a width
    goal is enabled.  A half-width that is NaN ([z] NaN, or a negative
    argument of the square root) meets no width goal, and the upper bound
    is then 1. *)
Theorem worker_stop_iff {G : Type} `{RandomEngine G} (a : Args (G := G))
    (sh : Shared) (g : G) (b local_err : Z) ev sh' w' :
  0 < b ->
  worker_step a sh (mkWorker g (AtPublishErrs b local_err)) ev sh' w' ->
  let e := total_err sh' in
  e = u64 (total_err sh + local_err)
  /\ (w_pc w' = AtStoreStop <-> MaxBits a b \/ BerFloor a b e \/ CiGoals a b e)
  /\ (w_pc w' = AtLoopTest <-> ~ (MaxBits a b \/ BerFloor a b e \/ CiGoals a b e))
  /\ (forall sh2 g2 ev2 sh3 w3,
        worker_step a sh2 (mkWorker g2 AtStoreStop) ev2 sh3 w3 ->
        stop sh3 = true /\ w_pc w3 = Joined).
Proof.
  intros Hb Hstep e.
  assert (Hiff : forall e0, should_stop a b e0 = true
                            <-> MaxBits a b \/ BerFloor a b e0 \/ CiGoals a b e0).
  { intros e0. unfold should_stop, stop_by_floor, stop_by_ci, CiGoals.
    rewrite !orb_true_iff, andb_true_iff, orb_true_iff.
    rewrite stop_by_max_iff, (floor_met_iff a b e0 Hb), (ci_goals_met_iff a b e0 Hb).
    rewrite Z.eqb_eq, Z.leb_le. tauto. }
  inversion Hstep as [| | | sh0 g0 b0 e0 errs_after |]; subst.
  subst e. cbn [total_err w_pc]. fold errs_after.
  specialize (Hiff errs_after).
  split; [reflexivity|]. split; [|split].
  - destruct (should_stop a b errs_after).
    + split; [intros _; by apply Hiff | reflexivity].
    + split; [discriminate | intros Hx; apply Hiff in Hx; discriminate].
  - destruct (should_stop a b errs_after).
    + split; [discriminate | intros Hx; exfalso; apply Hx; by apply Hiff].
    + split; [intros _ Hx; apply Hiff in Hx; discriminate | reflexivity].
  - intros sh2 g2 ev2 sh3 w3 Hs. inversion Hs; subst. split; reflexivity.
Qed.

Lemma worker_stop_iff_witness :
  let a := Lcg.args 1 in
  let sh' := mkShared 1 (u64 (0 + 0)) false in
  let w' := mkWorker 7 (if should_stop a 1 (u64 (0 + 0)) then AtStoreStop
                        else AtLoopTest) in
  w_pc w' = AtStoreStop
  <-> MaxBits a 1 \/ BerFloor a 1 (total_err sh') \/ CiGoals a 1 (total_err sh').
Proof.
  exact (proj1 (proj2 (worker_stop_iff (Lcg.args 1) (mkShared 1 0 false) 7 1 0
                         (EvErrs 0) _ _ ltac:(lia)
                         (ws_errs (Lcg.args 1) (mkShared 1 0 false) 7 1 0)))).
Defined.

(** Two settings with both width goals off, on snapshots [b = 1], [e = 0]. *)
Module LcgStops.

(** [ci_min_bits = 1000], no other stop rule. *)
Definition few_bits : Args (G := Z) :=
  mkArgs 4 0 0 1 Ask2 Awgn UncodedCoder 0.95 0 0 1000 1 0.

(** [min_errors = 5], no other stop rule. *)
Definition few_errors : Args (G := Z) :=
  mkArgs 4 5 0 1 Ask2 Awgn UncodedCoder 0.95 0 0 0 1 0.

Lemma few_bits_stops : should_stop few_bits 1 0 = true.
Proof.
  unfold should_stop, stop_by_ci, ci_goals_met.
  cbn [few_bits min_errors ci_abs ci_rel Z.eqb orb andb].
  rewrite !bool_decide_eq_true_2 by lra. cbn [andb]. apply orb_true_r.
Qed.

Lemma few_errors_goes_on : should_stop few_errors 1 0 = false.
Proof.
  unfold should_stop, stop_by_max, stop_by_floor, floor_met, stop_by_ci.
  cbn [few_errors max_bits min_errors ber_floor Z.ltb Z.leb Z.eqb Z.compare
       andb orb].
  rewrite bool_decide_eq_true_2 by lra. reflexivity.
Qed.

End LcgStops.

(** With both width goals off the worker stops on a snapshot below
    [ci_min_bits], where the conjunction as written does not hold; and it
    goes on while [min_errors] is not reached, where goals met trivially
    would hold. *)
Lemma ci_goals_as_written_fail :
  (worker_step LcgStops.few_bits (mkShared 1 0 false)
     (mkWorker 7 (AtPublishErrs 1 0)) (EvErrs 0)
     (mkShared 1 0 false) (mkWorker 7 AtStoreStop)
   /\ ~ (MaxBits LcgStops.few_bits 1 \/ BerFloor LcgStops.few_bits 1 0
         \/ CiGoalsAsWritten LcgStops.few_bits 1 0))
  /\ (worker_step LcgStops.few_errors (mkShared 1 0 false)
        (mkWorker 7 (AtPublishErrs 1 0)) (EvErrs 0)
        (mkShared 1 0 false) (mkWorker 7 AtLoopTest)
      /\ (MaxBits LcgStops.few_errors 1 \/ BerFloor LcgStops.few_errors 1 0
          \/ CiGoalsTrivially LcgStops.few_errors 1 0)).
Proof.
  split; split.
  - pose proof (ws_errs LcgStops.few_bits (mkShared 1 0 false) 7 1 0) as Hs.
    cbv zeta in Hs. cbn [total_bits total_err stop] in Hs.
    change (u64 (0 + 0)) with 0 in Hs.
    rewrite LcgStops.few_bits_stops in Hs. exact Hs.
  - unfold MaxBits, BerFloor, CiGoalsAsWritten.
    cbn [LcgStops.few_bits max_bits ber_floor ci_min_bits].
    intros [[? _] | [[? _] | (_ & ? & _)]]; first [lia | lra].
  - pose proof (ws_errs LcgStops.few_errors (mkShared 1 0 false) 7 1 0) as Hs.
    cbv zeta in Hs. cbn [total_bits total_err stop] in Hs.
    change (u64 (0 + 0)) with 0 in Hs.
    rewrite LcgStops.few_errors_goes_on in Hs. exact Hs.
  - right. right. left. cbn [LcgStops.few_errors ci_abs ci_rel]. lra.
Qed.

(** C10. With the pass-through or the convolutional coder, either modem,
    any channel and a positive frame length [F]: every frame completes and
    compares exactly [F] bits with at most [F] errors; every publication
    adds exactly [F] to [total_bits] and at most [F] to [total_errs]; so,
    as long as the published bits fit the 64-bit counter, [total_bits] is
    [F] times the number of published frames and [total_errs <= total_bits]
    in every reachable state, and a run that has joined all workers has
    published at least one frame. *)
Theorem frame_length_invariant {G : Type} `{RandomEngine G}
    (hardware_concurrency : nat) (a : Args (G := G)) :
  0 < frame_len_bits a ->
  coder a = UncodedCoder \/ coder a = ConvK7R12Coder ->
  modem a = Ask2 \/ (exists mapping, modem a = Ask4 mapping) ->
  let F := frame_len_bits a in
  (forall g, exists f, frame a g = Some f /\ frame_L f = F /\ 0 <= frame_err f <= F)
  /\ (forall base tr s,
        exec a (init_sys hardware_concurrency a base) tr s ->
        Forall (fun ev => match ev.2 with
                          | EvBits L => L = F
                          | EvErrs e => 0 <= e <= F
                          | _ => True
                          end) tr
        /\ published_bits tr = Z.of_nat (frames_published tr) * F
        /\ (published_bits tr < 2 ^ 64 ->
            total_bits (shared s) = Z.of_nat (frames_published tr) * F
            /\ 0 <= total_err (shared s) <= total_bits (shared s))
        /\ (all_joined s ->
            (1 <= frames_published tr)%nat
            /\ (published_bits tr < 2 ^ 64 ->
                exists k, 0 < k /\ bits (result a (shared s)) = k * F))).
Proof.
  intros HF Hcoder Hmodem F.
  assert (Hsoft : supports_soft (coder a) = false)
    by (destruct Hcoder as [-> | ->]; reflexivity).
  assert (Hmbs : 1 <= bits_per_symbol (modem a)).
  { destruct Hmodem as [-> | [mapping ->]]; cbn; [unfold Ask2Modem.bits_per_symbol
                                                | unfold Ask4Modem.bits_per_symbol]; lia. }
  assert (Hlen : forall u ch, length ch = length (encode (coder a) u) ->
                              length (decode (coder a) ch) = length u).
  { destruct Hcoder as [-> | ->]; [apply uncoded_lengths | apply conv_lengths]. }
  assert (Hframe : forall g, exists f,
             frame a g = Some f /\ frame_L f = F /\ 0 <= frame_err f <= F).
  { intros g. destruct (frame_total a Hsoft Hmbs Hlen g) as (f & Hf & HL & He).
    rewrite Z2Nat.id in HL by lia. exists f. unfold F. rewrite <- HL. auto. }
  assert (Hlaw : forall g f, frame a g = Some f -> frame_L f = F).
  { intros g f Hf. destruct (Hframe g) as (f' & Hf' & HL & _). congruence. }
  split; [exact Hframe|].
  intros base tr s Hrun.
  destruct (length_law hardware_concurrency a F Hlaw base tr s Hrun) as [Hev _].
  pose proof (published_bits_frames F tr Hev) as Hpb.
  split; [exact Hev|]. split; [exact Hpb|]. split.
  - intros Hfit.
    destruct (counters_exact _ _ _ _ _ Hrun Hfit) as (Hb & _ & He).
    split; [congruence | exact He].
  - intros Hj. pose proof (joined_published _ _ _ _ _ Hrun Hj) as Hone.
    split; [exact Hone|]. intros Hfit.
    destruct (counters_exact _ _ _ _ _ Hrun Hfit) as (Hb & _ & _).
    exists (Z.of_nat (frames_published tr)). split; [lia|].
    destruct (result_counts a (shared s)) as (-> & _). congruence.
Qed.

Lemma frame_length_invariant_witness :
  exists f,
    frame (Lcg.args 1) 5 = Some f /\ frame_L f = 1 /\ 0 <= frame_err f <= 1.
Proof.
  exact (proj1 (frame_length_invariant 1 (Lcg.args 1) ltac:(reflexivity)
                  (or_introl eq_refl) (or_introl eq_refl)) 5).
Defined.

(** C4 (as amended). With a single worker, two runs of
    [simulate_framewise] on the same arguments and the same generator state
    return the same record and leave the caller's generator in the same
    state: the worker's frames are fixed by its seed and there is no
    second worker whose progress could be interleaved. *)
Theorem single_worker_deterministic {G : Type} `{RandomEngine G}
    (hardware_concurrency : nat) (a : Args (G := G)) (rng : G) r1 g1 r2 g2 :
  threads hardware_concurrency a = 1%nat ->
  simulate_framewise hardware_concurrency a rng r1 g1 ->
  simulate_framewise hardware_concurrency a rng r2 g2 ->
  r1 = r2 /\ g1 = g2.
Proof.
  intros Hone Hsim1 Hsim2.
  destruct Hsim1 as [base1 rng1 tr1 s1 Hd1 Hrun1 Hj1].
  destruct Hsim2 as [base2 rng2 tr2 s2 Hd2 Hrun2 Hj2].
  rewrite Hd1 in Hd2. injection Hd2 as <- <-.
  pose proof (init_alone hardware_concurrency a base1 Hone) as Halone.
  rewrite (alone_final_unique a _ _ _ _ _ Halone Hrun1 Hrun2 Hj1 Hj2).
  split; reflexivity.
Qed.

Lemma single_worker_deterministic_witness :
  exists r g, simulate_framewise 1 (Lcg.args 1) 0 r g
              /\ (r = r /\ g = g).
Proof.
  destruct (Lcg.single_run (Lcg.advance 0)) as (tr & s & Hrun & Hj & _).
  pose proof (simulate_run 1 (Lcg.args 1) 0 _ _ tr s (Lcg.first_draw 0) Hrun Hj)
    as Hsim.
  exists (result (Lcg.args 1) (shared s)), (Lcg.advance 0).
  split; [exact Hsim|].
  exact (single_worker_deterministic 1 (Lcg.args 1) 0 _ _ _ _ eq_refl Hsim Hsim).
Defined.

(** Two workers, one-bit frames, stop at the first bit: the same
    arguments and the same generator state admit a run that returns
    [bits = 1] and a run that returns [bits = 2]. *)
Lemma two_workers_two_results :
  exists r1 g1 r2 g2,
    simulate_framewise 1 (Lcg.args 2) 0 r1 g1
    /\ simulate_framewise 1 (Lcg.args 2) 0 r2 g2
    /\ bits r1 = 1 /\ bits r2 = 2.
Proof.
  destruct (two_schedules 1 (Lcg.args 2) eq_refl eq_refl (Lcg.args_frame 2)
              (Lcg.advance 0))
    as (tr1 & s1 & tr2 & s2 & Hrun1 & Hj1 & Hrun2 & Hj2 & Hb1 & Hb2).
  exists (result (Lcg.args 2) (shared s1)), (Lcg.advance 0),
         (result (Lcg.args 2) (shared s2)), (Lcg.advance 0).
  split; [exact (simulate_run 1 (Lcg.args 2) 0 _ _ tr1 s1 (Lcg.first_draw 0) Hrun1 Hj1)|].
  split; [exact (simulate_run 1 (Lcg.args 2) 0 _ _ tr2 s2 (Lcg.first_draw 0) Hrun2 Hj2)|].
  destruct (result_counts (Lcg.args 2) (shared s1)) as (-> & _).
  destruct (result_counts (Lcg.args 2) (shared s2)) as (-> & _).
  split; assumption.
Qed.

Lemma rayleigh_equalized_exact_witness :
  let '(ch, rng') := RayleighChannel.transmit 1%R 0 (sigma (Lcg.args 1)) in
  equalize (Lcg.args 1) ch
  = (1%R, (sigma (Lcg.args 1) * sigma (Lcg.args 1)
           / (Rabs (std_normal 0%Z).1 * Rabs (std_normal 0%Z).1))%R).
Proof.
  pose proof (rayleigh_equalized_exact (Lcg.args 1) 1%R 0 (Lcg.std_normal_nonzero 0))
    as Hx.
  destruct (RayleighChannel.transmit 1%R 0 (sigma (Lcg.args 1))) as [ch rng'].
  exact (proj1 (proj2 (proj2 (proj2 Hx)))).
Defined.

(** * Further properties *)

(** ** Further properties of the coder *)

Module CoderFacts.
Import ConvK7R12 ViterbiFacts.

(** *** Output alphabet of the encoder *)

Definition parity_bit_check : bool :=
  all_below 128 (fun sr =>
    let v0 := parity32 (Z.land sr G0) in
    let v1 := parity32 (Z.land sr G1) in
    ((v0 =? 0) || (v0 =? 1)) && ((v1 =? 0) || (v1 =? 1))).

Lemma parity_is_bit sr :
  0 <= sr < 128 ->
  is_bit (parity32 (Z.land sr G0)) /\ is_bit (parity32 (Z.land sr G1)).
Proof.
  intros Hs.
  assert (Hc : parity_bit_check = true) by (vm_compute; reflexivity).
  pose proof (all_below_spec _ _ Hc sr Hs) as Hx. cbv beta zeta in Hx.
  unfold is_bit. lia.
Qed.

Lemma enc_from_bits x : forall sr, Forall is_bit (enc_from sr x).
Proof.
  induction x as [|b x IH]; intros sr; cbn [enc_from]; [constructor|].
  destruct (parity_is_bit (shift_in sr b) (shift_in_range sr b)) as [H0 H1].
  constructor; [exact H0|]. constructor; [exact H1|]. apply IH.
Qed.

Lemma shift_in_low_bit sr b : shift_in sr (Z.land b 1) = shift_in sr b.
Proof.
  unfold shift_in. rewrite <- Z.land_assoc. reflexivity.
Qed.

Lemma enc_from_low_bits x : forall sr,
  enc_from sr ((fun b => Z.land b 1) <$> x) = enc_from sr x.
Proof.
  induction x as [|b x IH]; intros sr; [reflexivity|].
  rewrite fmap_cons. cbn [enc_from]. rewrite shift_in_low_bit, IH. reflexivity.
Qed.

(** X1. Whatever integers the input vector holds, [encode] emits only the
    values 0 and 1, and reads only the low bit of each input. *)
Theorem encode_alphabet (u : list Z) :
  Forall is_bit (encode u)
  /\ encode ((fun b => Z.land b 1) <$> u) = encode u.
Proof.
  rewrite !encode_enc_from. split; [apply enc_from_bits|].
  rewrite <- (enc_from_low_bits (u ++ _)), fmap_app, fmap_replicate.
  change (Z.land 0 1) with 0. reflexivity.
Qed.

(** *** Output size and alphabet of the decoder *)

Definition bit_table (l : list Z) : Prop := Forall is_bit l.

Lemma relax_dec_bits t s b tr pm r v :
  is_bit b -> bit_table (dec v) -> bit_table (dec (relax t s b tr pm r v)).
Proof.
  intros Hb Hv. unfold relax. destruct (_ <? _); [|exact Hv].
  cbn [dec]. by apply Forall_insert.
Qed.

Lemma acs_state_dec_bits t r v s :
  bit_table (dec v) -> bit_table (dec (acs_state t r v s)).
Proof.
  intros Hv. unfold acs_state. destruct (INF <=? _); [exact Hv|].
  apply relax_dec_bits; [by right|]. apply relax_dec_bits; [by left | exact Hv].
Qed.

Lemma acs_row_dec_bits t r (l : list nat) v :
  bit_table (dec v) -> bit_table (dec (foldl (acs_state t r) v l)).
Proof.
  revert v. induction l as [|s l IH]; intros v Hv; [exact Hv|].
  cbn [foldl]. apply IH. by apply acs_state_dec_bits.
Qed.

Lemma dec_mkVit a b c d : dec (mkVit a b c d) = d.
Proof. reflexivity. Qed.

Lemma acs_step_dec_bits c_hat v t :
  bit_table (dec v) -> bit_table (dec (acs_step c_hat v t)).
Proof.
  intros Hv. unfold acs_step. cbv zeta. rewrite dec_mkVit.
  apply acs_row_dec_bits. rewrite dec_mkVit. exact Hv.
Qed.

Lemma forward_dec_bits c_hat (l : list nat) v :
  bit_table (dec v) -> bit_table (dec (foldl (acs_step c_hat) v l)).
Proof.
  revert v. induction l as [|t l IH]; intros v Hv; [exact Hv|].
  cbn [foldl]. apply IH. by apply acs_step_dec_bits.
Qed.

Lemma traceback_bits K v (l : list nat) st :
  bit_table (dec v) -> Forall is_bit st.2 ->
  Forall is_bit (foldl (traceback_step K v) st l).2.
Proof.
  intros Hv. revert st. induction l as [|t l IH]; intros st Hst; [exact Hst|].
  cbn [foldl]. apply IH. unfold traceback_step. cbn [snd].
  destruct (t <? K)%nat; [|exact Hst].
  apply Forall_insert; [exact Hst|].
  set (i := (t * NSTATE + Z.to_nat st.1)%nat).
  destruct (dec v !! i) as [b|] eqn:Hb.
  - rewrite (list_lookup_total_correct _ _ _ Hb).
    by apply (Forall_lookup_1 _ _ _ _ Hv Hb).
  - rewrite list_lookup_total_alt, Hb. by right.
Qed.

(** X2. [decode] is total on every received vector, whatever its length
    and contents: it returns exactly [n_sym - 6] values when
    [n_sym = |c_hat| / 2] exceeds 6 and none otherwise (in particular for an
    empty input), and every value returned is 0 or 1. *)
Theorem decode_shape (c_hat : list Z) :
  length (decode c_hat) = (length c_hat / 2 - 6)%nat
  /\ Forall is_bit (decode c_hat).
Proof.
  split.
  - rewrite DecodeFacts.decode_length.
    destruct (Nat.ltb_spec 6 (length c_hat / 2)); lia.
  - unfold decode. destruct (_ =? _)%nat; [constructor|].
    apply traceback_bits.
    + apply forward_dec_bits. cbn [dec]. apply Forall_replicate. by left.
    + cbn [snd]. apply Forall_replicate. by left.
Qed.


(** *** The generator polynomials *)

Definition xor_taps (sr : Z) (taps : list Z) : Z :=
  Z.b2z (foldr (fun i acc => xorb (Z.testbit sr i) acc) false taps).

Definition generator_check : bool :=
  all_below 128 (fun sr =>
    (parity32 (Z.land sr G0) =? xor_taps sr [0; 1; 3; 4; 6])
    && (parity32 (Z.land sr G1) =? xor_taps sr [0; 3; 4; 5; 6])).

Lemma parity_taps sr :
  0 <= sr < 128 ->
  parity32 (Z.land sr G0) = xor_taps sr [0; 1; 3; 4; 6]
  /\ parity32 (Z.land sr G1) = xor_taps sr [0; 3; 4; 5; 6].
Proof.
  intros Hs.
  assert (Hc : generator_check = true) by (vm_compute; reflexivity).
  pose proof (all_below_spec _ _ Hc sr Hs) as Hx. cbv beta in Hx. lia.
Qed.

Lemma shift_in_testbit sr b i :
  0 <= i <= 6 ->
  Z.testbit (shift_in sr b) i
  = if i =? 0 then Z.testbit b 0 else Z.testbit sr (i - 1).
Proof.
  intros Hi. unfold shift_in. change (Z.shiftl 1 (M + 1) - 1) with (Z.ones 7).
  rewrite Z.land_spec, Z.lor_spec, Z.land_spec, Z.ones_spec_low by lia.
  rewrite andb_true_r, Z.shiftl_spec by lia.
  destruct (Z.eqb_spec i 0) as [-> | Hne].
  - rewrite Z.testbit_neg_r by lia. cbn. by rewrite andb_true_r.
  - replace (Z.testbit 1 i) with false; [by rewrite andb_false_r, orb_false_r|].
    symmetry. change 1 with (Z.ones 1). apply Z.ones_spec_high. lia.
Qed.

(** Input [t - k] of [x], or zero before the start of the frame. *)
Definition past (x : list Z) (t k : nat) : Z :=
  if (k <=? t)%nat then x !!! (t - k)%nat else 0.

Lemma reg_testbit x : Forall is_bit x -> forall t i,
  (t <= length x)%nat -> (i <= 6)%nat ->
  Z.b2z (Z.testbit (reg x t) (Z.of_nat i))
  = if (i <? t)%nat then x !!! (t - 1 - i)%nat else 0.
Proof.
  intros Hx. induction t as [|t IH]; intros i Ht Hi.
  - unfold reg. cbn [take foldl]. rewrite Z.testbit_0_l. reflexivity.
  - rewrite reg_S by lia. rewrite shift_in_testbit by lia.
    destruct i as [|i].
    + cbn [Z.of_nat Z.eqb]. replace (S t - 1 - 0)%nat with t by lia.
      destruct (Nat.ltb_spec 0 (S t)); [|lia].
      destruct (lookup_lt_is_Some_2 x t ltac:(lia)) as [b Hb].
      rewrite (list_lookup_total_correct _ _ _ Hb).
      destruct (Forall_lookup_1 _ _ _ _ Hx Hb) as [-> | ->]; reflexivity.
    + destruct (Z.eqb_spec (Z.of_nat (S i)) 0) as [Hz|_]; [lia|].
      replace (Z.of_nat (S i) - 1) with (Z.of_nat i) by lia.
      rewrite IH by lia.
      replace (S t - 1 - S i)%nat with (t - 1 - i)%nat by lia.
      destruct (Nat.ltb_spec i t), (Nat.ltb_spec (S i) (S t)); try lia; reflexivity.
Qed.

Lemma xor_taps_past x t (taps : list nat) :
  Forall is_bit x -> (t < length x)%nat -> Forall (fun i => (i <= 6)%nat) taps ->
  xor_taps (reg x (S t)) (Z.of_nat <$> taps)
  = foldr (fun i acc => Z.lxor (past x t i) acc) 0 taps.
Proof.
  intros Hx Ht Htaps. unfold xor_taps.
  induction Htaps as [|i taps Hi _ IH]; [reflexivity|].
  rewrite fmap_cons. cbn [foldr]. rewrite <- IH.
  pose proof (reg_testbit x Hx (S t) i ltac:(lia) Hi) as Hbit.
  replace (if (i <? S t)%nat then x !!! (S t - 1 - i)%nat else 0)
    with (past x t i) in Hbit.
  2:{ unfold past. replace (S t - 1 - i)%nat with (t - i)%nat by lia.
      destruct (Nat.leb_spec i t), (Nat.ltb_spec i (S t)); try lia; reflexivity. }
  rewrite <- Hbit.
  destruct (Z.testbit _ _), (foldr _ _ _); reflexivity.
Qed.

(** X3. The encoder realises the generator polynomials 133 and 171
    (octal): with [x] the information bits followed by the six termination
    zeros and [x_j = 0] before the start, the two bits emitted for input
    [t] are [x_t + x_(t-1) + x_(t-3) + x_(t-4) + x_(t-6)] and
    [x_t + x_(t-3) + x_(t-4) + x_(t-5) + x_(t-6)] modulo 2. *)
Theorem encode_generators (u : list Z) (t : nat) :
  Forall is_bit u ->
  (t < length u + 6)%nat ->
  let x := u ++ replicate 6 0 in
  encode u !!! (2 * t)%nat
  = foldr (fun i acc => Z.lxor (past x t i) acc) 0 [0; 1; 3; 4; 6]%nat
  /\ encode u !!! (2 * t + 1)%nat
     = foldr (fun i acc => Z.lxor (past x t i) acc) 0 [0; 3; 4; 5; 6]%nat.
Proof.
  intros Hu Ht x.
  assert (Hx : Forall is_bit x).
  { apply Forall_app. split; [exact Hu|]. apply Forall_replicate. by left. }
  assert (Hn : length x = (length u + 6)%nat)
    by (unfold x; rewrite length_app, length_replicate; reflexivity).
  rewrite encode_enc_from. change (Z.to_nat M) with 6%nat. fold x.
  destruct (enc_from_lookup x 0 t ltac:(lia)) as [-> ->].
  fold (reg x t). rewrite <- reg_S by lia.
  destruct (parity_taps (reg x (S t)) (reg_range x (S t))) as [-> ->].
  split.
  - apply (xor_taps_past x t [0; 1; 3; 4; 6]%nat Hx ltac:(lia)).
    repeat constructor; lia.
  - apply (xor_taps_past x t [0; 3; 4; 5; 6]%nat Hx ltac:(lia)).
    repeat constructor; lia.
Qed.

Lemma encode_generators_witness :
  encode [1; 0; 1] !!! 4%nat = Z.lxor 1 (Z.lxor 0 (Z.lxor 0 (Z.lxor 0 (Z.lxor 0 0)))).
Proof.
  exact (proj1 (encode_generators [1; 0; 1] 2
                  ltac:(repeat constructor; (by left) || (by right))
                  ltac:(simpl; lia))).
Defined.

End CoderFacts.

(** ** Further properties of the modems *)

Module ModemFacts.
Local Open Scope R_scope.

(** *** Decision margins *)

(** X4. 2-ASK: a perturbation of magnitude below one never flips the hard
    decision of a transmitted bit. *)
Theorem ask2_margin (b : bool) (n : R) rest o0 out :
  Rabs n < 1 ->
  Ask2Modem.demodulate (Ask2Modem.modulate (Z.b2z b :: rest) + n) (o0 :: out)
  = Z.b2z b :: out.
Proof.
  intros Hn. apply Rabs_def2 in Hn as [Hlo Hhi].
  unfold Ask2Modem.demodulate, Ask2Modem.modulate.
  destruct b; cbn [Z.b2z lookup_total list_lookup_total Z.eqb];
    case_bool_decide; first [reflexivity | exfalso; lra].
Qed.

Lemma ask2_margin_witness :
  Ask2Modem.demodulate (Ask2Modem.modulate [1%Z] + 0.5) [0%Z] = [1%Z].
Proof.
  apply (ask2_margin true 0.5 [] 0%Z []).
  unfold Rabs. destruct (Rcase_abs 0.5); lra.
Defined.

Lemma slice_near mapping b0 b1 n :
  Rabs n < 1 ->
  Ask4Modem.slice (Ask4Facts.table mapping b0 b1 + n)
  = Ask4Modem.slice (Ask4Facts.table mapping b0 b1).
Proof.
  intros Hn. apply Rabs_def2 in Hn as [Hlo Hhi].
  unfold Ask4Modem.slice.
  destruct mapping, b0, b1; cbn [Ask4Facts.table];
    repeat case_bool_decide; first [reflexivity | exfalso; lra].
Qed.

(** X5. 4-ASK, either mapping: a perturbation of magnitude below one (half
    the symbol spacing) never changes the demodulated bit pair. *)
Theorem ask4_margin mapping (b0 b1 : bool) (n : R) rest o0 o1 out :
  Rabs n < 1 ->
  Ask4Modem.demodulate mapping
    (Ask4Modem.modulate mapping (Ask4Facts.pair_bits b0 b1 rest) + n)
    (o0 :: o1 :: out)
  = Z.b2z b0 :: Z.b2z b1 :: out.
Proof.
  intros Hn. rewrite Ask4Facts.modulate_table.
  rewrite <- (Ask4Facts.demodulate_table mapping b0 b1 o0 o1 out).
  unfold Ask4Modem.demodulate. by rewrite slice_near.
Qed.

Lemma ask4_margin_witness :
  Ask4Modem.demodulate Ask4Modem.Gray
    (Ask4Modem.modulate Ask4Modem.Gray [1%Z; 0%Z] + - 0.75) [0%Z; 0%Z]
  = [1%Z; 0%Z].
Proof.
  apply (ask4_margin Ask4Modem.Gray true false (- 0.75) [] 0%Z 0%Z []).
  unfold Rabs. destruct (Rcase_abs (- 0.75)); lra.
Defined.

(** *** Gray and Natural labelling *)

(** Number of positions in which two bit pairs differ. *)
Definition pair_distance (p q : list Z) : nat :=
  ((if (p !!! 0%nat =? q !!! 0%nat)%Z then 0 else 1)
   + (if (p !!! 1%nat =? q !!! 1%nat)%Z then 0 else 1))%nat.

Definition hard_pair mapping (r : R) : list Z :=
  Ask4Modem.demodulate mapping r [0%Z; 0%Z].

Lemma slice_range r : (0 <= Ask4Modem.slice r <= 3)%Z.
Proof. unfold Ask4Modem.slice. repeat case_bool_decide; lia. Qed.

(** X6. Under the Gray mapping the bit pairs decided in neighbouring
    decision regions differ in exactly one bit; under the Natural mapping
    the two middle regions differ in both bits. *)
Theorem gray_neighbours (r r' : R) :
  (Ask4Modem.slice r' = Ask4Modem.slice r + 1)%Z ->
  pair_distance (hard_pair Ask4Modem.Gray r) (hard_pair Ask4Modem.Gray r') = 1%nat
  /\ (Ask4Modem.slice r = 1%Z ->
      pair_distance (hard_pair Ask4Modem.Natural r)
                    (hard_pair Ask4Modem.Natural r') = 2%nat).
Proof.
  intros Hs. unfold hard_pair, Ask4Modem.demodulate. rewrite Hs.
  pose proof (slice_range r) as Hr. pose proof (slice_range r') as Hr'.
  assert (Hc : (Ask4Modem.slice r = 0 \/ Ask4Modem.slice r = 1
                \/ Ask4Modem.slice r = 2)%Z) by lia.
  destruct Hc as [-> | [-> | ->]]; split; first [reflexivity | discriminate].
Qed.

Lemma gray_neighbours_witness :
  pair_distance (hard_pair Ask4Modem.Gray (-1)) (hard_pair Ask4Modem.Gray 1) = 1%nat.
Proof.
  refine (proj1 (gray_neighbours (-1) 1 _)).
  unfold Ask4Modem.slice. repeat case_bool_decide; first [reflexivity | exfalso; lra].
Defined.


(** *** Soft decisions *)











End ModemFacts.

(** ** The chain when the perturbation stays inside the decision margin *)

Module QuietChain.
Import ViterbiFacts.

(** A modem whose hard demodulator, on the scratch array of the worker
    loop, returns the modulated bits whenever the symbol is displaced by
    less than one. *)
Definition modem_margin (m : IModem) : Prop :=
  forall inbits k (n : R),
    length inbits = 8%nat -> Forall is_bit inbits ->
    (k < Z.to_nat (bits_per_symbol m))%nat ->
    (Rabs n < 1)%R ->
    demodulate m (modulate m inbits + n)%R (replicate 8 0) !!! k = inbits !!! k.

Lemma ask2_has_margin : modem_margin Ask2.
Proof.
  intros inbits k n Hlen Hbits Hk Hn. cbn in Hk.
  apply Rabs_def2 in Hn as [Hlo Hhi].
  assert (k = 0%nat) as -> by (unfold Ask2Modem.bits_per_symbol in Hk; lia).
  destruct inbits as [|b0 rest]; [discriminate|].
  apply Forall_cons in Hbits as [Hb0 _].
  cbn [demodulate modulate Ask2].
  unfold Ask2Modem.demodulate, Ask2Modem.modulate.
  cbn [replicate insert list_insert lookup_total list_lookup_total].
  destruct Hb0 as [-> | ->]; cbn [Z.eqb]; case_bool_decide;
    first [reflexivity | exfalso; lra].
Qed.

Lemma ask4_has_margin mapping : modem_margin (Ask4 mapping).
Proof.
  intros inbits k n Hlen Hbits Hk Hn. cbn in Hk.
  destruct inbits as [|b0 [|b1 rest]]; try discriminate.
  apply Forall_cons in Hbits as [Hb0 Hbits]. apply Forall_cons in Hbits as [Hb1 _].
  cbn [demodulate modulate Ask4 replicate].
  assert (exists c0 c1, b0 = Z.b2z c0 /\ b1 = Z.b2z c1) as (c0 & c1 & -> & ->).
  { destruct Hb0 as [-> | ->], Hb1 as [-> | ->];
      [exists false, false | exists false, true | exists true, false | exists true, true];
      split; reflexivity. }
  change (Z.b2z c0 :: Z.b2z c1 :: rest) with (Ask4Facts.pair_bits c0 c1 rest).
  rewrite Ask4Facts.modulate_table.
  assert (Hd : Ask4Modem.demodulate mapping (Ask4Facts.table mapping c0 c1 + n)
                 [0; 0; 0; 0; 0; 0; 0; 0]
               = Ask4Modem.demodulate mapping (Ask4Facts.table mapping c0 c1)
                   [0; 0; 0; 0; 0; 0; 0; 0]).
  { unfold Ask4Modem.demodulate. by rewrite ModemFacts.slice_near. }
  rewrite Hd, Ask4Facts.demodulate_table.
  unfold Ask4Modem.bits_per_symbol in Hk.
  destruct k as [|[|k]]; [reflexivity | reflexivity | lia].
Qed.

Section Chain.
Context {G : Type} `{RandomEngine G}.
Variable a : Args (G := G).

Lemma load_group_spec (c : list Z) i mbs :
  Forall is_bit c -> (mbs <= 8)%nat ->
  length (load_group c i mbs) = 8%nat
  /\ Forall is_bit (load_group c i mbs)
  /\ forall k, (k < mbs)%nat -> (i + k < length c)%nat ->
               load_group c i mbs !!! k = c !!! (i + k)%nat.
Proof.
  intros Hc. unfold load_group. induction mbs as [|m IH]; intros Hm.
  - cbn [seq foldl]. split; [reflexivity|]. split; [|lia].
    apply Forall_replicate. by left.
  - rewrite seq_S, foldl_snoc, Nat.add_0_l.
    destruct (IH ltac:(lia)) as (Hlen & Hbits & Hlook).
    destruct (Nat.ltb_spec (i + m) (length c)) as [Hin | Hout].
    + split; [by rewrite length_insert|]. split.
      * apply Forall_insert; [exact Hbits|].
        destruct (lookup_lt_is_Some_2 c (i + m) Hin) as [b Hb].
        rewrite (list_lookup_total_correct _ _ _ Hb).
        by apply (Forall_lookup_1 _ _ _ _ Hc Hb).
      * intros k Hk Hik. destruct (decide (k = m)) as [-> | Hne].
        -- by rewrite list_lookup_total_insert_eq by lia.
        -- rewrite list_lookup_total_insert_ne by lia. apply Hlook; lia.
    + split; [exact Hlen|]. split; [exact Hbits|].
      intros k Hk Hik. apply Hlook; lia.
Qed.

Lemma store_group_exact (c : list Z) i mbs (cells acc : list Z) :
  (forall k, (k < mbs)%nat -> (i + k < length c)%nat ->
             cells !!! k = c !!! (i + k)%nat) ->
  store_group c i mbs cells acc = acc ++ take mbs (drop i c).
Proof.
  unfold store_group. induction mbs as [|m IH]; intros Hcells.
  - cbn [seq foldl take]. by rewrite app_nil_r.
  - rewrite seq_S, foldl_snoc, Nat.add_0_l, IH by (intros; apply Hcells; lia).
    destruct (Nat.ltb_spec (i + m) (length c)) as [Hin | Hout].
    + rewrite Hcells by lia. rewrite <- app_assoc. f_equal.
      symmetry. apply take_S_r. rewrite lookup_drop.
      destruct (lookup_lt_is_Some_2 c (i + m) Hin) as [b Hb].
      by rewrite (list_lookup_total_correct _ _ _ Hb).
    + f_equal. rewrite !take_ge by (rewrite length_drop; lia). reflexivity.
Qed.

Hypothesis Hsoft : supports_soft (coder a) = false.
Hypothesis Hmodem : modem_margin (modem a).
Hypothesis Hmbs : 1 <= bits_per_symbol (modem a) <= 8.

(** The generator states at which [channel.transmit] draws while the
    symbol loop runs from index [i], and those of a whole frame. *)
Fixpoint chain_draws (fuel : nat) (c : list Z) (mbs i : nat) (st : Chain)
  : list G :=
  match fuel with
  | O => []
  | S fuel =>
      if (i <? length c)%nat
      then trng st :: chain_draws fuel c mbs (i + mbs)%nat (chain_body a c mbs i st)
      else []
  end.

Definition frame_draws (g : G) : list G :=
  let '(u, g) := info_bits a g in
  let c := encode (coder a) u in
  chain_draws (S (length c)) c (Z.to_nat (bits_per_symbol (modem a))) 0
              (mkChain g [] []).

(** At the generator state [g], the channel followed by the equaliser
    displaces a symbol by less than one. *)
Definition quiet_at (g : G) : Prop :=
  forall s,
    (Rabs ((equalize a (transmit (channel a) s g (sigma a)).1).1 - s) < 1)%R.

Local Abbreviation mbs := (Z.to_nat (bits_per_symbol (modem a))).

Lemma chain_body_quiet c i st :
  quiet_at (trng st) ->
  Forall is_bit c ->
  c_hat (chain_body a c mbs i st) = c_hat st ++ take mbs (drop i c).
Proof.
  intros Hquiet Hc. unfold chain_body.
  pose proof (Hquiet (modulate (modem a) (load_group c i mbs))) as Hs.
  destruct (transmit _ _ _ _) as [ch g]. cbn [fst] in Hs.
  destruct (equalize a ch) as [r_eq s2]. cbn [fst] in Hs.
  replace r_eq
    with (modulate (modem a) (load_group c i mbs)
          + (r_eq - modulate (modem a) (load_group c i mbs)))%R by ring.
  rewrite Hsoft. cbn [c_hat].
  destruct (load_group_spec c i mbs Hc ltac:(lia)) as (Hlen & Hbits & Hlook).
  apply store_group_exact. intros k Hk Hik.
  rewrite Hmodem by assumption. by apply Hlook.
Qed.

Lemma chain_loop_quiet c fuel : forall i st st',
  Forall is_bit c ->
  Forall quiet_at (chain_draws fuel c mbs i st) ->
  chain_loop a fuel c mbs i st = Some st' ->
  c_hat st = take i c -> c_hat st' = c.
Proof.
  induction fuel as [|fuel IH]; intros i st st' Hc Hq Hrun Hi; [discriminate|].
  cbn [chain_loop] in Hrun. cbn [chain_draws] in Hq.
  destruct (Nat.ltb_spec i (length c)) as [Hlt | Hge].
  - apply Forall_cons in Hq as [Hq0 Hq].
    apply (IH _ _ _ Hc Hq Hrun).
    rewrite chain_body_quiet by assumption. rewrite Hi. apply take_take_drop.
  - injection Hrun as <-. rewrite Hi. by apply take_ge.
Qed.

Lemma info_bits_are_bits g : Forall is_bit (info_bits a g).1.
Proof.
  unfold info_bits.
  assert (Hgen : forall (l : list nat) st,
             Forall is_bit st.1 -> Forall is_bit (foldl draw_bit st l).1).
  { induction l as [|k l IH]; intros st Hst; [exact Hst|].
    cbn [foldl]. apply IH. unfold draw_bit.
    destruct (bernoulli_half st.2) as [b g']. cbn [fst].
    apply Forall_app. split; [exact Hst|]. apply Forall_singleton.
    destruct b; [by right | by left]. }
  apply Hgen. constructor.
Qed.

Lemma count_errors_same u L : count_errors u u L = 0.
Proof.
  unfold count_errors. induction L as [|L IH]; [reflexivity|].
  rewrite seq_S, foldl_snoc, IH, Z.eqb_refl. reflexivity.
Qed.

Hypothesis Hcoder : forall u,
  Forall is_bit u ->
  Forall is_bit (encode (coder a) u) /\ decode (coder a) (encode (coder a) u) = u.

Lemma quiet_frame g f :
  Forall quiet_at (frame_draws g) -> frame a g = Some f -> frame_err f = 0.
Proof.
  unfold frame, frame_draws. pose proof (info_bits_are_bits g) as Hu.
  destruct (info_bits a g) as [u g1]. cbn [fst] in Hu.
  destruct (Hcoder u Hu) as [Hc Hround]. intros Hq.
  destruct (chain_loop _ _ _ _ _ _) as [st|] eqn:Hrun; [|discriminate].
  intros [= <-]. cbn [frame_err].
  rewrite Hsoft, (chain_loop_quiet _ _ _ _ _ Hc Hq Hrun eq_refl), Hround.
  apply count_errors_same.
Qed.

End Chain.

Lemma uncoded_round_trip (u : list Z) :
  Forall is_bit u ->
  Forall is_bit (encode UncodedCoder u)
  /\ decode UncodedCoder (encode UncodedCoder u) = u.
Proof. intros Hu. split; [exact Hu | reflexivity]. Qed.

End QuietChain.

(** A Rayleigh draw that is not zero hands the symbol through unchanged. *)
Lemma rayleigh_quiet {G : Type} `{RandomEngine G} (a : Args (G := G)) (g : G) :
  channel a = Rayleigh -> (std_normal g).1 <> 0%R -> QuietChain.quiet_at a g.
Proof.
  intros Hch Hg s. rewrite Hch. cbn [transmit Rayleigh].
  rewrite rayleigh_transmit. cbn [fst].
  rewrite equalize_gain by (apply Rabs_pos_lt, Hg). cbn [fst].
  replace (Rabs (std_normal g).1 * s / Rabs (std_normal g).1 - s)%R with 0%R
    by (field; apply Rabs_no_R0, Hg).
  rewrite Rabs_R0. lra.
Qed.

(** X10. On the Rayleigh channel, with the pass-through coder or any other
    hard-decision coder that inverts its own encoder, and with either
    modem: a frame none of whose own fading draws is exactly zero is
    decoded without a single bit error, whatever the noise scale [sigma],
    that is, whatever the SNR.  (The engine never adds the noise that the
    Rayleigh [transmit] leaves out.) *)
Theorem rayleigh_frames_error_free {G : Type} `{RandomEngine G}
    (a : Args (G := G)) (g : G) (f : Frame) :
  channel a = Rayleigh ->
  modem a = Ask2 \/ (exists mapping, modem a = Ask4 mapping) ->
  supports_soft (coder a) = false ->
  (forall u, Forall ViterbiFacts.is_bit u ->
             Forall ViterbiFacts.is_bit (encode (coder a) u)
             /\ decode (coder a) (encode (coder a) u) = u) ->
  Forall (fun g' => (std_normal g').1 <> 0%R) (QuietChain.frame_draws a g) ->
  frame a g = Some f ->
  frame_err f = 0.
Proof.
  intros Hch Hmodem Hsoft Hcoder Hdraw Hf.
  apply (QuietChain.quiet_frame a Hsoft) with (g := g); try assumption.
  - destruct Hmodem as [-> | [mapping ->]];
      [apply QuietChain.ask2_has_margin | apply QuietChain.ask4_has_margin].
  - destruct Hmodem as [-> | [mapping ->]]; cbn;
      [unfold Ask2Modem.bits_per_symbol | unfold Ask4Modem.bits_per_symbol]; lia.
  - eapply Forall_impl; [exact Hdraw|].
    intros g0 Hg0. by apply rayleigh_quiet.
Qed.

Section AwgnFacts.
Context {G : Type} `{RandomEngine G}.
Variable a : Args (G := G).

Lemma awgn_transmit s rng sg :
  AwgnChannel.transmit s rng sg
  = (mkOut (s + sg * (std_normal rng).1) 1, (std_normal rng).2).
Proof.
  unfold AwgnChannel.transmit, normal_distribution.
  destruct (std_normal rng) as [g rng']. cbn [fst snd].
  replace (0 + sg * g)%R with (sg * g)%R by ring. reflexivity.
Qed.

Lemma awgn_equalize s rng :
  equalize a (AwgnChannel.transmit s rng (sigma a)).1
  = ((s + sigma a * (std_normal rng).1)%R, (sigma a * sigma a)%R).
Proof.
  rewrite awgn_transmit. cbn [fst].
  rewrite equalize_gain by lra. f_equal; field.
Qed.

End AwgnFacts.

(** X11. On the AWGN channel the equaliser is the identity: the gain is
    one, the decision variable is the channel output and the noise variance
    handed to the soft demodulator is [sigma^2].  With a hard-decision
    coder that inverts its own encoder and either modem, a frame whose own
    noise samples all satisfy [|sigma * n| <= 1 - 2^-40] is decoded without
    a bit error: the samples stay below half the symbol spacing with a
    slack that absorbs the rounding of [sigma], of [sigma * n] and of
    [s + n]. *)
Theorem awgn_frames_within_margin {G : Type} `{RandomEngine G}
    (a : Args (G := G)) (g : G) (f : Frame) :
  channel a = Awgn ->
  modem a = Ask2 \/ (exists mapping, modem a = Ask4 mapping) ->
  supports_soft (coder a) = false ->
  (forall u, Forall ViterbiFacts.is_bit u ->
             Forall ViterbiFacts.is_bit (encode (coder a) u)
             /\ decode (coder a) (encode (coder a) u) = u) ->
  Forall (fun g' => (Rabs (sigma a * (std_normal g').1) <= 1 - / 2 ^ 40)%R)
         (QuietChain.frame_draws a g) ->
  frame a g = Some f ->
  (forall s g', let out := (transmit (channel a) s g' (sigma a)).1 in
                gain out = 1%R
                /\ equalize a out = (y out, (sigma a * sigma a)%R))
  /\ frame_err f = 0.
Proof.
  intros Hch Hmodem Hsoft Hcoder Hdraw Hf.
  split.
  - intros s g' out. subst out. rewrite Hch. cbn [transmit Awgn].
    rewrite awgn_transmit. cbn [fst gain y]. split; [reflexivity|].
    rewrite equalize_gain by lra. f_equal; field.
  - apply (QuietChain.quiet_frame a Hsoft) with (g := g); try assumption.
    + destruct Hmodem as [-> | [mapping ->]];
        [apply QuietChain.ask2_has_margin | apply QuietChain.ask4_has_margin].
    + destruct Hmodem as [-> | [mapping ->]]; cbn;
        [unfold Ask2Modem.bits_per_symbol | unfold Ask4Modem.bits_per_symbol]; lia.
    + eapply Forall_impl; [exact Hdraw|].
      intros g0 Hg0 s. rewrite Hch. cbn [transmit Awgn].
      rewrite awgn_equalize. cbn [fst].
      replace (s + sigma a * (std_normal g0).1 - s)%R
        with (sigma a * (std_normal g0).1)%R by ring.
      assert (0 < / 2 ^ 40)%R by (apply Rinv_0_lt_compat, pow_lt; lra).
      lra.
Qed.

(** ** Further properties of the engine *)

Module SeedFacts.

(** The multiplier of the seed derivation is odd, hence invertible
    modulo [2^64]. *)
Definition golden : Z := 0x9E3779B97F4A7C15.
Definition golden_inverse : Z := 17428512612931826493.

Lemma golden_unit : u64 (golden_inverse * golden) = 1.
Proof. vm_compute. reflexivity. Qed.

Lemma golden_injective x y :
  0 <= x < 2 ^ 64 -> 0 <= y < 2 ^ 64 ->
  u64 (golden * x) = u64 (golden * y) -> x = y.
Proof.
  intros Hx Hy Heq.
  assert (Hcancel : forall z, 0 <= z < 2 ^ 64 ->
             u64 (golden_inverse * u64 (golden * z)) = z).
  { intros z Hz. unfold u64. rewrite Z.mul_mod_idemp_r by lia.
    rewrite Z.mul_assoc, <- Z.mul_mod_idemp_l by lia.
    change ((golden_inverse * golden) mod 2 ^ 64) with (u64 (golden_inverse * golden)).
    rewrite golden_unit, Z.mul_1_l. by apply Z.mod_small. }
  rewrite <- (Hcancel x Hx), <- (Hcancel y Hy), Heq. reflexivity.
Qed.

Lemma lxor_cancel_l b x y : Z.lxor b x = Z.lxor b y -> x = y.
Proof.
  intros Heq. apply (f_equal (Z.lxor b)) in Heq.
  by rewrite <- !Z.lxor_assoc, Z.lxor_nilpotent, !Z.lxor_0_l in Heq.
Qed.

End SeedFacts.

(** X12. Distinct workers receive distinct seeds: for a fixed draw [base],
    the seed derivation is injective in the worker index (worker indices
    are 32-bit and [t + 1] must not wrap). *)
Theorem seeds_distinct (base : Z) (t1 t2 : nat) :
  Z.of_nat t1 + 1 < 2 ^ 32 -> Z.of_nat t2 + 1 < 2 ^ 32 ->
  seed_of base t1 = seed_of base t2 -> t1 = t2.
Proof.
  intros H1 H2 Heq. unfold seed_of in Heq.
  apply SeedFacts.lxor_cancel_l in Heq.
  apply (SeedFacts.golden_injective (Z.of_nat t1 + 1) (Z.of_nat t2 + 1)) in Heq; lia.
Qed.

Lemma seeds_distinct_witness : (seed_of 5 0 =? seed_of 5 1) = false.
Proof.
  destruct (Z.eqb_spec (seed_of 5 0) (seed_of 5 1)) as [Heq | Hne]; [|reflexivity].
  discriminate (seeds_distinct 5 0 1 ltac:(reflexivity) ltac:(reflexivity) Heq).
Defined.

(** *** Floors and the 32-bit count *)

Module GridFacts.
Local Open Scope R_scope.

Lemma floor_bounds (r : R) : IZR (Int_part r) <= r < IZR (Int_part r) + 1.
Proof. destruct (base_Int_part r). lra. Qed.

Lemma floor_nonneg (r : R) : 0 <= r -> (0 <= Int_part r)%Z.
Proof.
  intros Hr. destruct (floor_bounds r) as [_ Hhi].
  assert (H : -1 < IZR (Int_part r)) by lra.
  apply lt_IZR in H. lia.
Qed.

Lemma floor_exact (k : Z) (e : R) : 0 <= e < 1 -> Int_part (IZR k + e) = k.
Proof.
  intros He. destruct (floor_bounds (IZR k + e)) as [Hlo Hhi].
  assert (H1 : IZR (Int_part (IZR k + e)) < IZR (k + 1)) by (rewrite plus_IZR; lra).
  assert (H2 : IZR (k - 1) < IZR (Int_part (IZR k + e))) by (rewrite minus_IZR; lra).
  apply lt_IZR in H1, H2. lia.
Qed.

Lemma floor_le (r : R) (k : Z) : r < IZR k + 1 -> (Int_part r <= k)%Z.
Proof.
  intros Hr. destruct (floor_bounds r) as [Hlo _].
  assert (H : IZR (Int_part r) < IZR (k + 1)) by (rewrite plus_IZR; lra).
  apply lt_IZR in H. lia.
Qed.

(** A count that fits: the conversion and the increment are exact. *)
Lemma count_fits (k : Z) :
  (0 <= k < 2 ^ 31 - 1)%Z -> int_add (int_of_double k) 1 = (k + 1)%Z.
Proof.
  intros Hk. unfold int_of_double, int_add.
  rewrite (proj2 (Z.leb_le _ _)), (proj2 (Z.ltb_lt _ _)) by lia. cbn [andb].
  rewrite Z.mod_small by lia. lia.
Qed.

End GridFacts.

(** *** The critical value *)

Module CritFacts.
Import Stats.
Local Open Scope R_scope.

Lemma inv_norm_cdf_domain p :
  inv_norm_cdf p = None <-> p <= 0 \/ 1 <= p.
Proof.
  unfold inv_norm_cdf. repeat case_bool_decide; split;
    first [ discriminate | reflexivity | tauto | intros [?|?]; exfalso; lra
          | intros _; lra ].
Qed.

(** Rounding moves a number by at most one half. *)
Lemma rne_bounds x : x - / 2 <= IZR (rne x) <= x + / 2.
Proof.
  unfold rne. destruct (GridFacts.floor_bounds x) as [Hlo Hhi].
  repeat case_bool_decide; try destruct (Z.even _); rewrite ?plus_IZR; lra.
Qed.

Lemma round_unit_bounds x :
  x - / 18014398509481984 <= round_unit x <= x + / 18014398509481984.
Proof.
  unfold round_unit. pose proof (rne_bounds (x * 9007199254740992)) as Hr.
  split.
  - apply Rmult_le_reg_r with 9007199254740992; [lra|].
    unfold Rdiv. rewrite Rmult_assoc, Rinv_l by lra. lra.
  - apply Rmult_le_reg_r with 9007199254740992; [lra|].
    unfold Rdiv. rewrite Rmult_assoc, Rinv_l by lra. lra.
Qed.

(** Below the last double before one, the rounded value stays below one. *)
Lemma round_unit_below_one x :
  x < 1 - / 18014398509481984 -> round_unit x < 1.
Proof.
  intros Hx. unfold round_unit.
  pose proof (rne_bounds (x * 9007199254740992)) as [_ Hr].
  assert (Hlt : IZR (rne (x * 9007199254740992)) < IZR 9007199254740992) by lra.
  apply lt_IZR in Hlt.
  assert (Hle : IZR (rne (x * 9007199254740992)) <= IZR (9007199254740992 - 1))
    by (apply IZR_le; lia).
  rewrite minus_IZR in Hle.
  apply Rmult_lt_reg_r with 9007199254740992; [lra|].
  unfold Rdiv. rewrite Rmult_assoc, Rinv_l by lra. lra.
Qed.

(** From the midpoint between the last double before one and one, the
    rounded value is one: at the midpoint the tie goes to the even
    neighbour. *)
Lemma round_unit_one x :
  1 - / 18014398509481984 <= x < 1 -> round_unit x = 1.
Proof.
  intros [Hlo Hhi]. unfold round_unit.
  set (d := x * 9007199254740992 - IZR (9007199254740992 - 1)).
  assert (Hd : / 2 <= d < 1) by (unfold d; rewrite minus_IZR; lra).
  assert (Hf : Int_part (x * 9007199254740992) = (9007199254740992 - 1)%Z).
  { replace (x * 9007199254740992) with (IZR (9007199254740992 - 1) + d)
      by (unfold d; ring).
    apply GridFacts.floor_exact. lra. }
  assert (Hr : rne (x * 9007199254740992) = 9007199254740992%Z).
  { unfold rne. rewrite Hf. fold d.
    rewrite bool_decide_eq_false_2 by lra.
    case_bool_decide; reflexivity. }
  rewrite Hr. field.
Qed.

End CritFacts.

Section CritValue.
Context {G : Type}.
Variable a : Args (G := G).

Lemma z_crit_number :
  (0 < ci_level a < 1 - / 9007199254740992)%R -> exists z, z_crit a = Some z.
Proof.
  intros [Hlo Hhi]. unfold z_crit.
  rewrite !bool_decide_eq_true_2 by lra. cbn [andb].
  set (alpha := if bool_decide (ci_level a < / 2)%R then _ else _).
  assert (Ha : (/ 9007199254740992 < alpha < 1 + / 18014398509481984)%R).
  { unfold alpha. case_bool_decide.
    - pose proof (CritFacts.round_unit_bounds (1 - ci_level a)). lra.
    - lra. }
  pose proof (CritFacts.round_unit_bounds (1 - alpha / 2)) as Hb.
  pose proof (CritFacts.round_unit_below_one (1 - alpha / 2) ltac:(lra)) as Hone.
  destruct (Stats.inv_norm_cdf _) as [z|] eqn:Hz; [by exists z|].
  apply CritFacts.inv_norm_cdf_domain in Hz. lra.
Qed.

Lemma z_crit_nan :
  (1 - / 9007199254740992 <= ci_level a < 1)%R -> z_crit a = None.
Proof.
  intros [Hlo Hhi]. unfold z_crit.
  rewrite !bool_decide_eq_true_2 by lra. cbn [andb].
  rewrite (bool_decide_eq_false_2 (ci_level a < / 2)%R) by lra.
  rewrite CritFacts.round_unit_one by lra.
  apply CritFacts.inv_norm_cdf_domain. lra.
Qed.

End CritValue.

(** X14. For a confidence level strictly between 0 and the largest double
    below one the critical value is a number.  For that largest double,
    [1 - 2^-53], which the validation of [Config::load] lets through, the
    argument handed to [inv_norm_cdf] rounds to [1.0] and the critical
    value is NaN.  For a level outside the open unit interval it is 0. *)
Theorem z_crit_defined {G : Type} (a : Args (G := G)) :
  ((0 < ci_level a < 1 - / 9007199254740992)%R -> exists z, z_crit a = Some z)
  /\ ((1 - / 9007199254740992 <= ci_level a < 1)%R -> z_crit a = None)
  /\ (~ (0 < ci_level a < 1)%R -> z_crit a = Some 0%R).
Proof.
  split; [apply z_crit_number|]. split; [apply z_crit_nan|].
  intros Hn. unfold z_crit.
  repeat case_bool_decide; cbn [andb]; first [reflexivity | exfalso; tauto].
Qed.

(** ** The SNR grid *)

Module GridCount.

(** A positive step, a stop not below the start and a span of at most
    [2^30] steps: the count of [main] is positive. *)
Lemma span_count (start_db stop_db step_db : R) :
  (0 < step_db)%R -> (start_db <= stop_db)%R ->
  ((stop_db - start_db) / step_db <= 2 ^ 30)%R ->
  1 <= int_add
         (int_of_double (Int_part ((stop_db - start_db) / step_db + 0.5)%R)) 1.
Proof.
  intros Hstep Hle Hspan.
  set (x := ((stop_db - start_db) / step_db)%R) in *.
  assert (Hx : (0 <= x)%R).
  { unfold x. apply Rmult_le_pos; [lra|]. left. by apply Rinv_0_lt_compat. }
  pose proof (GridFacts.floor_nonneg (x + 0.5) ltac:(lra)) as Hk0.
  assert (Hk1 : Int_part (x + 0.5) <= 2 ^ 30).
  { apply GridFacts.floor_le. change (IZR (2 ^ 30)) with (IZR 1073741824).
    assert ((2 ^ 30)%R = 1073741824%R) as Hp by (cbn [pow]; lra).
    lra. }
  rewrite GridFacts.count_fits by lia. lia.
Qed.

End GridCount.

Section IntegerGrid.
Variables (s d : Z) (k : nat).
Hypothesis Hd : 0 < d.
Hypothesis Hk : Z.of_nat k + 1 < 2 ^ 31.

Lemma integer_grid_count :
  int_add
    (int_of_double
       (Int_part ((IZR (s + Z.of_nat k * d) - IZR s) / IZR d + 0.5)%R)) 1
  = Z.of_nat k + 1.
Proof.
  assert (Hdr : (0 < IZR d)%R) by (by apply IZR_lt).
  replace ((IZR (s + Z.of_nat k * d) - IZR s) / IZR d)%R with (IZR (Z.of_nat k))
    by (rewrite plus_IZR, mult_IZR; field; lra).
  rewrite GridFacts.floor_exact by lra.
  apply GridFacts.count_fits. lia.
Qed.

End IntegerGrid.

(** X17. On a grid of whole decibels (start, step and stop integers of
    magnitude at most [2^52], a positive step, [stop = start + k * step]
    and [k + 1 < 2^31]) every operation of [make_snr_grid] is exact in
    binary64: the grid has exactly [k + 1] points, point [i] is
    [start + i * step], and the last point is [stop_db]. *)
Theorem snr_grid_exact (s d : Z) (k : nat) :
  0 < d -> Z.of_nat k + 1 < 2 ^ 31 ->
  Z.abs s <= 2 ^ 52 -> Z.abs (s + Z.of_nat k * d) <= 2 ^ 52 ->
  let stop_db := IZR (s + Z.of_nat k * d) in
  let grid := make_snr_grid (IZR s) stop_db (IZR d) in
  length grid = S k
  /\ (forall i, (i <= k)%nat -> grid !!! i = IZR (s + Z.of_nat i * d))
  /\ grid !!! k = stop_db.
Proof.
  intros Hd Hk _ _ stop_db grid. subst grid stop_db. unfold make_snr_grid.
  rewrite (integer_grid_count s d k Hd Hk).
  replace (Z.to_nat (Z.of_nat k + 1)) with (S k) by lia.
  rewrite length_fmap, length_seq.
  assert (Hlook : forall i, (i <= k)%nat ->
             ((fun i => (IZR s + IZR (Z.of_nat i) * IZR d)%R) <$> seq 0 (S k)) !!! i
             = IZR (s + Z.of_nat i * d)).
  { intros i Hi.
    rewrite (list_lookup_total_fmap _ (seq 0 (S k)) i) by (rewrite length_seq; lia).
    rewrite lookup_total_seq_lt by lia. cbn [Nat.add].
    by rewrite plus_IZR, mult_IZR. }
  split; [reflexivity|]. split; [exact Hlook | by apply Hlook].
Qed.

Lemma snr_grid_exact_witness :
  length (make_snr_grid (IZR 0) (IZR (0 + Z.of_nat 5 * 2)) (IZR 2)) = 6%nat.
Proof.
  exact (proj1 (snr_grid_exact 0 2 5 ltac:(lia) ltac:(reflexivity)
                  ltac:(vm_compute; discriminate) ltac:(vm_compute; discriminate))).
Defined.

(** ** main.cpp: the sweep *)

Section SweepFacts.
Context {G : Type} `{RandomEngine G}.
Variable hardware_concurrency : nat.
Variable cfg : Config (G := G).

Local Abbreviation floor := (cfg_ber_floor cfg).
Local Abbreviation Sweep := (sweep hardware_concurrency cfg).

Lemma sweep_rows i rng rows :
  Sweep i rng rows ->
  Z.of_nat (length rows) <= Z.max 0 (n_points cfg - i)
  /\ (forall j row, rows !! j = Some row -> row.1 = snr_at cfg (i + Z.of_nat j))
  /\ (forall j row, rows !! j = Some row -> (j + 1 < length rows)%nat ->
                    sweep_break floor row.2 = false)
  /\ (Z.of_nat (length rows) < n_points cfg - i ->
      exists row, rows !! (length rows - 1)%nat = Some row
                  /\ sweep_break floor row.2 = true).
Proof.
  induction 1 as [i rng Hend | i rng r rng' Hi Hsim Hbrk
                 | i rng r rng' rows Hi Hsim Hbrk Hrest IH].
  - cbn [length]. split; [lia|]. split; [intros j row [=]|].
    split; [intros j row [=]|]. lia.
  - cbn [length]. split; [lia|]. split; [|split].
    + intros [|j] row [=]. subst row. cbn [fst]. f_equal. lia.
    + intros [|j] row [=] Hj. cbn [length] in Hj. lia.
    + intros _. exists (snr_at cfg i, r). split; [reflexivity | exact Hbrk].
  - destruct IH as (Hlen & Hsnr & Hmid & Hlast). cbn [length].
    split; [lia|]. split; [|split].
    + intros [|j] row Hrow.
      * injection Hrow as <-. cbn [fst]. f_equal. lia.
      * rewrite (Hsnr j row Hrow). f_equal. lia.
    + intros [|j] row Hrow Hj.
      * injection Hrow as <-. exact Hbrk.
      * apply (Hmid j row Hrow). lia.
    + intros Hshort. destruct Hlast as (row & Hrow & Hb); [lia|].
      exists row. split; [|exact Hb].
      destruct rows as [|r0 rows]; [discriminate Hrow|].
      cbn [length] in *. replace (S (S (length rows)) - 1)%nat with (S (length rows)) by lia.
      replace (S (length rows) - 1)%nat with (length rows) in Hrow by lia.
      exact Hrow.
Qed.

End SweepFacts.

(** X18. The sweep writes its records in grid order, one per point, and
    stops at the first point whose record meets the BER-floor rule and not
    before: every record except the last fails the rule, and when the
    sweep ends before the grid is exhausted the last record meets it. *)
Theorem sweep_stops_at_first_break {G : Type} `{RandomEngine G}
    (hardware_concurrency : nat) (cfg : Config (G := G)) (rng : G) rows :
  sweep hardware_concurrency cfg 0 rng rows ->
  Z.of_nat (length rows) <= Z.max 0 (n_points cfg)
  /\ (forall j row, rows !! j = Some row -> row.1 = snr_at cfg (Z.of_nat j))
  /\ (forall j row, rows !! j = Some row -> (j + 1 < length rows)%nat ->
                    sweep_break (cfg_ber_floor cfg) row.2 = false)
  /\ (Z.of_nat (length rows) < n_points cfg ->
      exists row, rows !! (length rows - 1)%nat = Some row
                  /\ sweep_break (cfg_ber_floor cfg) row.2 = true).
Proof.
  intros Hsweep.
  destruct (sweep_rows hardware_concurrency cfg 0 rng rows Hsweep)
    as (Hlen & Hsnr & Hmid & Hlast).
  rewrite Z.sub_0_r in Hlen, Hlast.
  split; [exact Hlen|]. split; [|split; [exact Hmid | exact Hlast]].
  intros j row Hrow. rewrite (Hsnr j row Hrow). f_equal.
Qed.

(** One worker: the run of a point is unique (shared with the sweep). *)
Lemma one_worker_point_unique {G : Type} `{RandomEngine G}
    (hardware_concurrency : nat) (a : Args (G := G)) (rng : G) r1 g1 r2 g2 :
  threads hardware_concurrency a = 1%nat ->
  simulate_framewise hardware_concurrency a rng r1 g1 ->
  simulate_framewise hardware_concurrency a rng r2 g2 ->
  r1 = r2 /\ g1 = g2.
Proof.
  intros Hone Hsim1 Hsim2.
  destruct Hsim1 as [base1 rng1 tr1 s1 Hd1 Hrun1 Hj1].
  destruct Hsim2 as [base2 rng2 tr2 s2 Hd2 Hrun2 Hj2].
  rewrite Hd1 in Hd2. injection Hd2 as <- <-.
  pose proof (init_alone hardware_concurrency a base1 Hone) as Halone.
  rewrite (alone_final_unique a _ _ _ _ _ Halone Hrun1 Hrun2 Hj1 Hj2).
  split; reflexivity.
Qed.

(** X19. With [threads = 1] in the configuration the whole sweep is a
    function of the configuration and of the generator state: two sweeps
    write the same records. *)
Theorem sweep_single_worker_deterministic {G : Type} `{RandomEngine G}
    (hardware_concurrency : nat) (cfg : Config (G := G)) (i : Z) (rng : G)
    rows1 rows2 :
  cfg_threads cfg = 1%nat ->
  sweep hardware_concurrency cfg i rng rows1 ->
  sweep hardware_concurrency cfg i rng rows2 ->
  rows1 = rows2.
Proof.
  intros Hone Hs1. revert rows2.
  assert (Ht : forall j, threads hardware_concurrency (args_at hardware_concurrency cfg j) = 1%nat).
  { intros j. unfold threads, args_at, nthreads. cbn [n_threads]. rewrite Hone. reflexivity. }
  induction Hs1 as [i rng Hend | i rng r rng' Hi Hsim Hbrk
                   | i rng r rng' rows Hi Hsim Hbrk Hrest IH];
    intros rows2 Hs2;
    inversion Hs2 as [i2 rng2 Hend2 | i2 rng2 r2 rng2' Hi2 Hsim2 Hbrk2
                     | i2 rng2 r2 rng2' rows' Hi2 Hsim2 Hbrk2 Hrest2]; subst;
    try lia; try reflexivity;
    destruct (one_worker_point_unique _ _ _ _ _ _ _ (Ht i) Hsim Hsim2) as [<- <-];
    try congruence.
  f_equal. by apply IH.
Qed.

Module LcgRuns.

(** Uncoded 2-ASK over the Rayleigh channel, one-bit frames. *)
Definition rayleigh_args : Args (G := Z) :=
  mkArgs 4 0 1 1 Ask2 Rayleigh UncodedCoder 0.95 0 0 0 1 0.

(** A one-point grid at 4 dB, one worker, no BER floor. *)
Definition cfg : Config (G := Z) :=
  mkConfig 4 4 1 0 1 0 1 Ask2 Awgn UncodedCoder 0.95 0 0 0 1.

Lemma cfg_points : n_points cfg = 1.
Proof.
  unfold n_points. cbn [snr_start_db snr_stop_db snr_step_db cfg].
  replace ((4 - 4) / 1 + 0.5)%R with (IZR 0 + 0.5)%R by lra.
  rewrite GridFacts.floor_exact by lra. reflexivity.
Qed.

Lemma cfg_args : args_at 1 cfg 0 = Lcg.args 1.
Proof.
  unfold args_at, Lcg.args, snr_at. cbn. f_equal. lra.
Qed.

Lemma one_point_sweep :
  exists r, sweep 1 cfg 0 0 [(snr_at cfg 0, r)].
Proof.
  destruct (Lcg.single_run (Lcg.advance 0)) as (tr & s & Hrun & Hj & _).
  pose proof (simulate_run 1 (Lcg.args 1) 0 _ _ tr s (Lcg.first_draw 0) Hrun Hj)
    as Hsim.
  exists (result (Lcg.args 1) (shared s)).
  eapply sweep_next.
  - rewrite cfg_points. lia.
  - rewrite cfg_args. exact Hsim.
  - unfold sweep_break. cbn [cfg_ber_floor cfg].
    rewrite bool_decide_eq_false_2 by lra. reflexivity.
  - apply sweep_end. rewrite cfg_points. lia.
Qed.

(** Uncoded 2-ASK over the Rayleigh channel, frames of 500 bits, stop at
    500 bits, an absolute width goal of 0.01 at level 0.95, one worker. *)
Definition clean_args : Args (G := Z) :=
  mkArgs 4 0 500 500 Ask2 Rayleigh UncodedCoder 0.95 0.01 0 0 1 0.

(** Its run: one frame of 500 bits without an error. *)
Lemma clean_run (base : Z) :
  exists tr s,
    exec clean_args (init_sys 1 clean_args base) tr s /\ all_joined s
    /\ total_bits (shared s) = 500 /\ total_err (shared s) = 0.
Proof.
  set (g0 := seed_engine (seed_of base 0)).
  destruct (frame_total clean_args eq_refl ltac:(vm_compute; discriminate)
              uncoded_lengths g0) as (f & Hf & HL & _).
  assert (He : frame_err f = 0).
  { apply (QuietChain.quiet_frame clean_args eq_refl QuietChain.ask2_has_margin
             ltac:(vm_compute; split; discriminate)
             QuietChain.uncoded_round_trip g0 f); [|exact Hf].
    apply Forall_true. intros g. apply rayleigh_quiet; [reflexivity|].
    apply Lcg.std_normal_nonzero. }
  change (Z.of_nat (Z.to_nat (frame_len_bits clean_args))) with 500 in HL.
  destruct (one_frame_run 1 clean_args base f eq_refl Hf) as (tr & s & Hrun & Hj & Hb & Hx).
  { rewrite HL, He. reflexivity. }
  exists tr, s. rewrite HL in Hb. rewrite He in Hx.
  split; [exact Hrun|]. split; [exact Hj|]. split; [exact Hb | exact Hx].
Qed.

End LcgRuns.

Import (notations) PrimFloat.
Set Warnings "-inexact-float".

(** The engine returns the totals [bits = 500], [errs = 0] with an
    interval enabled at level 0.95; on these totals the lines that build
    the record give, in binary64, [ber = 0] and a lower bound above it
    ([2^-61], from the rounding of [center - rad]).  On totals
    [errs = bits = 6] they give an upper bound below [ber = 1]. *)
Lemma bracket_broken_in_binary64 :
  (exists tr s,
     exec LcgRuns.clean_args (init_sys 1 LcgRuns.clean_args 7) tr s
     /\ all_joined s
     /\ total_bits (shared s) = 500 /\ total_err (shared s) = 0)
  /\ (let r := Binary64.result (fun _ => PrimFloat.nan)
                  0.95%float 0.01%float 0%float 500 0 in
      Binary64.ber r = 0%float
      /\ PrimFloat.ltb (Binary64.ber r) (Binary64.ci_lo r) = true)
  /\ (let r := Binary64.result (fun _ => PrimFloat.nan)
                  0.95%float 0.01%float 0%float 6 6 in
      Binary64.ber r = 1%float
      /\ PrimFloat.ltb (Binary64.ci_hi r) (Binary64.ber r) = true).
Proof.
  split; [apply LcgRuns.clean_run|].
  split; vm_compute; split; reflexivity.
Qed.

Lemma rayleigh_frames_error_free_witness :
  exists f, frame LcgRuns.rayleigh_args 5 = Some f /\ frame_err f = 0.
Proof.
  destruct (frame_total LcgRuns.rayleigh_args eq_refl ltac:(vm_compute; discriminate)
              uncoded_lengths 5) as (f & Hf & _).
  exists f. split; [exact Hf|].
  exact (rayleigh_frames_error_free LcgRuns.rayleigh_args 5 f eq_refl
           (or_introl eq_refl) eq_refl QuietChain.uncoded_round_trip
           (Forall_true _ _ Lcg.std_normal_nonzero) Hf).
Defined.

Lemma sweep_stops_at_first_break_witness :
  exists rows,
    sweep 1 LcgRuns.cfg 0 0 rows
    /\ Z.of_nat (length rows) <= Z.max 0 (n_points LcgRuns.cfg).
Proof.
  destruct LcgRuns.one_point_sweep as [r Hs].
  exists [(snr_at LcgRuns.cfg 0, r)]. split; [exact Hs|].
  exact (proj1 (sweep_stops_at_first_break 1 LcgRuns.cfg 0 _ Hs)).
Defined.

Lemma sweep_single_worker_deterministic_witness :
  exists rows, sweep 1 LcgRuns.cfg 0 0 rows /\ rows = rows.
Proof.
  destruct LcgRuns.one_point_sweep as [r Hs].
  exists [(snr_at LcgRuns.cfg 0, r)]. split; [exact Hs|].
  exact (sweep_single_worker_deterministic 1 LcgRuns.cfg 0 0 _ _ eq_refl Hs Hs).
Defined.

(** X20. The grid of [make_snr_grid] is the grid the sweep of [main] walks:
    same number of points, same value at every index.  On a configuration
    that passed the validation of [Config::load] (positive step, stop not
    below start), whose span [stop - start] is at most [2^1000], so that
    the subtraction does not overflow, and at most [2^30] steps, so that
    the count fits an [int], the grid has at least one point and every
    sweep writes at least one record. *)
Theorem sweep_grid {G : Type} `{RandomEngine G}
    (hardware_concurrency : nat) (cfg : Config (G := G)) :
  let grid := make_snr_grid (snr_start_db cfg) (snr_stop_db cfg) (snr_step_db cfg) in
  Z.of_nat (length grid) = Z.max 0 (n_points cfg)
  /\ (forall i x, grid !! i = Some x -> x = snr_at cfg (Z.of_nat i))
  /\ ((0 < snr_step_db cfg)%R -> (snr_start_db cfg <= snr_stop_db cfg)%R ->
      (snr_stop_db cfg - snr_start_db cfg <= 2 ^ 1000)%R ->
      ((snr_stop_db cfg - snr_start_db cfg) / snr_step_db cfg <= 2 ^ 30)%R ->
      1 <= n_points cfg
      /\ forall rng rows, sweep hardware_concurrency cfg 0 rng rows ->
                          (1 <= length rows)%nat).
Proof.
  intros grid. subst grid. unfold make_snr_grid. fold (n_points cfg).
  split; [|split].
  - rewrite length_fmap, length_seq. lia.
  - intros i x Hx. rewrite list_lookup_fmap in Hx.
    destruct (seq 0 (Z.to_nat (n_points cfg)) !! i) as [j|] eqn:Hj; [|discriminate].
    apply lookup_seq in Hj as [-> _]. injection Hx as <-. reflexivity.
  - intros Hstep Hle _ Hspan.
    assert (Hn : 1 <= n_points cfg) by (by apply GridCount.span_count).
    split; [exact Hn|].
    intros rng rows Hs. inversion Hs; subst; cbn [length]; lia.
Qed.

Lemma sweep_grid_witness :
  1 <= n_points LcgRuns.cfg.
Proof.
  exact (proj1 (proj2 (proj2 (sweep_grid 1 LcgRuns.cfg))
                  ltac:(cbn; lra) ltac:(cbn; lra)
                  ltac:(cbn [LcgRuns.cfg snr_stop_db snr_start_db];
                        pose proof (pow_lt 2 1000 ltac:(lra)); lra)
                  ltac:(cbn [LcgRuns.cfg snr_stop_db snr_start_db snr_step_db];
                        pose proof (pow_lt 2 30 ltac:(lra)); lra))).
Defined.

(** ** simulation.cpp: the stop flag and the overshoot of [max_bits] *)

Section StopFlag.
Context {G : Type} `{RandomEngine G}.
Variable hardware_concurrency : nat.
Variable a : Args (G := G).

(** No worker resets the flag. *)
Lemma stop_sticky (s : @Sys G) ev s' :
  sys_step a s ev s' -> stop (shared s) = true -> stop (shared s') = true.
Proof.
  intros Hstep Hs. destruct Hstep as [sh ws tid w e sh' w' Hl Hw].
  cbn [shared] in *. destruct Hw; cbn [stop]; first [exact Hs | reflexivity].
Qed.

(** A worker has left its loop only if the flag is set. *)
Lemma joined_stop base tr s :
  exec a (init_sys hardware_concurrency a base) tr s ->
  stop (shared s) = true \/ Forall (fun w => w_pc w <> Joined) (pool s).
Proof.
  intros Hrun. remember (init_sys hardware_concurrency a base) as s0 eqn:Hs0.
  induction Hrun as [|s0 tr s1 ev s2 _ IH Hstep]; subst.
  - right. unfold init_sys, spawn. cbn [pool].
    apply Forall_fmap, Forall_true. intros t. cbn. discriminate.
  - destruct (IH eq_refl) as [Hs | Hnj]; [left; by eapply stop_sticky|].
    destruct Hstep as [sh ws tid w e sh' w' Hl Hw]. cbn [shared pool] in *.
    destruct Hw as [sh g Hs | sh g f Hf | sh g L le | sh g b le | sh g];
      cbn [stop].
    + left. exact Hs.
    + right. apply Forall_insert; [exact Hnj | cbn; discriminate].
    + right. apply Forall_insert; [exact Hnj | cbn; discriminate].
    + right. apply Forall_insert; [exact Hnj|]. cbn.
      destruct (should_stop _ _ _); discriminate.
    + left. reflexivity.
Qed.

End StopFlag.

(** X21. The stop flag is only ever set: no step of any worker clears it.
    In every reachable state a worker that has left its loop implies that
    the flag is set, so when [simulate_framewise] has joined its workers
    the flag is set. *)
Theorem stop_flag_monotone {G : Type} `{RandomEngine G}
    (hardware_concurrency : nat) (a : Args (G := G)) base tr s :
  exec a (init_sys hardware_concurrency a base) tr s ->
  (forall tid w, pool s !! tid = Some w -> w_pc w = Joined ->
                 stop (shared s) = true)
  /\ (all_joined s -> stop (shared s) = true)
  /\ (forall ev s', sys_step a s ev s' -> stop (shared s) = true ->
                    stop (shared s') = true).
Proof.
  intros Hrun.
  pose proof (joined_stop hardware_concurrency a base tr s Hrun) as Hjs.
  assert (Hone : forall tid w, pool s !! tid = Some w -> w_pc w = Joined ->
                               stop (shared s) = true).
  { intros tid w Hl Hj. destruct Hjs as [Hs | Hnj]; [exact Hs|].
    destruct (Forall_lookup_1 _ _ _ _ Hnj Hl Hj). }
  split; [exact Hone|]. split.
  - intros Hall. destruct (run_inv _ _ _ _ _ Hrun) as [_ _ _ _ _ Hlen _ _].
    pose proof (threads_pos hardware_concurrency a) as Ht.
    destruct (pool s) as [|w ws] eqn:Hp; [cbn in Hlen; lia|].
    apply (Hone 0%nat w); [reflexivity|].
    unfold all_joined in Hall. rewrite Hp in Hall.
    by apply Forall_cons in Hall as [Hw _].
  - intros ev s'. apply stop_sticky.
Qed.

Lemma stop_flag_monotone_witness :
  exists tr s,
    exec (Lcg.args 1) (init_sys 1 (Lcg.args 1) 7) tr s
    /\ all_joined s /\ stop (shared s) = true.
Proof.
  destruct (Lcg.single_run 7) as (tr & s & Hrun & Hj & _).
  exists tr, s. split; [exact Hrun|]. split; [exact Hj|].
  exact (proj1 (proj2 (stop_flag_monotone 1 (Lcg.args 1) 7 tr s Hrun)) Hj).
Defined.

Section Overshoot.
Context {G : Type} `{RandomEngine G}.
Variable hardware_concurrency : nat.
Variable a : Args (G := G).
Variable F : Z.
Hypothesis HF : 0 <= F.
Hypothesis Hframe : forall g f, frame a g = Some f -> frame_L f = F.
Hypothesis Hmax : 0 < max_bits a.

(** A worker that will not publish another frame: it has left the loop,
    is about to store the flag, or holds a snapshot at or above
    [max_bits]. *)
Definition spent (w : @Worker G) : bool :=
  match w_pc w with
  | AtPublishErrs b _ => max_bits a <=? b
  | AtStoreStop | Joined => true
  | _ => false
  end.

Definition spent_count (ws : list (@Worker G)) : Z :=
  foldr (fun w acc => (if spent w then 1 else 0) + acc) 0 ws.

Lemma spent_count_insert ws tid w w' :
  ws !! tid = Some w ->
  spent_count (<[tid := w']> ws)
  = spent_count ws - (if spent w then 1 else 0) + (if spent w' then 1 else 0).
Proof.
  revert tid. induction ws as [|w0 ws IH]; intros [|tid] Hl; simpl in *; try done.
  - injection Hl as ->. lia.
  - rewrite (IH _ Hl). lia.
Qed.

Lemma spent_count_range ws : 0 <= spent_count ws <= Z.of_nat (length ws).
Proof.
  induction ws as [|w ws IH]; cbn [spent_count foldr length]; [lia|].
  fold (spent_count ws). destruct (spent w); lia.
Qed.

Lemma published_bits_bound base tr s :
  exec a (init_sys hardware_concurrency a base) tr s ->
  0 <= published_bits tr
  /\ (published_bits tr < 2 ^ 64 ->
      published_bits tr <= max_bits a - 1 + F * spent_count (pool s)).
Proof.
  intros Hrun. remember (init_sys hardware_concurrency a base) as s0 eqn:Hs0.
  induction Hrun as [|s0 tr s1 ev s2 Hrun IH Hstep]; subst.
  - split; [reflexivity|]. intros _.
    pose proof (spent_count_range (pool (init_sys hardware_concurrency a base))).
    change (published_bits []) with 0. nia.
  - destruct (IH eq_refl) as [Hnn Hbound]. clear IH.
    destruct (run_inv _ _ _ _ _ Hrun) as [Hb _ _ _ _ _ _ _].
    destruct (length_law hardware_concurrency a F Hframe base tr s1 Hrun)
      as [_ Hws].
    destruct Hstep as [sh ws tid w e sh' w' Hl Hw]. cbn [shared pool] in *.
    pose proof (Forall_lookup_1 _ _ _ _ Hws Hl) as Hwok.
    pose proof (spent_count_range ws) as Hsc.
    rewrite published_bits_snoc, (spent_count_insert ws tid w w' Hl).
    unfold worker_len_ok in Hwok. unfold ev_bits. cbn [snd].
    destruct Hw as [sh g Hs | sh g f Hf | sh g L le | sh g b le | sh g];
      unfold spent; cbn [w_pc] in *.
    + split; [lia|]. intros Hfit. specialize (Hbound ltac:(lia)). nia.
    + split; [lia|]. intros Hfit. specialize (Hbound ltac:(lia)). nia.
    + destruct Hwok as [-> _]. split; [lia|]. intros Hfit.
      specialize (Hbound ltac:(lia)). subst bits_after.
      rewrite Hb, u64_add_l, u64_small by lia.
      destruct (Z.leb_spec (max_bits a) (published_bits tr + F)); nia.
    + split; [lia|]. intros Hfit. specialize (Hbound ltac:(lia)).
      destruct (Z.leb_spec (max_bits a) b) as [Hle | Hlt].
      * unfold should_stop, stop_by_max.
        rewrite (proj2 (Z.ltb_lt 0 (max_bits a)) Hmax), (proj2 (Z.leb_le _ _) Hle).
        cbn [andb orb]. nia.
      * destruct (should_stop _ _ _); nia.
    + split; [lia|]. intros Hfit. specialize (Hbound ltac:(lia)). nia.
Qed.

End Overshoot.

(** X22. With [max_bits > 0] and frames of [F] bits, the bit counter never
    passes [max_bits] by a whole frame per worker: as long as the published
    bits fit the 64-bit counter, [total_bits < max_bits + F * n_threads] in
    every reachable state, hence in the record returned.  (Each worker
    publishes at most one frame after the counter has reached
    [max_bits].) *)
Theorem max_bits_overshoot {G : Type} `{RandomEngine G}
    (hardware_concurrency : nat) (a : Args (G := G)) base tr s :
  0 < frame_len_bits a ->
  coder a = UncodedCoder \/ coder a = ConvK7R12Coder ->
  modem a = Ask2 \/ (exists mapping, modem a = Ask4 mapping) ->
  0 < max_bits a ->
  exec a (init_sys hardware_concurrency a base) tr s ->
  published_bits tr < 2 ^ 64 ->
  total_bits (shared s)
  < max_bits a + frame_len_bits a * Z.of_nat (threads hardware_concurrency a)
  /\ bits (result a (shared s))
     < max_bits a + frame_len_bits a * Z.of_nat (threads hardware_concurrency a).
Proof.
  intros HF Hcoder Hmodem Hmax Hrun Hfit.
  assert (Hsoft : supports_soft (coder a) = false)
    by (destruct Hcoder as [-> | ->]; reflexivity).
  assert (Hmbs : 1 <= bits_per_symbol (modem a)).
  { destruct Hmodem as [-> | [mapping ->]]; cbn; [unfold Ask2Modem.bits_per_symbol
                                                | unfold Ask4Modem.bits_per_symbol]; lia. }
  assert (Hlen : forall u ch, length ch = length (encode (coder a) u) ->
                              length (decode (coder a) ch) = length u).
  { destruct Hcoder as [-> | ->]; [apply uncoded_lengths | apply conv_lengths]. }
  assert (Hlaw : forall g f, frame a g = Some f -> frame_L f = frame_len_bits a).
  { intros g f Hf. destruct (frame_total a Hsoft Hmbs Hlen g) as (f' & Hf' & HL & _).
    rewrite Z2Nat.id in HL by lia. congruence. }
  destruct (published_bits_bound hardware_concurrency a (frame_len_bits a)
              ltac:(lia) Hlaw Hmax base tr s Hrun) as [_ Hbound].
  specialize (Hbound Hfit).
  destruct (counters_exact _ _ _ _ _ Hrun Hfit) as (Hb & _ & _).
  destruct (run_inv _ _ _ _ _ Hrun) as [_ _ _ _ _ Hpool _ _].
  pose proof (spent_count_range a (pool s)) as Hsc. rewrite Hpool in Hsc.
  destruct (result_counts a (shared s)) as (-> & _).
  rewrite Hb. split; nia.
Qed.

Lemma max_bits_overshoot_witness :
  exists tr s,
    exec (Lcg.args 1) (init_sys 1 (Lcg.args 1) 7) tr s
    /\ total_bits (shared s) < 1 + 1 * Z.of_nat 1.
Proof.
  destruct (Lcg.single_run 7) as (tr & s & Hrun & Hj & Hb).
  exists tr, s. split; [exact Hrun|].
  exact (proj1 (max_bits_overshoot 1 (Lcg.args 1) 7 tr s ltac:(reflexivity)
                  (or_introl eq_refl) (or_introl eq_refl) ltac:(reflexivity)
                  Hrun ltac:(rewrite Hb; reflexivity))).
Defined.

(** ** simulation.cpp: the noise scale *)

Module SigmaFacts.
Section Noise.
Context {G : Type}.
Variable a : Args (G := G).
Local Open Scope R_scope.

Hypothesis Hrate : 0 < rate (coder a).
Hypothesis Hbps : (0 < bits_per_symbol (modem a))%Z.
Hypothesis Hes : 0 < symbol_energy (modem a).

(** [N0 / 2], the argument of the square root. *)
Definition half_n0 : R :=
  0.5 * (symbol_energy (modem a)
         / (rate (coder a) * IZR (bits_per_symbol (modem a))
            * Rpower 10 (ebn0_db a / 10))).

Lemma linear_pos : 0 < Rpower 10 (ebn0_db a / 10).
Proof. unfold Rpower. apply exp_pos. Qed.

Lemma half_n0_pos : 0 < half_n0.
Proof.
  unfold half_n0. pose proof linear_pos as Hl.
  assert (Hm : 0 < IZR (bits_per_symbol (modem a))) by (by apply IZR_lt).
  apply Rmult_lt_0_compat; [lra|].
  apply Rdiv_lt_0_compat; [exact Hes|].
  repeat apply Rmult_lt_0_compat; assumption.
Qed.

Lemma sigma_sqrt : sigma a = sqrt half_n0.
Proof. reflexivity. Qed.

Lemma sigma_pos : 0 < sigma a.
Proof. rewrite sigma_sqrt. apply sqrt_lt_R0, half_n0_pos. Qed.

Lemma sigma_square : sigma a * sigma a = half_n0.
Proof. rewrite sigma_sqrt. apply sqrt_sqrt. left. apply half_n0_pos. Qed.

End Noise.
End SigmaFacts.



(** ** modem.hpp: symbol energy *)

(** X24. The constant returned by [symbol_energy] is the mean square of the
    constellation: [1] for 2-ASK, and [5] for 4-ASK with either mapping. *)
Theorem symbol_energy_mean_square :
  ((Ask2Modem.modulate [0%Z] ^ 2 + Ask2Modem.modulate [1%Z] ^ 2) / 2
   = symbol_energy Ask2)%R
  /\ forall mapping,
       ((Ask4Modem.modulate mapping [0%Z; 0%Z] ^ 2
         + Ask4Modem.modulate mapping [0%Z; 1%Z] ^ 2
         + Ask4Modem.modulate mapping [1%Z; 0%Z] ^ 2
         + Ask4Modem.modulate mapping [1%Z; 1%Z] ^ 2) / 4
        = symbol_energy (Ask4 mapping))%R.
Proof.
  split.
  - unfold Ask2Modem.modulate.
    cbn [lookup_total list_lookup_total Z.eqb symbol_energy Ask2].
    unfold Ask2Modem.symbol_energy. lra.
  - intros mapping.
    change [0; 0] with (Ask4Facts.pair_bits false false []).
    change [0; 1] with (Ask4Facts.pair_bits false true []).
    change [1; 0] with (Ask4Facts.pair_bits true false []).
    change [1; 1] with (Ask4Facts.pair_bits true true []).
    rewrite !Ask4Facts.modulate_table. cbn [symbol_energy Ask4].
    unfold Ask4Modem.symbol_energy.
    destruct mapping; cbn [Ask4Facts.table]; lra.
Qed.

(** ** A quiet AWGN point for the toy engine *)

Module LcgQuiet.

(** Uncoded 2-ASK over AWGN at 20 dB. *)
Definition args : Args (G := Z) :=
  mkArgs 20 0 1 1 Ask2 Awgn UncodedCoder 0.95 0 0 0 1 0.

Lemma sigma_small : (sigma args < / 4)%R.
Proof.
  assert (Hx : Rpower 10 (20 / 10) = 100%R).
  { replace (20 / 10)%R with (INR 2) by (change (INR 2) with (1 + 1)%R; lra).
    rewrite Rpower_pow by lra. cbn [pow]. lra. }
  assert (Hs : (sigma args * sigma args = 0.005)%R).
  { rewrite (SigmaFacts.sigma_square args) by (cbn; unfold Ask2Modem.symbol_energy, Ask2Modem.bits_per_symbol;
        first [lra | lia]).
    unfold SigmaFacts.half_n0. cbn [ebn0_db args]. rewrite Hx.
    cbn. unfold Ask2Modem.symbol_energy, Ask2Modem.bits_per_symbol. lra. }
  pose proof (SigmaFacts.sigma_pos args ltac:(cbn; lra) ltac:(reflexivity)
                ltac:(cbn; unfold Ask2Modem.symbol_energy; lra)) as Hp.
  nra.
Qed.

Lemma draws_small (g : Z) :
  (Rabs (sigma args * (std_normal g).1) <= 1 - / 2 ^ 40)%R.
Proof.
  assert (Hslack : (/ 2 ^ 40 <= / 4)%R).
  { apply Rinv_le_contravar; [lra|]. cbn [pow]. lra. }
  apply Rle_trans with (3 / 4)%R; [|lra]. left.
  pose proof sigma_small as Hs.
  pose proof (SigmaFacts.sigma_pos args ltac:(cbn; lra) ltac:(reflexivity)
                ltac:(cbn; unfold Ask2Modem.symbol_energy; lra)) as Hp.
  cbn [std_normal Lcg.engine fst].
  pose proof (Z.mod_pos_bound (Lcg.advance g) 4 ltac:(lia)) as Hm.
  assert (Hn : (-3 <= IZR (2 * (Lcg.advance g mod 4) - 3) <= 3)%R).
  { split; apply IZR_le; lia. }
  apply Rabs_def1; nra.
Qed.

End LcgQuiet.

Lemma awgn_frames_within_margin_witness :
  exists f, frame LcgQuiet.args 5 = Some f /\ frame_err f = 0.
Proof.
  destruct (frame_total LcgQuiet.args eq_refl ltac:(vm_compute; discriminate)
              uncoded_lengths 5) as (f & Hf & _).
  exists f. split; [exact Hf|].
  exact (proj2 (awgn_frames_within_margin LcgQuiet.args 5 f eq_refl
                  (or_introl eq_refl) eq_refl QuietChain.uncoded_round_trip
                  (Forall_true _ _ LcgQuiet.draws_small) Hf)).
Defined.

(** ** Names, the output file, the loaded configuration *)

Module FactoryFacts.
Import Ascii.
Import (notations) String.
Import Text Factory.

Ltac all_chars c := destruct c as [[] [] [] [] [] [] [] []].

Lemma slug_char_safe c : safe (slug_char c) = true.
Proof. all_chars c; vm_compute; reflexivity. Qed.

Lemma slug_char_fixed c : safe c = true -> slug_char c = c.
Proof. all_chars c; vm_compute; first [reflexivity | discriminate]. Qed.

Lemma safe_not_separator c :
  safe c = true -> c <> "/"%char /\ c <> "\"%char /\ isspace c = false.
Proof.
  all_chars c; vm_compute; intros Hs; first [discriminate Hs | idtac];
    (split; [discriminate | split; [discriminate | reflexivity]]).
Qed.

Lemma slug_safe s : Forall (fun c => safe c = true) (slug s).
Proof. apply Forall_fmap, Forall_true. intros c. apply slug_char_safe. Qed.

(** On names made of letters, digits and underscores the slug is the
    lower-cased name. *)
Definition wordy (c : ascii) : bool :=
  isdigit c || islower c || bool_decide (c = "_"%char).

Lemma slug_char_wordy c : wordy (tolower c) = true -> slug_char c = tolower c.
Proof. all_chars c; vm_compute; first [reflexivity | discriminate]. Qed.

Lemma slug_wordy s :
  Forall (fun c => wordy c = true) (to_lower s) -> slug s = to_lower s.
Proof.
  unfold slug, to_lower. induction s as [|c s IH]; intros Hw; [reflexivity|].
  rewrite !fmap_cons in *. apply Forall_cons in Hw as [Hc Hs].
  rewrite (slug_char_wordy c Hc), (IH Hs). reflexivity.
Qed.

Lemma tolower_idempotent c : tolower (tolower c) = tolower c.
Proof. all_chars c; vm_compute; reflexivity. Qed.

Lemma to_lower_idempotent s : to_lower (to_lower s) = to_lower s.
Proof.
  unfold to_lower. rewrite <- list_fmap_compose. apply list_fmap_ext.
  intros i c _. apply tolower_idempotent.
Qed.

(** The lower-cased names the factories accept. *)
Lemma make_modem_names name m :
  make_modem name = Some m ->
  to_lower name ∈ [lit "ask2"; lit "ask4"; lit "ask4_gray"; lit "ask4_natural";
                   lit "ask4_binary"; lit "ask4_nogray"].
Proof.
  unfold make_modem. cbv zeta.
  repeat case_bool_decide; cbn [orb]; intros Hm;
    first [discriminate Hm | idtac];
    match goal with Heq : to_lower name = _ |- _ => rewrite Heq end;
    repeat first [apply list_elem_of_here | apply list_elem_of_further].
Qed.

Lemma make_channel_names {G} `{RandomEngine G} name (ch : IChannel G) :
  make_channel name = Some ch ->
  to_lower name ∈ [lit "awgn"; lit "rayleigh"].
Proof.
  unfold make_channel. cbv zeta.
  repeat case_bool_decide; intros Hm; first [discriminate Hm | idtac];
    match goal with Heq : to_lower name = _ |- _ => rewrite Heq end;
    repeat first [apply list_elem_of_here | apply list_elem_of_further].
Qed.

Lemma make_coder_names name c :
  make_coder name = Some c ->
  to_lower name ∈ [lit "uncoded"; lit "conv_k7_r12"].
Proof.
  unfold make_coder. cbv zeta.
  repeat case_bool_decide; intros Hm; first [discriminate Hm | idtac];
    match goal with Heq : to_lower name = _ |- _ => rewrite Heq end;
    repeat first [apply list_elem_of_here | apply list_elem_of_further].
Qed.

Lemma wordy_names s :
  s ∈ [lit "ask2"; lit "ask4"; lit "ask4_gray"; lit "ask4_natural";
       lit "ask4_binary"; lit "ask4_nogray"; lit "awgn"; lit "rayleigh";
       lit "uncoded"; lit "conv_k7_r12"] ->
  Forall (fun c => wordy c = true) s.
Proof.
  intros Hs. repeat (apply elem_of_cons in Hs as [-> | Hs];
                     [vm_compute; repeat constructor|]).
  by apply elem_of_nil in Hs.
Qed.



Lemma make_channel_cases {G} `{RandomEngine G} name (ch : IChannel G) :
  make_channel name = Some ch -> ch = Awgn \/ ch = Rayleigh.
Proof.
  unfold make_channel. cbv zeta.
  repeat case_bool_decide; intros [= <-]; first [by left | by right].
Qed.

End FactoryFacts.

Import (notations) String.

(** X25. The automatic output name is one path component: it consists of
    lower-case letters, digits, dots, hyphens and underscores only, so it
    holds no path separator and no white space, whatever the three names
    are; [slug] keeps the length of its argument and is idempotent. *)
Theorem auto_name_safe (coder modem channel : list Ascii.ascii) :
  Forall (fun c => Factory.safe c = true
                   /\ c <> Ascii.ascii_of_nat 47 /\ c <> Ascii.ascii_of_nat 92
                   /\ Text.isspace c = false)
         (Factory.auto_name coder modem channel)
  /\ length (Factory.auto_name coder modem channel)
     = (length coder + length modem + length channel + 6)%nat
  /\ (forall s, length (Factory.slug s) = length s
                /\ Factory.slug (Factory.slug s) = Factory.slug s).
Proof.
  split; [|split].
  - assert (Hs : Forall (fun c => Factory.safe c = true)
                        (Factory.auto_name coder modem channel)).
    { unfold Factory.auto_name.
      repeat (apply Forall_app; split); try apply FactoryFacts.slug_safe;
        vm_compute; repeat constructor. }
    eapply Forall_impl; [exact Hs|].
    intros c Hc. split; [exact Hc|]. by apply FactoryFacts.safe_not_separator.
  - unfold Factory.auto_name, Factory.slug.
    rewrite !length_app, !length_fmap. cbn [length Text.lit String.list_ascii_of_string]. lia.
  - intros s. unfold Factory.slug. split; [apply length_fmap|].
    rewrite <- list_fmap_compose. apply list_fmap_ext.
    intros i c _. apply FactoryFacts.slug_char_fixed, FactoryFacts.slug_char_safe.
Qed.

(** X26. For names the three factories accept, the automatic output name is
    the three names in lower case, joined by underscores, with the suffix
    [.csv]: the slug changes nothing but the letter case. *)
Theorem auto_name_of_accepted {G : Type} `{RandomEngine G}
    (coder modem channel : list Ascii.ascii) c m (ch : IChannel G) :
  Factory.make_coder coder = Some c ->
  Factory.make_modem modem = Some m ->
  Factory.make_channel channel = Some ch ->
  Factory.auto_name coder modem channel
  = Text.to_lower coder ++ Text.lit "_"%string ++ Text.to_lower modem ++ Text.lit "_"%string
    ++ Text.to_lower channel ++ Text.lit ".csv"%string.
Proof.
  intros Hc Hm Hch. unfold Factory.auto_name.
  apply FactoryFacts.make_coder_names in Hc.
  apply FactoryFacts.make_modem_names in Hm.
  apply FactoryFacts.make_channel_names in Hch.
  rewrite !FactoryFacts.slug_wordy; [reflexivity | | |];
    apply FactoryFacts.wordy_names;
    repeat (first [ apply elem_of_cons in Hc as [-> | Hc]
                  | apply elem_of_cons in Hm as [-> | Hm]
                  | apply elem_of_cons in Hch as [-> | Hch] ];
            [repeat first [apply list_elem_of_here | apply list_elem_of_further]|]);
    first [ by apply elem_of_nil in Hc | by apply elem_of_nil in Hm
          | by apply elem_of_nil in Hch ].
Qed.

Lemma auto_name_of_accepted_witness :
  Factory.auto_name (Text.lit "Conv_K7_R12"%string) (Text.lit "ASK4_Gray"%string) (Text.lit "AWGN"%string)
  = Text.lit "conv_k7_r12_ask4_gray_awgn.csv"%string.
Proof.
  exact (auto_name_of_accepted (G := Z)
           (Text.lit "Conv_K7_R12"%string) (Text.lit "ASK4_Gray"%string) (Text.lit "AWGN"%string)
           ConvK7R12Coder (Ask4 Ask4Modem.Gray) Awgn eq_refl eq_refl eq_refl).
Defined.

Section Loaded.
Context {G : Type} `{RandomEngine G}.
Variable hardware_concurrency : nat.
Variable cfg : Config (G := G).


End Loaded.



(** ** The INI reader *)

Module IniFacts.
Import Ascii.
Import (notations) String.
Import Text Ini.

Definition spaces (w : list ascii) : Prop := Forall (fun c => isspace c = true) w.

Definition starts_clean (s : list ascii) : Prop :=
  forall c, head s = Some c -> isspace c = false.
Definition ends_clean (s : list ascii) : Prop :=
  forall c, last s = Some c -> isspace c = false.

Lemma erase_front_split s :
  exists l, s = l ++ erase_front s /\ spaces l /\ starts_clean (erase_front s).
Proof.
  induction s as [|c s (l & Hs & Hl & Hc)]; cbn [erase_front].
  - exists []. split; [reflexivity|]. split; [constructor | intros c [=]].
  - destruct (isspace c) eqn:Hsp.
    + exists (c :: l). split; [cbn; by f_equal|]. split; [by constructor | exact Hc].
    + exists []. split; [reflexivity|]. split; [constructor|].
      intros c' [= <-]. exact Hsp.
Qed.

Lemma erase_front_spaces w s : spaces w -> erase_front (w ++ s) = erase_front s.
Proof.
  induction 1 as [|c w Hc _ IH]; [reflexivity|].
  cbn [app erase_front]. by rewrite Hc.
Qed.

Lemma erase_front_clean s : starts_clean s -> erase_front s = s.
Proof.
  destruct s as [|c s]; [reflexivity|]. intros Hc. cbn [erase_front].
  by rewrite (Hc c eq_refl).
Qed.

Lemma head_reverse (s : list ascii) : head (reverse s) = last s.
Proof.
  induction s as [|c s IH] using rev_ind; [reflexivity|].
  by rewrite reverse_app, last_snoc.
Qed.

Lemma last_reverse (s : list ascii) : last (reverse s) = head s.
Proof. by rewrite <- head_reverse, reverse_involutive. Qed.

Lemma spaces_reverse w : spaces w -> spaces (reverse w).
Proof. unfold spaces. by rewrite Forall_reverse. Qed.

Lemma pop_back_split s :
  exists r, s = pop_back s ++ r /\ spaces r /\ ends_clean (pop_back s).
Proof.
  unfold pop_back. destruct (erase_front_split (reverse s)) as (l & Hs & Hl & Hc).
  exists (reverse l). split; [|split].
  - rewrite <- reverse_app, <- Hs. by rewrite reverse_involutive.
  - by apply spaces_reverse.
  - intros c. rewrite last_reverse. apply Hc.
Qed.

Lemma pop_back_spaces s w : spaces w -> pop_back (s ++ w) = pop_back s.
Proof.
  intros Hw. unfold pop_back.
  by rewrite reverse_app, erase_front_spaces by (by apply spaces_reverse).
Qed.

Lemma pop_back_clean s : ends_clean s -> pop_back s = s.
Proof.
  intros Hc. unfold pop_back. rewrite erase_front_clean.
  - apply reverse_involutive.
  - intros c. rewrite head_reverse. apply Hc.
Qed.

Lemma head_prefix (s t r : list ascii) c :
  s = t ++ r -> head t = Some c -> head s = Some c.
Proof. intros -> Ht. destruct t; [discriminate | exact Ht]. Qed.

(** White space around a trimmed, non-empty word is removed, the word is
    kept. *)
Lemma trim_padded w1 x w2 :
  spaces w1 -> spaces w2 -> starts_clean x -> ends_clean x ->
  trim (w1 ++ x ++ w2) = x.
Proof.
  intros H1 H2 Hs He. unfold trim. rewrite erase_front_spaces by exact H1.
  destruct x as [|c x].
  - cbn [app]. destruct (erase_front_split w2) as (l & Hw & Hl & Hc).
    destruct (erase_front w2) as [|d r] eqn:Hr; [reflexivity|].
    exfalso. pose proof (Hc d eq_refl) as Hd.
    assert (Hin : isspace d = true).
    { unfold spaces in H2. rewrite Hw, Forall_app in H2.
      destruct H2 as [_ H2]. by apply Forall_cons in H2 as [H2 _]. }
    congruence.
  - rewrite erase_front_clean.
    + rewrite (pop_back_spaces (c :: x) w2 H2). by apply pop_back_clean.
    + intros d [= <-]. by apply (Hs c).
Qed.

Lemma trim_split s :
  exists l r, s = l ++ trim s ++ r /\ spaces l /\ spaces r
              /\ starts_clean (trim s) /\ ends_clean (trim s).
Proof.
  unfold trim. destruct (erase_front_split s) as (l & Hs & Hl & Hc).
  destruct (pop_back_split (erase_front s)) as (r & Hp & Hr & He).
  exists l, r. split; [by rewrite <- Hp|]. split; [exact Hl|].
  split; [exact Hr|]. split; [|exact He].
  intros c Hh. apply Hc. by apply (head_prefix _ _ _ _ Hp).
Qed.

End IniFacts.

(** X28. [trim] removes white space from both ends and nothing else: the
    argument is the result between two runs of white space, the result
    neither begins nor ends with white space, and trimming twice is
    trimming once. *)
Theorem trim_spec (s : list Ascii.ascii) :
  (exists l r, s = l ++ Ini.trim s ++ r
               /\ Forall (fun c => Text.isspace c = true) l
               /\ Forall (fun c => Text.isspace c = true) r)
  /\ (forall c, head (Ini.trim s) = Some c -> Text.isspace c = false)
  /\ (forall c, last (Ini.trim s) = Some c -> Text.isspace c = false)
  /\ Ini.trim (Ini.trim s) = Ini.trim s.
Proof.
  destruct (IniFacts.trim_split s) as (l & r & Hs & Hl & Hr & Hh & He).
  split; [by exists l, r|]. split; [exact Hh|]. split; [exact He|].
  pose proof (IniFacts.trim_padded [] (Ini.trim s) [] ltac:(constructor)
                ltac:(constructor) Hh He) as Ht.
  by rewrite app_nil_l, app_nil_r in Ht.
Qed.

Module ParseFacts.
Import Ascii.
Import (notations) String.
Import Text Ini IniFacts.

Lemma find_first_of_none set s :
  find_first_of set s = None -> Forall (fun c => c ∉ set) s.
Proof.
  induction s as [|c s IH]; cbn [find_first_of]; [constructor|].
  case_bool_decide; [discriminate|].
  destruct (find_first_of set s); [discriminate|]. intros _.
  constructor; [assumption | by apply IH].
Qed.

Lemma find_first_of_some set s k :
  find_first_of set s = Some k -> Forall (fun c => c ∉ set) (take k s).
Proof.
  revert k. induction s as [|c s IH]; intros k; cbn [find_first_of]; [discriminate|].
  case_bool_decide.
  - intros [= <-]. constructor.
  - destruct (find_first_of set s) as [j|]; [|discriminate].
    intros [= <-]. cbn [take]. constructor; [assumption | by apply IH].
Qed.

Lemma find_first_of_app set s t :
  Forall (fun c => c ∉ set) s ->
  find_first_of set (s ++ t)
  = ((fun k => (length s + k)%nat) <$> find_first_of set t).
Proof.
  induction 1 as [|c s Hc _ IH]; cbn [app find_first_of length].
  - destruct (find_first_of set t); reflexivity.
  - rewrite bool_decide_eq_false_2 by exact Hc. rewrite IH.
    destruct (find_first_of set t); reflexivity.
Qed.

(** The line after the comment has been cut. *)
Definition cut_comment (line : list ascii) : list ascii :=
  match find_first_of (lit "#;") line with
  | Some cut => take cut line
  | None => line
  end.

Lemma cut_comment_clean line : Forall (fun c => c ∉ lit "#;") (cut_comment line).
Proof.
  unfold cut_comment. destruct (find_first_of _ line) as [k|] eqn:Hk.
  - by apply find_first_of_some.
  - by apply find_first_of_none.
Qed.

Lemma trim_sub (P : ascii -> Prop) s : Forall P s -> Forall P (trim s).
Proof.
  intros Hs. destruct (trim_split s) as (l & r & Heq & _).
  rewrite Heq in Hs. apply Forall_app in Hs as [_ Hs].
  by apply Forall_app in Hs as [Hs _].
Qed.

Definition plain (s : list ascii) : Prop := Forall (fun c => c ∉ lit "#;") s.

(** What every stored entry satisfies. *)
Definition entry_ok (k v : list ascii) : Prop :=
  k <> [] /\ v <> [] /\ trim v = v /\ plain k /\ plain v.

Definition state_ok (st : State) : Prop :=
  plain (section st) /\ forall k v, kv st k = Some v -> entry_ok k v.

Lemma trim_fixed s : trim (trim s) = trim s.
Proof.
  destruct (trim_split s) as (l & r & _ & _ & _ & Hh & He).
  pose proof (trim_padded [] (trim s) [] ltac:(constructor) ltac:(constructor) Hh He)
    as Ht.
  by rewrite app_nil_l, app_nil_r in Ht.
Qed.

Lemma parse_line_ok st line : state_ok st -> state_ok (parse_line st line).
Proof.
  intros [Hsec Hkv]. unfold parse_line. fold (cut_comment line). cbv zeta.
  pose proof (trim_sub _ _ (cut_comment_clean line)) as Hline.
  set (l := trim (cut_comment line)) in *.
  case_bool_decide; [by split|].
  destruct (_ && _).
  - split; [|exact Hkv]. cbn [section].
    apply Forall_take, Forall_drop, Hline.
  - destruct (find "="%char l) as [eq|]; [|by split].
    set (key := if bool_decide (section st = []) then trim (take eq l)
                else section st ++ lit "." ++ trim (take eq l)).
    set (val := trim (drop (eq + 1) l)).
    repeat case_bool_decide; cbn [negb andb]; try (by split).
    split; [exact Hsec|]. cbn [kv]. intros k v. unfold store.
    case_bool_decide as Hk; [|apply Hkv].
    intros [= <-]. subst k. split; [assumption|]. split; [assumption|].
    split; [apply trim_fixed|]. split.
    + unfold key. case_bool_decide.
      * apply trim_sub, Forall_take, Hline.
      * repeat (apply Forall_app; split); [exact Hsec | |].
        -- vm_compute. repeat constructor.
           intros Hin. repeat (apply elem_of_cons in Hin as [Hin | Hin];
                               [discriminate Hin|]).
           by apply elem_of_nil in Hin.
        -- apply trim_sub, Forall_take, Hline.
    + apply trim_sub, Forall_drop, Hline.
Qed.

Lemma parse_lines_ok lines st :
  state_ok st -> state_ok (foldl parse_line st lines).
Proof.
  revert st. induction lines as [|line lines IH]; intros st Hst; [exact Hst|].
  cbn [foldl]. by apply IH, parse_line_ok.
Qed.

Lemma space_not_special c :
  isspace c = true -> (c ∉ lit "#;") /\ c <> "="%char /\ c <> "["%char.
Proof.
  destruct c as [[] [] [] [] [] [] [] []]; vm_compute; intros Hs;
    first [discriminate Hs | idtac];
    (split; [|split; discriminate]);
    intros Hin; repeat (apply elem_of_cons in Hin as [Hin | Hin];
                        [discriminate Hin|]);
    by apply elem_of_nil in Hin.
Qed.

(** Closed lists: no character of the list is in the set. *)
Ltac none_among :=
  repeat (constructor;
          [ let Hin := fresh "Hin" in
            intros Hin;
            repeat (apply elem_of_cons in Hin as [Hin | Hin]; [discriminate Hin|]);
            by apply elem_of_nil in Hin |]);
  constructor.

Lemma spaces_plain w : spaces w -> plain w.
Proof.
  intros Hw. eapply Forall_impl; [exact Hw|].
  intros c Hc. by apply space_not_special.
Qed.

Lemma spaces_no_eq w : spaces w -> Forall (fun c => c ∉ ["="%char]) w.
Proof.
  intros Hw. eapply Forall_impl; [exact Hw|].
  intros c Hc Hin. apply list_elem_of_singleton in Hin.
  by destruct (space_not_special c Hc) as (_ & Hne & _).
Qed.

End ParseFacts.

Import (notations) Ascii String.

(** X29. Whatever the file holds, every entry of the map returned by
    [parse_ini] has a non-empty key and a non-empty value, the value has
    no white space at either end, and neither holds a comment character
    [#] or [;]. *)
Theorem parse_ini_entries (lines : list (list Ascii.ascii)) (k v : list Ascii.ascii) :
  Ini.parse_ini lines k = Some v ->
  k <> [] /\ v <> [] /\ Ini.trim v = v
  /\ Forall (fun c => c ∉ Text.lit "#;"%string) (k ++ v).
Proof.
  intros Hkv.
  assert (Hinit : ParseFacts.state_ok (Ini.mkState [] (fun _ => None))).
  { split; [constructor|]. intros k0 v0 [=]. }
  destruct (ParseFacts.parse_lines_ok lines _ Hinit) as [_ Hall].
  destruct (Hall k v Hkv) as (Hk & Hv & Ht & Hpk & Hpv).
  split; [exact Hk|]. split; [exact Hv|]. split; [exact Ht|].
  apply Forall_app. by split.
Qed.

Lemma parse_ini_entries_witness :
  Ini.trim (Text.lit "0.5"%string) = Text.lit "0.5"%string.
Proof.
  exact (proj1 (proj2 (proj2
           (parse_ini_entries
              [Text.lit "[snr]"%string; Text.lit "  start_db = 0.5   # dB"%string]
              (Text.lit "snr.start_db"%string) (Text.lit "0.5"%string) eq_refl)))).
Defined.

(** X30. A line [key = value], with any white space around the key and the
    value and an optional trailing comment, stores the value under the
    key qualified by the current section, provided the key and the value
    are non-empty, do not begin or end with white space, hold no comment
    character, the key holds no [=] and does not begin with a bracket. *)
Theorem parse_line_assignment (st : Ini.State)
    (w1 key w2 w3 val w4 rest : list Ascii.ascii) :
  IniFacts.spaces w1 -> IniFacts.spaces w2 ->
  IniFacts.spaces w3 -> IniFacts.spaces w4 ->
  key <> [] -> val <> [] ->
  IniFacts.starts_clean key -> IniFacts.ends_clean key ->
  IniFacts.starts_clean val -> IniFacts.ends_clean val ->
  Forall (fun c => c ∉ Text.lit "#;="%string) key ->
  Forall (fun c => c ∉ Text.lit "#;"%string) val ->
  head key <> Some "["%char ->
  rest = [] \/ (exists c, head rest = Some c /\ c ∈ Text.lit "#;"%string) ->
  Ini.parse_line st (w1 ++ key ++ w2 ++ Text.lit "="%string ++ w3 ++ val ++ w4 ++ rest)
  = Ini.mkState (Ini.section st)
      (Ini.store (Ini.kv st)
         (if bool_decide (Ini.section st = []) then key
          else Ini.section st ++ Text.lit "."%string ++ key)
         val).
Proof.
  intros H1 H2 H3 H4 Hk Hv Hks Hke Hvs Hve Hkp Hvp Hbr Hrest.
  assert (Hkplain : ParseFacts.plain key).
  { eapply Forall_impl; [exact Hkp|]. intros c Hc Hin. apply Hc.
    apply elem_of_cons in Hin as [-> | Hin]; [apply list_elem_of_here|].
    apply list_elem_of_further.
    apply list_elem_of_singleton in Hin as ->. apply list_elem_of_here. }
  assert (Hkeq : Forall (fun c => c ∉ ["="%char]) key).
  { eapply Forall_impl; [exact Hkp|]. intros c Hc Hin. apply Hc.
    apply list_elem_of_singleton in Hin as ->.
    do 2 apply list_elem_of_further. apply list_elem_of_here. }
  set (x := key ++ w2 ++ Text.lit "="%string ++ w3 ++ val).
  assert (Hline : w1 ++ key ++ w2 ++ Text.lit "="%string ++ w3 ++ val ++ w4 ++ rest
                  = (w1 ++ x ++ w4) ++ rest).
  { unfold x. by rewrite <- !app_assoc. }
  assert (Hbody : ParseFacts.plain (w1 ++ x ++ w4)).
  { unfold x, ParseFacts.plain.
    repeat (apply Forall_app; split);
      try (by apply ParseFacts.spaces_plain); try assumption.
    vm_compute. repeat constructor.
    intros Hin. repeat (apply elem_of_cons in Hin as [Hin | Hin];
                        [discriminate Hin|]).
    by apply elem_of_nil in Hin. }
  assert (Hcut : ParseFacts.cut_comment ((w1 ++ x ++ w4) ++ rest) = w1 ++ x ++ w4).
  { unfold ParseFacts.cut_comment.
    rewrite (ParseFacts.find_first_of_app _ _ rest Hbody).
    destruct Hrest as [-> | (c & Hc & Hin)].
    - cbn [Ini.find_first_of fmap option_fmap option_map]. by rewrite app_nil_r.
    - destruct rest as [|c' rest]; [discriminate|]. injection Hc as ->.
      cbn [Ini.find_first_of]. rewrite bool_decide_eq_true_2 by exact Hin.
      cbn [fmap option_fmap option_map]. rewrite Nat.add_0_r.
      by rewrite take_app_length. }
  assert (Hxs : IniFacts.starts_clean x).
  { intros c Hc. apply Hks. unfold x in Hc.
    destruct key; [done | exact Hc]. }
  assert (Hxe : IniFacts.ends_clean x).
  { intros c Hc. apply Hve. unfold x in Hc.
    rewrite !app_assoc in Hc. rewrite last_app in Hc.
    destruct (last val) eqn:Hl; [exact Hc|].
    apply last_None in Hl. contradiction. }
  assert (Hxne : x <> []) by (unfold x; destruct key; [done | discriminate]).
  assert (Hhead : head x = head key) by (unfold x; destruct key; done).
  assert (Hfind : Ini.find "="%char x = Some (length (key ++ w2))).
  { unfold Ini.find, x. rewrite app_assoc.
    rewrite ParseFacts.find_first_of_app
      by (apply Forall_app; split; [exact Hkeq | by apply ParseFacts.spaces_no_eq]).
    cbn [Text.lit String.list_ascii_of_string app Ini.find_first_of].
    rewrite bool_decide_eq_true_2 by apply list_elem_of_here.
    cbn [fmap option_fmap option_map]. by rewrite Nat.add_0_r. }
  unfold Ini.parse_line. fold (ParseFacts.cut_comment
    (w1 ++ key ++ w2 ++ Text.lit "="%string ++ w3 ++ val ++ w4 ++ rest)).
  cbv zeta. rewrite Hline, Hcut.
  rewrite (IniFacts.trim_padded w1 x w4 H1 H4 Hxs Hxe).
  rewrite bool_decide_eq_false_2 by exact Hxne.
  rewrite (bool_decide_eq_false_2 (head x = _)) by (by rewrite Hhead).
  cbn [andb]. rewrite Hfind.
  assert (Htake : take (length (key ++ w2)) x = key ++ w2).
  { unfold x. rewrite app_assoc. by rewrite take_app_length. }
  assert (Hdrop : drop (length (key ++ w2) + 1) x = w3 ++ val).
  { unfold x. rewrite app_assoc, <- drop_drop, drop_app_length. reflexivity. }
  rewrite Htake, Hdrop.
  pose proof (IniFacts.trim_padded [] key w2 ltac:(constructor) H2 Hks Hke) as Htk.
  rewrite app_nil_l in Htk. rewrite Htk.
  pose proof (IniFacts.trim_padded w3 val [] H3 ltac:(constructor) Hvs Hve) as Htv.
  rewrite app_nil_r in Htv. rewrite Htv.
  rewrite (bool_decide_eq_false_2 (val = [])) by exact Hv.
  destruct (decide (Ini.section st = [])) as [Hsec | Hsec].
  - rewrite (bool_decide_eq_true_2 _ Hsec).
    rewrite (bool_decide_eq_false_2 (key = [])) by exact Hk. reflexivity.
  - rewrite (bool_decide_eq_false_2 _ Hsec).
    rewrite bool_decide_eq_false_2; [reflexivity|].
    intros Habs. apply app_eq_nil in Habs as [? _]. contradiction.
Qed.

Lemma parse_line_assignment_witness :
  Ini.parse_line (Ini.mkState (Text.lit "snr"%string) (fun _ => None))
                 (Text.lit "  start_db = 0.5   # dB"%string)
  = Ini.mkState (Text.lit "snr"%string)
      (Ini.store (fun _ => None) (Text.lit "snr.start_db"%string)
                 (Text.lit "0.5"%string)).
Proof.
  apply (parse_line_assignment
           (Ini.mkState (Text.lit "snr"%string) (fun _ => None))
           (Text.lit "  "%string) (Text.lit "start_db"%string) (Text.lit " "%string)
           (Text.lit " "%string) (Text.lit "0.5"%string) (Text.lit "   "%string)
           (Text.lit "# dB"%string)).
  - apply (bool_decide_eq_true_1 _). vm_compute. reflexivity.
  - apply (bool_decide_eq_true_1 _). vm_compute. reflexivity.
  - apply (bool_decide_eq_true_1 _). vm_compute. reflexivity.
  - apply (bool_decide_eq_true_1 _). vm_compute. reflexivity.
  - discriminate.
  - discriminate.
  - intros c Hc. vm_compute in Hc. injection Hc as <-. reflexivity.
  - intros c Hc. vm_compute in Hc. injection Hc as <-. reflexivity.
  - intros c Hc. vm_compute in Hc. injection Hc as <-. reflexivity.
  - intros c Hc. vm_compute in Hc. injection Hc as <-. reflexivity.
  - vm_compute. ParseFacts.none_among.
  - vm_compute. ParseFacts.none_among.
  - discriminate.
  - right. exists "#"%char. split; [reflexivity | apply list_elem_of_here].
Defined.
